(** * PyNS: flux-limited advection and the generic transport step

    A shallow embedding of [pyns/discretization/advection.py] and
    [pyns/discretization/calc_phi.py].

    Modelling choices.
    - A floating-point number is an exact rational ([Q]); equality of
      results is [Qeq] ([==]).  Rounding, infinities and NaN are outside
      the model, and [x / 0] is [0] as in [Qinv].
    - A three-dimensional numpy array is its extents together with the
      total index function [elt]; a slice shifts indices, a concatenation
      dispatches on the index.  Operands of an elementwise operation are
      taken to be conformable (the data-model invariant of the package),
      so the shape errors numpy raises are not modelled.
    - Python's unbound local variables are [option]s; reading an unbound
      one raises [UnboundLocalError].  numpy's [ValueError] for the truth
      value of an array is modelled where the code asks for one, at the
      test [src == None] of [calc_phi].
    - [exchange] and the other collaborators that are not part of the two
      modules are parameters of the development. *)

From Stdlib Require Import QArith Qabs Qminmax Lqa Lia ZArith List String Bool.
Import ListNotations.

Set Implicit Arguments.
Open Scope Q_scope.

(* ================================================================== *)
(** * Arrays *)
(* ================================================================== *)

Record ndarray (A : Type) : Type := mk_array {
  nx : nat;
  ny : nat;
  nz : nat;
  elt : nat -> nat -> nat -> A
}.

Definition array := ndarray Q.
Definition mask := ndarray bool.

Definition shape {A} (a : ndarray A) : nat * nat * nat := (nx a, ny a, nz a).

Definition full {A} (sh : nat * nat * nat) (v : A) : ndarray A :=
  let '(n1, n2, n3) := sh in mk_array n1 n2 n3 (fun _ _ _ => v).

(** A Python scalar used where numpy broadcasts it against an array. *)
Definition scalar (s : Q) : array := mk_array 0 0 0 (fun _ _ _ => s).

Definition amap {A B} (f : A -> B) (a : ndarray A) : ndarray B :=
  mk_array (nx a) (ny a) (nz a) (fun i j k => f (elt a i j k)).

Definition amap2 {A B C} (f : A -> B -> C) (a : ndarray A) (b : ndarray B)
  : ndarray C :=
  mk_array (nx a) (ny a) (nz a) (fun i j k => f (elt a i j k) (elt b i j k)).

Definition b2q (b : bool) : Q := if b then 1 else 0.

Declare Scope arr_scope.
Delimit Scope arr_scope with arr.

Notation "a [+] b" := (amap2 Qplus a b) (at level 50, left associativity) : arr_scope.
Notation "a [-] b" := (amap2 Qminus a b) (at level 50, left associativity) : arr_scope.
Notation "a [*] b" := (amap2 Qmult a b) (at level 40, left associativity) : arr_scope.
Notation "a [/] b" := (amap2 Qdiv a b) (at level 40, left associativity) : arr_scope.
(** float array times boolean array: [True] counts as [1.0] *)
Notation "a [*?] m" := (amap2 (fun x b => x * b2q b) a m)
  (at level 40, left associativity) : arr_scope.
(** scalar on the left, scalar on the right *)
Notation "s *: a" := (amap (fun x => s * x) a) (at level 40, left associativity) : arr_scope.
Notation "s +: a" := (amap (fun x => s + x) a) (at level 50, left associativity) : arr_scope.
Notation "s -: a" := (amap (fun x => s - x) a) (at level 50, left associativity) : arr_scope.
Notation "a :* s" := (amap (fun x => x * s) a) (at level 40, left associativity) : arr_scope.
Notation "a :/ s" := (amap (fun x => x / s) a) (at level 40, left associativity) : arr_scope.

Open Scope arr_scope.

(** Two arrays agree: same extents, equal entries. *)
Definition array_eq (a b : array) : Prop :=
  shape a = shape b /\ forall i j k, elt a i j k == elt b i j k.

(** ** Slicing with Python's rules *)

(** Position named by a slice bound [b] in an axis of extent [n]:
    negative bounds count from the end, and everything is clipped. *)
Definition py_index (n : nat) (b : Z) : nat :=
  if (b <? 0)%Z then Z.to_nat (Z.max 0 (Z.of_nat n + b))
  else Nat.min (Z.to_nat b) n.

Definition slice_lo (n : nat) (s : option Z) : nat :=
  match s with None => 0%nat | Some b => py_index n b end.

Definition slice_hi (n : nat) (s : option Z) : nat :=
  match s with None => n | Some b => py_index n b end.

(** [a[lo:hi,:,:]], [a[:,lo:hi,:]], [a[:,:,lo:hi]] *)
Definition slice_x {A} (lo hi : option Z) (a : ndarray A) : ndarray A :=
  let l := slice_lo (nx a) lo in
  mk_array (slice_hi (nx a) hi - l) (ny a) (nz a)
           (fun i j k => elt a (l + i)%nat j k).

Definition slice_y {A} (lo hi : option Z) (a : ndarray A) : ndarray A :=
  let l := slice_lo (ny a) lo in
  mk_array (nx a) (slice_hi (ny a) hi - l) (nz a)
           (fun i j k => elt a i (l + j)%nat k).

Definition slice_z {A} (lo hi : option Z) (a : ndarray A) : ndarray A :=
  let l := slice_lo (nz a) lo in
  mk_array (nx a) (ny a) (slice_hi (nz a) hi - l)
           (fun i j k => elt a i j (l + k)%nat).

(** [a[lo:hi,:,:] = src] and its siblings: the slab is overwritten. *)
Definition assign_x {A} (lo hi : option Z) (a src : ndarray A) : ndarray A :=
  let l := slice_lo (nx a) lo in
  let h := slice_hi (nx a) hi in
  mk_array (nx a) (ny a) (nz a)
           (fun i j k => if ((l <=? i) && (i <? h))%nat
                         then elt src (i - l)%nat j k else elt a i j k).

Definition assign_y {A} (lo hi : option Z) (a src : ndarray A) : ndarray A :=
  let l := slice_lo (ny a) lo in
  let h := slice_hi (ny a) hi in
  mk_array (nx a) (ny a) (nz a)
           (fun i j k => if ((l <=? j) && (j <? h))%nat
                         then elt src i (j - l)%nat k else elt a i j k).

Definition assign_z {A} (lo hi : option Z) (a src : ndarray A) : ndarray A :=
  let l := slice_lo (nz a) lo in
  let h := slice_hi (nz a) hi in
  mk_array (nx a) (ny a) (nz a)
           (fun i j k => if ((l <=? k) && (k <? h))%nat
                         then elt src i j (k - l)%nat else elt a i j k).

(** [a[:,:,:]] *)
Definition slice_all {A} (a : ndarray A) : ndarray A :=
  mk_array (nx a) (ny a) (nz a) (elt a).

(** [a[:] = src]: every entry of [a] is overwritten, [a] keeps its extents. *)
Definition assign_all {A} (a src : ndarray A) : ndarray A :=
  mk_array (nx a) (ny a) (nz a) (elt src).

(* ================================================================== *)
(** * Operators of [pyns.operators] and [pyns.standard] *)
(* ================================================================== *)

(** Modelled from the spec: [pyns.operators.cat_x], [cat_y], [cat_z] are
    not among the sources; "per-axis concatenation of arrays". *)
Fixpoint cat_x (l : list array) : array :=
  match l with
  | [] => mk_array 0 0 0 (fun _ _ _ => 0)
  | a :: r =>
      let c := cat_x r in
      mk_array (nx a + nx c) (ny a) (nz a)
               (fun i j k => if (i <? nx a)%nat then elt a i j k
                             else elt c (i - nx a)%nat j k)
  end.

Fixpoint cat_y (l : list array) : array :=
  match l with
  | [] => mk_array 0 0 0 (fun _ _ _ => 0)
  | a :: r =>
      let c := cat_y r in
      mk_array (nx a) (ny a + ny c) (nz a)
               (fun i j k => if (j <? ny a)%nat then elt a i j k
                             else elt c i (j - ny a)%nat k)
  end.

Fixpoint cat_z (l : list array) : array :=
  match l with
  | [] => mk_array 0 0 0 (fun _ _ _ => 0)
  | a :: r =>
      let c := cat_z r in
      mk_array (nx a) (ny a) (nz a + nz c)
               (fun i j k => if (k <? nz a)%nat then elt a i j k
                             else elt c i j (k - nz a)%nat)
  end.

(** Modelled from the spec: [pyns.operators.dif_x], [dif_y], [dif_z] are
    not among the sources; "per-axis difference", the value one index up
    minus the value at the index ("outflow minus inflow"). *)
Definition dif_x (a : array) : array :=
  mk_array (nx a - 1) (ny a) (nz a)
           (fun i j k => elt a (S i) j k - elt a i j k).

Definition dif_y (a : array) : array :=
  mk_array (nx a) (ny a - 1) (nz a)
           (fun i j k => elt a i (S j) k - elt a i j k).

Definition dif_z (a : array) : array :=
  mk_array (nx a) (ny a) (nz a - 1)
           (fun i j k => elt a i j (S k) - elt a i j k).

(** Modelled from the spec: [pyns.operators.avg_x], [avg_y], [avg_z] are
    not among the sources; "per-axis face-average", the simple average of
    the two neighbouring entries. *)
Definition avg_x (a : array) : array :=
  mk_array (nx a - 1) (ny a) (nz a)
           (fun i j k => (elt a (S i) j k + elt a i j k) * (1 # 2)).

Definition avg_y (a : array) : array :=
  mk_array (nx a) (ny a - 1) (nz a)
           (fun i j k => (elt a i (S j) k + elt a i j k) * (1 # 2)).

Definition avg_z (a : array) : array :=
  mk_array (nx a) (ny a) (nz a - 1)
           (fun i j k => (elt a i j (S k) + elt a i j k) * (1 # 2)).

(** Modelled from the spec: [mx] and [mn] of [pyns.standard] are not among
    the sources; the limiter formulas use them as the elementwise maximum
    and minimum of all their arguments. *)
Definition mx (l : list array) : array :=
  match l with
  | [] => scalar 0
  | a :: r => fold_left (amap2 Qmax) r a
  end.

Definition mn (l : list array) : array :=
  match l with
  | [] => scalar 0
  | a :: r => fold_left (amap2 Qmin) r a
  end.

(** Modelled from the spec: [zeros], [ones], [abs], [lnot] of
    [pyns.standard] are not among the sources; numpy's functions of these
    names ("the complementary mask" for [lnot]). *)
Definition zeros (sh : nat * nat * nat) : array := full sh 0.
Definition ones (sh : nat * nat * nat) : array := full sh 1.
Definition abs (a : array) : array := amap Qabs a.
Definition lnot (m : mask) : mask := amap negb m.

(** [a >= 0], elementwise *)
Definition ge0 (a : array) : mask := amap (fun x => Qle_bool 0 x) a.

(** Strict comparison, as a boolean. *)
Definition Qlt_bool (x y : Q) : bool := negb (Qle_bool y x).

(* ================================================================== *)
(** * Data model *)
(* ================================================================== *)

(** The object "Unknown": values, values of the previous time step,
    placement tag, periodicity per axis, and the boundary values
    [bnd[W].val] ... [bnd[T].val]. *)
Record Unknown : Type := mk_unknown {
  val : array;
  old : array;
  pos : Z;
  per_X : bool;
  per_Y : bool;
  per_Z : bool;
  bnd_W : array;
  bnd_E : array;
  bnd_S : array;
  bnd_N : array;
  bnd_B : array;
  bnd_T : array
}.

Definition set_val (phi : Unknown) (v : array) : Unknown :=
  mk_unknown v (old phi) (pos phi) (per_X phi) (per_Y phi) (per_Z phi)
             (bnd_W phi) (bnd_E phi) (bnd_S phi) (bnd_N phi)
             (bnd_B phi) (bnd_T phi).

(** The system matrix: centre band and one band per neighbour. *)
Record SystemMatrix : Type := mk_matrix {
  band_C : array;
  band_W : array;
  band_E : array;
  band_S : array;
  band_N : array;
  band_B : array;
  band_T : array
}.

(** What [pyns.constants] and the class of "Unknown" provide: the
    threshold [TINY], the tags [C], [X], [Y], [Z] a placement is compared
    with, and the refresh of the buffers of an unknown. *)
Class Environment : Type := {
  TINY : Q;
  pos_C : Z;
  pos_X : Z;
  pos_Y : Z;
  pos_Z : Z;
  exchange : Unknown -> Unknown
}.

(** Exceptions the two functions raise by themselves: Python's for a
    local variable read before it was bound, and numpy's for the truth
    value of an array. *)
Inductive exn : Type :=
| UnboundLocalError (name : string)
| ValueError (what : string).

Inductive outcome (A : Type) : Type :=
| Ok (a : A)
| Raise (e : exn).
Arguments Ok {A} a.
Arguments Raise {A} e.

(** Calls to collaborators, in the order they are made. *)
Inductive call : Type :=
| Exchange (who : string).

(** What a call of [advection] leaves behind: the value returned or the
    exception raised, the unknowns after their buffers were refreshed,
    the matrix, and the calls made. *)
Record run : Type := mk_run {
  result : outcome array;
  phi_out : Unknown;
  uvwf_out : Unknown * Unknown * Unknown;
  matrix_out : option SystemMatrix;
  calls : list call
}.

(** The twelve face arrays a placement branch binds. *)
Record faces : Type := mk_faces {
  rho_x_fac : array;
  rho_y_fac : array;
  rho_z_fac : array;
  a_x_fac : array;
  a_y_fac : array;
  a_z_fac : array;
  del_x : array;
  del_y : array;
  del_z : array;
  u_fac : array;
  v_fac : array;
  w_fac : array
}.

(* ================================================================== *)
(** * Face reconstruction (advection.py, lines 61-249) *)
(* ================================================================== *)

(** [a[:1,:,:] = a[-2:-1,:,:]] followed by [a[-1:,:,:] = a[1:2,:,:]] *)
Definition wrap_x (a : array) : array :=
  let a := assign_x None (Some 1%Z) a (slice_x (Some (-2)%Z) (Some (-1)%Z) a) in
  assign_x (Some (-1)%Z) None a (slice_x (Some 1%Z) (Some 2%Z) a).

Definition wrap_y (a : array) : array :=
  let a := assign_y None (Some 1%Z) a (slice_y (Some (-2)%Z) (Some (-1)%Z) a) in
  assign_y (Some (-1)%Z) None a (slice_y (Some 1%Z) (Some 2%Z) a).

Definition wrap_z (a : array) : array :=
  let a := assign_z None (Some 1%Z) a (slice_z (Some (-2)%Z) (Some (-1)%Z) a) in
  assign_z (Some (-1)%Z) None a (slice_z (Some 1%Z) (Some 2%Z) a).

(** [a[:1,:,:]] and [a[-1:,:,:]], and the same along the other axes *)
Definition first_x (a : array) := slice_x None (Some 1%Z) a.
Definition last_x (a : array) := slice_x (Some (-1)%Z) None a.
Definition first_y (a : array) := slice_y None (Some 1%Z) a.
Definition last_y (a : array) := slice_y (Some (-1)%Z) None a.
Definition first_z (a : array) := slice_z None (Some 1%Z) a.
Definition last_z (a : array) := slice_z (Some (-1)%Z) None a.

Section Reconstruction.

Variables (rho sx sy sz dx dy dz : array).
Variables (perX perY perZ : bool).
Variables (uf vf wf : Unknown).

(** cell-centred transported variable *)
Definition faces_C : faces :=
  let rho_x_fac := cat_x [first_x rho; avg_x rho; last_x rho] in
  let rho_y_fac := cat_y [first_y rho; avg_y rho; last_y rho] in
  let rho_z_fac := cat_z [first_z rho; avg_z rho; last_z rho] in
  let a_x_fac := cat_x [first_x sx; avg_x sx; last_x sx] in
  let a_y_fac := cat_y [first_y sy; avg_y sy; last_y sy] in
  let a_z_fac := cat_z [first_z sz; avg_z sz; last_z sz] in
  let del_x := cat_x [first_x dx :* (1#2); avg_x dx; last_x dx :* (1#2)] in
  let del_y := cat_y [first_y dy :* (1#2); avg_y dy; last_y dy :* (1#2)] in
  let del_z := cat_z [first_z dz :* (1#2); avg_z dz; last_z dz :* (1#2)] in
  let '(rho_x_fac, a_x_fac, del_x) :=
    if perX then (wrap_x rho_x_fac, wrap_x a_x_fac, wrap_x del_x)
    else (rho_x_fac, a_x_fac, del_x) in
  let '(rho_y_fac, a_y_fac, del_y) :=
    if perY then (wrap_y rho_y_fac, wrap_y a_y_fac, wrap_y del_y)
    else (rho_y_fac, a_y_fac, del_y) in
  let '(rho_z_fac, a_z_fac, del_z) :=
    if perZ then (wrap_z rho_z_fac, wrap_z a_z_fac, wrap_z del_z)
    else (rho_z_fac, a_z_fac, del_z) in
  let u_fac := cat_x [bnd_W uf; val uf; bnd_E uf] in
  let v_fac := cat_y [bnd_S vf; val vf; bnd_N vf] in
  let w_fac := cat_z [bnd_B wf; val wf; bnd_T wf] in
  mk_faces rho_x_fac rho_y_fac rho_z_fac a_x_fac a_y_fac a_z_fac
           del_x del_y del_z u_fac v_fac w_fac.

(** transported variable staggered in x *)
Definition faces_X : faces :=
  let rho_x_fac := rho in
  let rho_nod_y := avg_x (avg_y rho) in
  let rho_y_fac := cat_y [first_y rho_nod_y; rho_nod_y; last_y rho_nod_y] in
  let rho_nod_z := avg_x (avg_z rho) in
  let rho_z_fac := cat_z [first_z rho_nod_z; rho_nod_z; last_z rho_nod_z] in
  let a_x_fac := sx in
  let a_y_fac := cat_y [avg_x (first_y sy); avg_x (avg_y sy); avg_x (last_y sy)] in
  let a_z_fac := cat_z [avg_x (first_z sz); avg_x (avg_z sz); avg_x (last_z sz)] in
  let del_x := slice_all dx in
  let del_y := avg_x (cat_y [first_y dy :* (1#2); avg_y dy; last_y dy :* (1#2)]) in
  let del_z := avg_x (cat_z [first_z dz :* (1#2); avg_z dz; last_z dz :* (1#2)]) in
  let '(rho_y_fac, a_y_fac, del_y) :=
    if perY then (wrap_y rho_y_fac, wrap_y a_y_fac, wrap_y del_y)
    else (rho_y_fac, a_y_fac, del_y) in
  let '(rho_z_fac, a_z_fac, del_z) :=
    if perZ then (wrap_z rho_z_fac, wrap_z a_z_fac, wrap_z del_z)
    else (rho_z_fac, a_z_fac, del_z) in
  let u_fac := cat_x [bnd_W uf; avg_x (val uf); bnd_E uf] in
  let v_fac := avg_x (cat_y [bnd_S vf; val vf; bnd_N vf]) in
  let w_fac := avg_x (cat_z [bnd_B wf; val wf; bnd_T wf]) in
  mk_faces rho_x_fac rho_y_fac rho_z_fac a_x_fac a_y_fac a_z_fac
           del_x del_y del_z u_fac v_fac w_fac.

(** transported variable staggered in y *)
Definition faces_Y : faces :=
  let rho_nod_x := avg_y (avg_x rho) in
  let rho_x_fac := cat_x [first_x rho_nod_x; rho_nod_x; last_x rho_nod_x] in
  let rho_y_fac := rho in
  let rho_nod_z := avg_y (avg_z rho) in
  let rho_z_fac := cat_z [first_z rho_nod_z; rho_nod_z; last_z rho_nod_z] in
  let a_x_fac := cat_x [avg_y (first_x sx); avg_y (avg_x sx); avg_y (last_x sx)] in
  let a_y_fac := sy in
  let a_z_fac := cat_z [avg_y (first_z sz); avg_y (avg_z sz); avg_y (last_z sz)] in
  let del_x := avg_y (cat_x [first_x dx :* (1#2); avg_x dx; last_x dx :* (1#2)]) in
  let del_y := slice_all dy in
  let del_z := avg_y (cat_z [first_z dz :* (1#2); avg_z dz; last_z dz :* (1#2)]) in
  let '(rho_x_fac, a_x_fac, del_x) :=
    if perX then (wrap_x rho_x_fac, wrap_x a_x_fac, wrap_x del_x)
    else (rho_x_fac, a_x_fac, del_x) in
  let '(rho_z_fac, a_z_fac, del_z) :=
    if perZ then (wrap_z rho_z_fac, wrap_z a_z_fac, wrap_z del_z)
    else (rho_z_fac, a_z_fac, del_z) in
  let u_fac := avg_y (cat_x [bnd_W uf; val uf; bnd_E uf]) in
  let v_fac := cat_y [bnd_S vf; avg_y (val vf); bnd_N vf] in
  let w_fac := avg_y (cat_z [bnd_B wf; val wf; bnd_T wf]) in
  mk_faces rho_x_fac rho_y_fac rho_z_fac a_x_fac a_y_fac a_z_fac
           del_x del_y del_z u_fac v_fac w_fac.

(** transported variable staggered in z *)
Definition faces_Z : faces :=
  let rho_nod_x := avg_z (avg_x rho) in
  let rho_x_fac := cat_x [first_x rho_nod_x; rho_nod_x; last_x rho_nod_x] in
  let rho_nod_y := avg_z (avg_y rho) in
  let rho_y_fac := cat_y [first_y rho_nod_y; rho_nod_y; last_y rho_nod_y] in
  let rho_z_fac := rho in
  let a_x_fac := cat_x [avg_z (first_x sx); avg_z (avg_x sx); avg_z (last_x sx)] in
  let a_y_fac := cat_y [avg_z (first_y sy); avg_z (avg_y sy); avg_z (last_y sy)] in
  let a_z_fac := sz in
  let del_x := avg_z (cat_x [first_x dx :* (1#2); avg_x dx; last_x dx :* (1#2)]) in
  let del_y := avg_z (cat_y [first_y dy :* (1#2); avg_y dy; last_y dy :* (1#2)]) in
  let del_z := slice_all dz in
  let '(rho_x_fac, a_x_fac, del_x) :=
    if perX then (wrap_x rho_x_fac, wrap_x a_x_fac, wrap_x del_x)
    else (rho_x_fac, a_x_fac, del_x) in
  let '(rho_y_fac, a_y_fac, del_y) :=
    if perY then (wrap_y rho_y_fac, wrap_y a_y_fac, wrap_y del_y)
    else (rho_y_fac, a_y_fac, del_y) in
  let u_fac := avg_z (cat_x [bnd_W uf; val uf; bnd_E uf]) in
  let v_fac := avg_z (cat_y [bnd_S vf; val vf; bnd_N vf]) in
  let w_fac := cat_z [bnd_B wf; avg_z (val wf); bnd_T wf] in
  mk_faces rho_x_fac rho_y_fac rho_z_fac a_x_fac a_y_fac a_z_fac
           del_x del_y del_z u_fac v_fac w_fac.

End Reconstruction.

(* ================================================================== *)
(** * The common part of [advection] (advection.py, lines 276-419) *)
(* ================================================================== *)

Section Advection.

Context {env : Environment}.

(** ** Consecutive differences and their clamp (lines 276-317) *)

(** the mask [(d > -TINY) & (d <= 0.0)], for one entry *)
Definition in_neg_zone (d : Q) : bool := Qlt_bool (- TINY) d && Qle_bool d 0.

(** the mask [(d >= 0.0) & (d < +TINY)], for one entry *)
Definition in_pos_zone (d : Q) : bool := Qle_bool 0 d && Qlt_bool d TINY.

(** [d[(d > -TINY) & (d <= 0.0)] = -TINY] *)
Definition clamp_neg (d : Q) : Q := if in_neg_zone d then - TINY else d.

(** [d[(d >= 0.0) & (d < +TINY)] = +TINY] *)
Definition clamp_pos (d : Q) : Q := if in_pos_zone d then TINY else d.

(** the two assignments, in the order of the source *)
Definition clamp (d : Q) : Q := clamp_pos (clamp_neg d).

Definition d_x_raw (p : Z) (perX : bool) (phi : Unknown) : array :=
  if negb perX then
    dif_x (cat_x [bnd_W phi; bnd_W phi; val phi; bnd_E phi; bnd_E phi])
  else if (p =? pos_X)%Z then
    dif_x (cat_x [slice_x (Some (-2)%Z) None (val phi); val phi;
                  slice_x None (Some 2%Z) (val phi)])
  else
    dif_x (cat_x [slice_x (Some (-3)%Z) (Some (-1)%Z) (val phi); val phi;
                  slice_x (Some 1%Z) (Some 3%Z) (val phi)]).

Definition d_y_raw (p : Z) (perY : bool) (phi : Unknown) : array :=
  if negb perY then
    dif_y (cat_y [bnd_S phi; bnd_S phi; val phi; bnd_N phi; bnd_N phi])
  else if (p =? pos_Y)%Z then
    dif_y (cat_y [slice_y (Some (-2)%Z) None (val phi); val phi;
                  slice_y None (Some 2%Z) (val phi)])
  else
    dif_y (cat_y [slice_y (Some (-3)%Z) (Some (-1)%Z) (val phi); val phi;
                  slice_y (Some 1%Z) (Some 3%Z) (val phi)]).

Definition d_z_raw (p : Z) (perZ : bool) (phi : Unknown) : array :=
  if negb perZ then
    dif_z (cat_z [bnd_B phi; bnd_B phi; val phi; bnd_T phi; bnd_T phi])
  else if (p =? pos_Z)%Z then
    dif_z (cat_z [slice_z (Some (-2)%Z) None (val phi); val phi;
                  slice_z None (Some 2%Z) (val phi)])
  else
    dif_z (cat_z [slice_z (Some (-3)%Z) (Some (-1)%Z) (val phi); val phi;
                  slice_z (Some 1%Z) (Some 3%Z) (val phi)]).

Definition d_x (p : Z) (perX : bool) (phi : Unknown) : array :=
  amap clamp (d_x_raw p perX phi).
Definition d_y (p : Z) (perY : bool) (phi : Unknown) : array :=
  amap clamp (d_y_raw p perY phi).
Definition d_z (p : Z) (perZ : bool) (phi : Unknown) : array :=
  amap clamp (d_z_raw p perZ phi).

(** ** Ratios of consecutive gradients (lines 319-325) *)

Definition r_x_we (d_x : array) : array :=
  slice_x (Some 1%Z) (Some (-1)%Z) d_x [/] slice_x (Some 0%Z) (Some (-2)%Z) d_x.
Definition r_x_ew (d_x : array) : array :=
  slice_x (Some 2%Z) None d_x [/] slice_x (Some 1%Z) (Some (-1)%Z) d_x.
Definition r_y_sn (d_y : array) : array :=
  slice_y (Some 1%Z) (Some (-1)%Z) d_y [/] slice_y (Some 0%Z) (Some (-2)%Z) d_y.
Definition r_y_ns (d_y : array) : array :=
  slice_y (Some 2%Z) None d_y [/] slice_y (Some 1%Z) (Some (-1)%Z) d_y.
Definition r_z_bt (d_z : array) : array :=
  slice_z (Some 1%Z) (Some (-1)%Z) d_z [/] slice_z (Some 0%Z) (Some (-2)%Z) d_z.
Definition r_z_tb (d_z : array) : array :=
  slice_z (Some 2%Z) None d_z [/] slice_z (Some 1%Z) (Some (-1)%Z) d_z.

(** ** Flow-direction masks (lines 327-332) *)

Definition flow_we (f : faces) : mask := ge0 (u_fac f).
Definition flow_ew (f : faces) : mask := lnot (flow_we f).
Definition flow_sn (f : faces) : mask := ge0 (v_fac f).
Definition flow_ns (f : faces) : mask := lnot (flow_sn f).
Definition flow_bt (f : faces) : mask := ge0 (w_fac f).
Definition flow_tb (f : faces) : mask := lnot (flow_bt f).

(** ** Selected ratio (lines 334-336) *)

Definition r_x (f : faces) (d_x : array) : array :=
  r_x_we d_x [*?] flow_we f [+] r_x_ew d_x [*?] flow_ew f.
Definition r_y (f : faces) (d_y : array) : array :=
  r_y_sn d_y [*?] flow_sn f [+] r_y_ns d_y [*?] flow_ns f.
Definition r_z (f : faces) (d_z : array) : array :=
  r_z_bt d_z [*?] flow_bt f [+] r_z_tb d_z [*?] flow_tb f.

(** ** Limiters (lines 338-354) *)

(** What one branch of the [if]/[elif] chain binds to [psi] for the
    ratio [r]; [None] when no branch is taken and [psi] stays unbound. *)
Definition limit (limiter : string) (r : array) : option array :=
  if (limiter =? "upwind")%string then
    Some (r :* 0)
  else if (limiter =? "minmod")%string then
    Some (mx [zeros (shape r); mn [r; ones (shape r)]])
  else if (limiter =? "superbee")%string then
    Some (mx [zeros (shape r); mn [2 *: r; ones (shape r)]; mn [r; scalar 2]])
  else if (limiter =? "koren")%string then
    Some (mx [zeros (shape r);
              mn [2 *: r; (2 +: r) :/ 3; 2 *: ones (shape r)]])
  else None.

(** ** Face fluxes (lines 356-375 and 399-410) *)

Definition flux_fac_lim_x (phi : Unknown) (f : faces) (dt : Q)
           (d_x psi_x : array) : array :=
  (cat_x [bnd_W phi; val phi] [*] u_fac f [*?] flow_we f
   [+] cat_x [val phi; bnd_E phi] [*] u_fac f [*?] flow_ew f
   [+] (1#2) *: abs (u_fac f) [*] (1 -: abs (u_fac f) :* dt [/] del_x f)
       [*] (slice_all psi_x [*] slice_x (Some 0%Z) (Some (-2)%Z) d_x [*?] flow_we f
            [+] slice_all psi_x [*] slice_x (Some 1%Z) (Some (-1)%Z) d_x [*?] flow_ew f))
  [*] (rho_x_fac f [*] a_x_fac f).

Definition flux_fac_lim_y (phi : Unknown) (f : faces) (dt : Q)
           (d_y psi_y : array) : array :=
  (cat_y [bnd_S phi; val phi] [*] v_fac f [*?] flow_sn f
   [+] cat_y [val phi; bnd_N phi] [*] v_fac f [*?] flow_ns f
   [+] (1#2) *: abs (v_fac f) [*] (1 -: abs (v_fac f) :* dt [/] del_y f)
       [*] (slice_all psi_y [*] slice_y (Some 0%Z) (Some (-2)%Z) d_y [*?] flow_sn f
            [+] slice_all psi_y [*] slice_y (Some 1%Z) (Some (-1)%Z) d_y [*?] flow_ns f))
  [*] (rho_y_fac f [*] a_y_fac f).

Definition flux_fac_lim_z (phi : Unknown) (f : faces) (dt : Q)
           (d_z psi_z : array) : array :=
  (cat_z [bnd_B phi; val phi] [*] w_fac f [*?] flow_bt f
   [+] cat_z [val phi; bnd_T phi] [*] w_fac f [*?] flow_tb f
   [+] (1#2) *: abs (w_fac f) [*] (1 -: abs (w_fac f) :* dt [/] del_z f)
       [*] (slice_all psi_z [*] slice_z (Some 0%Z) (Some (-2)%Z) d_z [*?] flow_bt f
            [+] slice_all psi_z [*] slice_z (Some 1%Z) (Some (-1)%Z) d_z [*?] flow_tb f))
  [*] (rho_z_fac f [*] a_z_fac f).

Definition flux_fac_upw_x (phi : Unknown) (f : faces) : array :=
  (cat_x [bnd_W phi; val phi] [*] u_fac f [*?] flow_we f
   [+] cat_x [val phi; bnd_E phi] [*] u_fac f [*?] flow_ew f)
  [*] (rho_x_fac f [*] a_x_fac f).

Definition flux_fac_upw_y (phi : Unknown) (f : faces) : array :=
  (cat_y [bnd_S phi; val phi] [*] v_fac f [*?] flow_sn f
   [+] cat_y [val phi; bnd_N phi] [*] v_fac f [*?] flow_ns f)
  [*] (rho_y_fac f [*] a_y_fac f).

Definition flux_fac_upw_z (phi : Unknown) (f : faces) : array :=
  (cat_z [bnd_B phi; val phi] [*] w_fac f [*?] flow_bt f
   [+] cat_z [val phi; bnd_T phi] [*] w_fac f [*?] flow_tb f)
  [*] (rho_z_fac f [*] a_z_fac f).

(** ** Divergences (lines 377-380 and 412-415) *)

Definition c_lim (phi : Unknown) (f : faces) (dt : Q)
           (d_x d_y d_z : array) (psi : array * array * array) : array :=
  let '(psi_x, psi_y, psi_z) := psi in
  dif_x (flux_fac_lim_x phi f dt d_x psi_x)
  [+] dif_y (flux_fac_lim_y phi f dt d_y psi_y)
  [+] dif_z (flux_fac_lim_z phi f dt d_z psi_z).

Definition c_upw (phi : Unknown) (f : faces) : array :=
  dif_x (flux_fac_upw_x phi f)
  [+] dif_y (flux_fac_upw_y phi f)
  [+] dif_z (flux_fac_upw_z phi f).

(** ** Upwind terms of the matrix (lines 384-397) *)

(** [(u_fac * flow_we * rho_x_fac * a_x_fac)] and its five siblings *)
Definition mflow_we (f : faces) : array :=
  u_fac f [*?] flow_we f [*] rho_x_fac f [*] a_x_fac f.
Definition mflow_ew (f : faces) : array :=
  u_fac f [*?] flow_ew f [*] rho_x_fac f [*] a_x_fac f.
Definition mflow_sn (f : faces) : array :=
  v_fac f [*?] flow_sn f [*] rho_y_fac f [*] a_y_fac f.
Definition mflow_ns (f : faces) : array :=
  v_fac f [*?] flow_ns f [*] rho_y_fac f [*] a_y_fac f.
Definition mflow_bt (f : faces) : array :=
  w_fac f [*?] flow_bt f [*] rho_z_fac f [*] a_z_fac f.
Definition mflow_tb (f : faces) : array :=
  w_fac f [*?] flow_tb f [*] rho_z_fac f [*] a_z_fac f.

(** [a[:] += b] and [a[:] -= b] *)
Definition iadd (a b : array) : array := assign_all a (a [+] b).
Definition isub (a b : array) : array := assign_all a (a [-] b).

Definition fill_matrix (m : SystemMatrix) (f : faces) : SystemMatrix :=
  let bW := iadd (band_W m) (slice_x None (Some (-1)%Z) (mflow_we f)) in
  let bE := isub (band_E m) (slice_x (Some 1%Z) None (mflow_ew f)) in
  let bC := iadd (band_C m) (slice_x None (Some (-1)%Z) (mflow_we f)
                             [-] slice_x (Some 1%Z) None (mflow_ew f)) in
  let bS := iadd (band_S m) (slice_y None (Some (-1)%Z) (mflow_sn f)) in
  let bN := isub (band_N m) (slice_y (Some 1%Z) None (mflow_ns f)) in
  let bC := iadd bC (slice_y None (Some (-1)%Z) (mflow_sn f)
                     [-] slice_y (Some 1%Z) None (mflow_ns f)) in
  let bB := iadd (band_B m) (slice_z None (Some (-1)%Z) (mflow_bt f)) in
  let bT := isub (band_T m) (slice_z (Some 1%Z) None (mflow_tb f)) in
  let bC := iadd bC (slice_z None (Some (-1)%Z) (mflow_bt f)
                     [-] slice_z (Some 1%Z) None (mflow_tb f)) in
  mk_matrix bC bW bE bS bN bB bT.

(** ** The function (lines 15-419) *)

(** The four placement branches are four separate [if]s: each one that
    is taken rebinds all twelve face arrays. *)
Definition reconstruct (p : Z) (rho sx sy sz dx dy dz : array)
           (perX perY perZ : bool) (uf vf wf : Unknown) : option faces :=
  let f := None in
  let f := if (p =? pos_C)%Z
           then Some (faces_C rho sx sy sz dx dy dz perX perY perZ uf vf wf)
           else f in
  let f := if (p =? pos_X)%Z
           then Some (faces_X rho sx sy sz dx dy dz perY perZ uf vf wf)
           else f in
  let f := if (p =? pos_Y)%Z
           then Some (faces_Y rho sx sy sz dx dy dz perX perZ uf vf wf)
           else f in
  let f := if (p =? pos_Z)%Z
           then Some (faces_Z rho sx sy sz dx dy dz perX perY uf vf wf)
           else f in
  f.

Definition advection (rho : array) (phi : Unknown)
           (uvwf : Unknown * Unknown * Unknown)
           (dxyz : array * array * array) (dt : Q) (limiter : string)
           (matrix : option SystemMatrix) : run :=
  let '(uf, vf, wf) := uvwf in
  let '(dx, dy, dz) := dxyz in
  let p := pos phi in
  let perX := per_X phi in
  let perY := per_Y phi in
  let perZ := per_Z phi in
  let sx := dy [*] dz in
  let sy := dx [*] dz in
  let sz := dx [*] dy in
  let phi := exchange phi in
  let uf := exchange uf in
  let vf := exchange vf in
  let wf := exchange wf in
  let done := [Exchange "phi"; Exchange "uf"; Exchange "vf"; Exchange "wf"] in
  let fs := reconstruct p rho sx sy sz dx dy dz perX perY perZ uf vf wf in
  let d_x := d_x p perX phi in
  let d_y := d_y p perY phi in
  let d_z := d_z p perZ phi in
  match fs with
  | None =>
      (* line 327: [u_fac] was never bound *)
      mk_run (Raise (UnboundLocalError "u_fac")) phi (uf, vf, wf) matrix done
  | Some f =>
      match limit limiter (r_x f d_x), limit limiter (r_y f d_y),
            limit limiter (r_z f d_z) with
      | Some psi_x, Some psi_y, Some psi_z =>
          let cl := c_lim phi f dt d_x d_y d_z (psi_x, psi_y, psi_z) in
          match matrix with
          | Some m =>
              mk_run (Ok (cl [-] c_upw phi f)) phi (uf, vf, wf)
                     (Some (fill_matrix m f)) done
          | None =>
              mk_run (Ok cl) phi (uf, vf, wf) None done
          end
      | _, _, _ =>
          (* line 359: [psi_x] was never bound *)
          mk_run (Raise (UnboundLocalError "psi_x")) phi (uf, vf, wf) matrix done
      end
  end.

(** ** Vocabulary of the properties *)

(** the limiter names and the placement tags the function knows *)
Definition limiters : list string := ["upwind"; "minmod"; "superbee"; "koren"]%string.
Definition placements : list Z := [pos_C; pos_X; pos_Y; pos_Z].

(** a clamped difference has the sign of the difference it came from *)
Definition sign_kept (raw d : Q) : Prop :=
  (raw < 0 -> d < 0) /\ (0 < raw -> 0 < d).

(** every entry is at least [TINY] in magnitude, hence not zero *)
Definition guarded (a : array) : Prop :=
  forall i j k, TINY <= Qabs (elt a i j k) /\ ~ elt a i j k == 0.

(** every entry within the extents is [c] *)
Definition uniform_in (c : Q) (a : array) : Prop :=
  forall i j k, (i < nx a)%nat -> (j < ny a)%nat -> (k < nz a)%nat ->
                elt a i j k == c.

(** the field is [c] in every cell and in its six boundary arrays *)
Definition uniform (c : Q) (phi : Unknown) : Prop :=
  uniform_in c (val phi) /\
  uniform_in c (bnd_W phi) /\ uniform_in c (bnd_E phi) /\
  uniform_in c (bnd_S phi) /\ uniform_in c (bnd_N phi) /\
  uniform_in c (bnd_B phi) /\ uniform_in c (bnd_T phi).

(** the boundary arrays have the extents of the faces they belong to *)
Definition conformable (phi : Unknown) : Prop :=
  shape (bnd_W phi) = (1%nat, ny (val phi), nz (val phi)) /\
  shape (bnd_E phi) = (1%nat, ny (val phi), nz (val phi)) /\
  shape (bnd_S phi) = (nx (val phi), 1%nat, nz (val phi)) /\
  shape (bnd_N phi) = (nx (val phi), 1%nat, nz (val phi)) /\
  shape (bnd_B phi) = (nx (val phi), ny (val phi), 1%nat) /\
  shape (bnd_T phi) = (nx (val phi), ny (val phi), 1%nat).

(** mass flow through the faces: velocity times density times area *)
Definition mass_x (f : faces) : array := u_fac f [*] (rho_x_fac f [*] a_x_fac f).
Definition mass_y (f : faces) : array := v_fac f [*] (rho_y_fac f [*] a_y_fac f).
Definition mass_z (f : faces) : array := w_fac f [*] (rho_z_fac f [*] a_z_fac f).

(** the factor of the antidiffusive correction, times density and area *)
Definition anti_x (f : faces) (dt : Q) : array :=
  (1#2) *: abs (u_fac f) [*] (1 -: abs (u_fac f) :* dt [/] del_x f)
  [*] (rho_x_fac f [*] a_x_fac f).
Definition anti_y (f : faces) (dt : Q) : array :=
  (1#2) *: abs (v_fac f) [*] (1 -: abs (v_fac f) :* dt [/] del_y f)
  [*] (rho_y_fac f [*] a_y_fac f).
Definition anti_z (f : faces) (dt : Q) : array :=
  (1#2) *: abs (w_fac f) [*] (1 -: abs (w_fac f) :* dt [/] del_z f)
  [*] (rho_z_fac f [*] a_z_fac f).

(** discrete divergence of three face arrays *)
Definition div3 (gx gy gz : array) : array :=
  dif_x gx [+] dif_y gy [+] dif_z gz.

(** what the clamp leaves of the threshold in a limited flux: nothing
    with "upwind", [TINY] with the other limiters *)
Definition residue (limiter : string) : Q :=
  if (limiter =? "upwind")%string then 0 else TINY.

(** the face arrays [advection] binds for its arguments, if any *)
Definition faces_of (rho : array) (phi : Unknown)
           (uvwf : Unknown * Unknown * Unknown)
           (dxyz : array * array * array) : option faces :=
  let '(uf, vf, wf) := uvwf in
  let '(dx, dy, dz) := dxyz in
  reconstruct (pos phi) rho (dy [*] dz) (dx [*] dz) (dx [*] dy) dx dy dz
              (per_X phi) (per_Y phi) (per_Z phi)
              (exchange uf) (exchange vf) (exchange wf).

(** the limited flux divergence [advection] computes on the face arrays
    [f], if the limiter binds [psi] *)
Definition limited (limiter : string) (phi : Unknown) (f : faces) (dt : Q)
  : option array :=
  let dx := d_x (pos phi) (per_X phi) (exchange phi) in
  let dy := d_y (pos phi) (per_Y phi) (exchange phi) in
  let dz := d_z (pos phi) (per_Z phi) (exchange phi) in
  match limit limiter (r_x f dx), limit limiter (r_y f dy),
        limit limiter (r_z f dz) with
  | Some psi_x, Some psi_y, Some psi_z =>
      Some (c_lim (exchange phi) f dt dx dy dz (psi_x, psi_y, psi_z))
  | _, _, _ => None
  end.

End Advection.

(* ================================================================== *)
(** * The transport step (calc_phi.py) *)
(* ================================================================== *)

(** The collaborators of [calc_phi] that are not part of the two
    modules, and the constants it passes to them. *)
Class Collaborators : Type := {
  Gamma : Type;
  BC : Type;
  NEUMANN : BC;
  TOL : Q;
  create_matrix : Unknown -> array -> Gamma -> array * array * array ->
                  option array -> BC -> SystemMatrix;
  avg : Z -> array -> array;
  bicgstab : SystemMatrix -> Unknown -> array -> Q -> array;
  adj_n_bnds : Unknown -> Unknown
}.

(** What a call of [calc_phi] leaves behind: [None] returned or the
    exception raised, and the unknowns as the call mutated them. *)
Record step : Type := mk_step {
  returned : outcome unit;
  phi_after : Unknown;
  uvwf_after : Unknown * Unknown * Unknown
}.

(** the number of entries of an array *)
Definition entries {A} (a : ndarray A) : nat := (nx a * ny a * nz a)%nat.

(** The test [if src == None:] of line 60.  [None == None] is true.  An
    array is compared with [None] entry by entry, which gives an array of
    [False] of the same shape, and [if] asks for the truth value of that
    array: with exactly one entry it is the entry, [False]; with more
    than one entry numpy raises [ValueError] (and, from version 2.2 on,
    with no entry as well). *)
Definition src_eq_None (src : option array) : outcome bool :=
  match src with
  | None => Ok true
  | Some s => if (entries s =? 1)%nat then Ok false
              else Raise (ValueError "truth value of an array")
  end.

Section Transport.

Context {env : Environment} {col : Collaborators}.

Definition calc_phi (phi : Unknown) (uvwf : Unknown * Unknown * Unknown)
           (density : array) (gamma : Gamma) (dt : Q)
           (dxyz : array * array * array)
           (obst : option array) (src : option array) : step :=
  let '(dx, dy, dz) := dxyz in
  let r_phi := shape (val phi) in
  let A_phi := create_matrix phi (density :/ dt) gamma dxyz obst NEUMANN in
  let b_phi := zeros r_phi in
  let adv := advection density phi uvwf dxyz dt "minmod" None in
  match result adv with
  | Raise e => mk_step (Raise e) (phi_out adv) (uvwf_out adv)
  | Ok c_phi =>
      let phi := phi_out adv in
      let i_phi := old phi [*] avg (pos phi) density
                   [*] avg (pos phi) (dx [*] dy [*] dz) :/ dt in
      match src_eq_None src with
      | Raise e => mk_step (Raise e) phi (uvwf_out adv)
      | Ok is_None =>
          let s_phi := match src with
                       | Some src => if is_None then zeros r_phi
                                     else src [*] avg (pos phi) (dx [*] dy [*] dz)
                       | None => zeros r_phi
                       end in
          let f_phi := b_phi [-] c_phi [+] i_phi [+] s_phi in
          let phi := set_val phi (assign_all (val phi)
                                             (bicgstab A_phi phi f_phi TOL)) in
          let phi := adj_n_bnds phi in
          mk_step (Ok tt) phi (uvwf_out adv)
      end
  end.

End Transport.

(* ================================================================== *)
(** * Sums over cells and operands of the face fluxes *)
(* ================================================================== *)

(** [g 0 + ... + g (n - 1)] *)
Fixpoint sum_n (n : nat) (g : nat -> Q) : Q :=
  match n with
  | O => 0
  | S m => sum_n m g + g m
  end.

(** the sum of the entries of [a] over the box of [n1 * n2 * n3] cells *)
Definition total (a : array) (n1 n2 n3 : nat) : Q :=
  sum_n n1 (fun i => sum_n n2 (fun j => sum_n n3 (fun k => elt a i j k))).

(** The arrays that lines 320-321, 334, 356-360 and 373 combine entry by
    entry along x, for the clamped differences [d_x]: the two donor
    arrays, the face velocity, the distance, density and area at the
    faces, and the three slices of the differences.  Likewise along y and
    z. *)
Definition operands_x (phi : Unknown) (f : faces) (d_x : array) : list array :=
  [cat_x [bnd_W phi; val phi]; cat_x [val phi; bnd_E phi];
   u_fac f; del_x f; rho_x_fac f; a_x_fac f;
   slice_x (Some 0%Z) (Some (-2)%Z) d_x; slice_x (Some 1%Z) (Some (-1)%Z) d_x;
   slice_x (Some 2%Z) None d_x].

Definition operands_y (phi : Unknown) (f : faces) (d_y : array) : list array :=
  [cat_y [bnd_S phi; val phi]; cat_y [val phi; bnd_N phi];
   v_fac f; del_y f; rho_y_fac f; a_y_fac f;
   slice_y (Some 0%Z) (Some (-2)%Z) d_y; slice_y (Some 1%Z) (Some (-1)%Z) d_y;
   slice_y (Some 2%Z) None d_y].

Definition operands_z (phi : Unknown) (f : faces) (d_z : array) : list array :=
  [cat_z [bnd_B phi; val phi]; cat_z [val phi; bnd_T phi];
   w_fac f; del_z f; rho_z_fac f; a_z_fac f;
   slice_z (Some 0%Z) (Some (-2)%Z) d_z; slice_z (Some 1%Z) (Some (-1)%Z) d_z;
   slice_z (Some 2%Z) None d_z].

(** How the values [facev 0 .. facev n] at the faces along a grid line
    come from the values [cellv 0 .. cellv (n - 1)] in its cells: an
    interior face has the average of its two cells; the two boundary
    faces have [bnd] of the cell next to them or, on a periodic axis, the
    value of the interior face next to the opposite boundary. *)
Definition face_values (periodic : bool) (n : nat) (cellv : nat -> Q)
           (bnd : Q -> Q) (facev : nat -> Q) : Prop :=
  (forall i, (1 <= i <= n - 1)%nat ->
             facev i = (cellv i + cellv (i - 1)%nat) * (1 # 2)) /\
  (periodic = false ->
   facev 0%nat = bnd (cellv 0%nat) /\ facev n = bnd (cellv (n - 1)%nat)) /\
  (periodic = true ->
   facev 0%nat = (cellv (n - 1)%nat + cellv (n - 2)%nat) * (1 # 2) /\
   facev n = (cellv 1%nat + cellv 0%nat) * (1 # 2)).

(** a face velocity triple on a grid of [n1 * n2 * n3] cells: each
    component has one interior face less than cells along its own axis
    and one boundary face at either end *)
Definition staggered (uvwf : Unknown * Unknown * Unknown) (n1 n2 n3 : nat) : Prop :=
  let '(uf, vf, wf) := uvwf in
  (shape (val uf) = ((n1 - 1)%nat, n2, n3) /\
   shape (bnd_W uf) = (1%nat, n2, n3) /\ shape (bnd_E uf) = (1%nat, n2, n3)) /\
  (shape (val vf) = (n1, (n2 - 1)%nat, n3) /\
   shape (bnd_S vf) = (n1, 1%nat, n3) /\ shape (bnd_N vf) = (n1, 1%nat, n3)) /\
  (shape (val wf) = (n1, n2, (n3 - 1)%nat) /\
   shape (bnd_B wf) = (n1, n2, 1%nat) /\ shape (bnd_T wf) = (n1, n2, 1%nat)).

(* ================================================================== *)
(** * Small grids used to run the model *)
(* ================================================================== *)

Module Grid.

(** an environment: [TINY] is 1e-12, [exchange] leaves an unknown as
    it is *)
Definition env0 : Environment :=
  {| TINY := 1 # 1000000000000;
     pos_C := 3; pos_X := 0; pos_Y := 1; pos_Z := 2;
     exchange := fun u => u |}.

(** two cells along each axis: unit cell sizes, unit density *)
Definition cells : nat * nat * nat := (2, 2, 2)%nat.
Definition unit : array := full cells 1.
Definition dxyz : array * array * array := (unit, unit, unit).

(** a cell-centred unknown with tag [p] that is [v] in every cell and
    on the six boundaries, not periodic *)
Definition field (v : Q) (p : Z) : Unknown :=
  mk_unknown (full cells v) (full cells v) p false false false
             (full (1, 2, 2)%nat v) (full (1, 2, 2)%nat v)
             (full (2, 1, 2)%nat v) (full (2, 1, 2)%nat v)
             (full (2, 2, 1)%nat v) (full (2, 2, 1)%nat v).

(** a cell-centred unknown with a step along x: 0 in the cells [i = 0]
    and on the west boundary, 1 in the cells [i = 1] and on the east
    boundary *)
Definition step : Unknown :=
  let v := mk_array 2 2 2 (fun i _ _ => match i with O => 0 | _ => 1 end) in
  mk_unknown v v 3 false false false
             (full (1, 2, 2)%nat 0) (full (1, 2, 2)%nat 1)
             (slice_y None (Some 1%Z) v) (slice_y None (Some 1%Z) v)
             (slice_z None (Some 1%Z) v) (slice_z None (Some 1%Z) v).

(** face velocities: the value on the low boundary faces, on the
    interior faces and on the high boundary faces of their axis *)
Definition u_face (w m e : Q) : Unknown :=
  mk_unknown (full (1, 2, 2)%nat m) (full (1, 2, 2)%nat m) 0 false false false
             (full (1, 2, 2)%nat w) (full (1, 2, 2)%nat e)
             (full (1, 1, 2)%nat 0) (full (1, 1, 2)%nat 0)
             (full (1, 2, 1)%nat 0) (full (1, 2, 1)%nat 0).
Definition v_face (s m n : Q) : Unknown :=
  mk_unknown (full (2, 1, 2)%nat m) (full (2, 1, 2)%nat m) 1 false false false
             (full (1, 1, 2)%nat 0) (full (1, 1, 2)%nat 0)
             (full (2, 1, 2)%nat s) (full (2, 1, 2)%nat n)
             (full (2, 1, 1)%nat 0) (full (2, 1, 1)%nat 0).
Definition w_face (b m t : Q) : Unknown :=
  mk_unknown (full (2, 2, 1)%nat m) (full (2, 2, 1)%nat m) 2 false false false
             (full (1, 2, 1)%nat 0) (full (1, 2, 1)%nat 0)
             (full (2, 1, 1)%nat 0) (full (2, 1, 1)%nat 0)
             (full (2, 2, 1)%nat b) (full (2, 2, 1)%nat t).

(** a velocity with divergence: 1, 2, 3 through the x faces *)
Definition uvwf_div : Unknown * Unknown * Unknown :=
  (u_face 1 2 3, v_face 0 0 0, w_face 0 0 0).

(** a velocity without divergence: 1, 2, 3 through the x faces and
    1, 0, -1 through the y faces *)
Definition uvwf_sol : Unknown * Unknown * Unknown :=
  (u_face 1 2 3, v_face 1 0 (-1), w_face 0 0 0).

(** flow through the interior x faces only *)
Definition uvwf_mid : Unknown * Unknown * Unknown :=
  (u_face 0 1 0, v_face 0 0 0, w_face 0 0 0).

(** a matrix of zeros *)
Definition matrix0 : SystemMatrix :=
  let z := full cells 0 in mk_matrix z z z z z z z.

(** collaborators to run [calc_phi] with: no averaging, the matrix
    [matrix0], and a solver that returns the right-hand side *)
Definition col0 : Collaborators :=
  {| Gamma := Q;
     BC := Datatypes.unit;
     NEUMANN := tt;
     TOL := 1 # 100000000;
     create_matrix := fun _ _ _ _ _ _ => matrix0;
     avg := fun _ a => a;
     bicgstab := fun _ _ f _ => f;
     adj_n_bnds := fun u => u |}.

(** a cell-centred unknown that is periodic along x: four cells along
    x, the first and the last with the same value *)
Definition loop : Unknown :=
  let v := mk_array 4 1 1
                    (fun i _ _ => match i with 1%nat => 2 | 2%nat => 5 | _ => 1 end) in
  mk_unknown v v 3 true false false
             (slice_x None (Some 1%Z) v) (slice_x (Some (-1)%Z) None v)
             (full (4, 1, 1)%nat 1) (full (4, 1, 1)%nat 1)
             (full (4, 1, 1)%nat 1) (full (4, 1, 1)%nat 1).

(** a row of three cells along x, with unit cell sizes and density: a
    cell-centred unknown that is [c] in every cell and on the six
    boundaries, not periodic, and face velocities that are [u] at the
    four x faces, [v] at the two y faces and [w] at the two z faces *)
Definition row : nat * nat * nat := (3, 1, 1)%nat.
Definition row_unit : array := full row 1.
Definition row_dxyz : array * array * array := (row_unit, row_unit, row_unit).
Definition row_field (c : Q) : Unknown :=
  mk_unknown (full row c) (full row c) 3 false false false
             (full (1, 1, 1)%nat c) (full (1, 1, 1)%nat c)
             (full (3, 1, 1)%nat c) (full (3, 1, 1)%nat c)
             (full (3, 1, 1)%nat c) (full (3, 1, 1)%nat c).
Definition row_uvwf (u v w : Q) : Unknown * Unknown * Unknown :=
  (mk_unknown (full (2, 1, 1)%nat u) (full (2, 1, 1)%nat u) 0 false false false
              (full (1, 1, 1)%nat u) (full (1, 1, 1)%nat u)
              (full (2, 1, 1)%nat 0) (full (2, 1, 1)%nat 0)
              (full (2, 1, 1)%nat 0) (full (2, 1, 1)%nat 0),
   mk_unknown (full (3, 0, 1)%nat v) (full (3, 0, 1)%nat v) 1 false false false
              (full (1, 0, 1)%nat 0) (full (1, 0, 1)%nat 0)
              (full (3, 1, 1)%nat v) (full (3, 1, 1)%nat v)
              (full (3, 0, 1)%nat 0) (full (3, 0, 1)%nat 0),
   mk_unknown (full (3, 1, 0)%nat w) (full (3, 1, 0)%nat w) 2 false false false
              (full (1, 1, 0)%nat 0) (full (1, 1, 0)%nat 0)
              (full (3, 1, 0)%nat 0) (full (3, 1, 0)%nat 0)
              (full (3, 1, 1)%nat w) (full (3, 1, 1)%nat w)).

(** no flow through any face *)
Definition uvwf_still : Unknown * Unknown * Unknown :=
  (u_face 0 0 0, v_face 0 0 0, w_face 0 0 0).

End Grid.

(* ================================================================== *)
(** * Properties *)
(* ================================================================== *)

(** ** Rational arithmetic with boolean tests, maxima and minima *)

Lemma Qmax_cases (x y : Q) :
  (y <= x /\ Qmax x y == x) \/ (x <= y /\ Qmax x y == y).
Proof.
  destruct (Q.max_spec x y) as [[H1 H2]|[H1 H2]]; [right|left]; split; auto.
  apply Qlt_le_weak; exact H1.
Qed.

Lemma Qmin_cases (x y : Q) :
  (x <= y /\ Qmin x y == x) \/ (y <= x /\ Qmin x y == y).
Proof.
  destruct (Q.min_spec x y) as [[H1 H2]|[H1 H2]]; [left|right]; split; auto.
  apply Qlt_le_weak; exact H1.
Qed.

Lemma Qle_bool_false (x y : Q) : Qle_bool x y = false -> y < x.
Proof.
  intros H. apply Qnot_le_lt. intros L.
  apply Qle_bool_iff in L. congruence.
Qed.

Lemma Qabs_cases (x : Q) :
  (0 <= x /\ Qabs x == x) \/ (x <= 0 /\ Qabs x == - x).
Proof.
  destruct (Qlt_le_dec x 0) as [H|H].
  - right. split; [lra|]. apply Qabs_neg. lra.
  - left. split; [exact H|]. apply Qabs_pos. exact H.
Qed.

Ltac minmax_on x y cases op :=
  lazymatch goal with
  | _ : op x y == _ |- _ => fail
  | _ => destruct (cases x y) as [[? ?]|[? ?]]
  end.

(** split on every maximum and minimum in sight *)
Ltac minmax :=
  repeat match goal with
  | |- context [Qmax ?x ?y] => minmax_on x y Qmax_cases Qmax
  | |- context [Qmin ?x ?y] => minmax_on x y Qmin_cases Qmin
  | _ : context [Qmax ?x ?y] |- _ => minmax_on x y Qmax_cases Qmax
  | _ : context [Qmin ?x ?y] |- _ => minmax_on x y Qmin_cases Qmin
  end.

(** split on every boolean comparison in sight *)
Ltac qtests :=
  repeat match goal with
  | |- context [Qle_bool ?x ?y] =>
      let E := fresh "E" in
      destruct (Qle_bool x y) eqn:E;
      [apply Qle_bool_iff in E | apply Qle_bool_false in E]
  | H : context [Qle_bool ?x ?y] |- _ =>
      let E := fresh "E" in
      destruct (Qle_bool x y) eqn:E;
      [apply Qle_bool_iff in E | apply Qle_bool_false in E]
  end.

(** reduce the entry of an array expression to the expression on entries *)
Ltac entry :=
  cbn [elt nx ny nz amap amap2 mx mn fold_left zeros ones full shape scalar
       abs lnot ge0 dif_x dif_y dif_z slice_all assign_all
       slice_x slice_y slice_z iadd isub].

Section Properties.

Context {env : Environment}.

(** *** The clamp *)

Lemma in_neg_zone_iff (d : Q) : in_neg_zone d = true <-> - TINY < d /\ d <= 0.
Proof.
  unfold in_neg_zone, Qlt_bool. split.
  - qtests; cbn [negb andb]; intros H; try discriminate; split; assumption.
  - intros [H1 H2]. qtests; cbn [negb andb]; try reflexivity; lra.
Qed.


Lemma clamp_neg_spec (d : Q) :
  0 < TINY ->
  (- TINY < d /\ d <= 0 /\ clamp_neg d = - TINY) \/
  ((d <= - TINY \/ 0 < d) /\ clamp_neg d = d).
Proof.
  intros HT. unfold clamp_neg, in_neg_zone, Qlt_bool.
  qtests; cbn [negb andb]; solve [left; repeat split; lra | right; split; [lra|reflexivity]].
Qed.

Lemma clamp_pos_spec (d : Q) :
  0 < TINY ->
  (0 <= d /\ d < TINY /\ clamp_pos d = TINY) \/
  ((d < 0 \/ TINY <= d) /\ clamp_pos d = d).
Proof.
  intros HT. unfold clamp_pos, in_pos_zone, Qlt_bool.
  qtests; cbn [negb andb]; solve [left; repeat split; lra | right; split; [lra|reflexivity]].
Qed.

Lemma clamp_spec (d : Q) :
  0 < TINY ->
  (d <= - TINY /\ clamp d = d) \/
  (- TINY < d /\ d <= 0 /\ clamp d = - TINY) \/
  (0 < d /\ d < TINY /\ clamp d = TINY) \/
  (TINY <= d /\ clamp d = d).
Proof.
  intros HT. unfold clamp.
  destruct (clamp_neg_spec d HT) as [(H1 & H2 & ->)|([H1|H1] & ->)];
    [destruct (clamp_pos_spec (- TINY) HT) as [(G1 & G2 & G)|(G1 & G)]
    |destruct (clamp_pos_spec d HT) as [(G1 & G2 & G)|(G1 & G)]
    |destruct (clamp_pos_spec d HT) as [(G1 & G2 & G)|(G1 & G)]];
    rewrite G; try lra.
  - right; left; repeat split; lra.
  - left; split; [lra|reflexivity].
  - right; right; left; repeat split; lra.
  - destruct G1; [lra|]. right; right; right; split; [lra|reflexivity].
Qed.

Lemma clamp_guarded (d : Q) :
  0 < TINY -> TINY <= Qabs (clamp d) /\ ~ clamp d == 0.
Proof.
  intros HT.
  destruct (Qabs_cases (clamp d)) as [[A1 A2]|[A1 A2]];
    destruct (clamp_spec d HT) as [(H1 & H)|[(H1 & H2 & H)|[(H1 & H2 & H)|(H1 & H)]]];
    rewrite H in *; split; lra.
Qed.

Lemma clamp_sign_kept (d : Q) : 0 < TINY -> sign_kept d (clamp d).
Proof.
  intros HT.
  destruct (clamp_spec d HT) as [(H1 & H)|[(H1 & H2 & H)|[(H1 & H2 & H)|(H1 & H)]]];
    rewrite H; split; intros; lra.
Qed.

Lemma clamp_zero (d : Q) : 0 < TINY -> d == 0 -> clamp d == - TINY.
Proof.
  intros HT H0.
  destruct (clamp_spec d HT) as [(H1 & H)|[(H1 & H2 & H)|[(H1 & H2 & H)|(H1 & H)]]];
    rewrite H; lra.
Qed.

Lemma amap_clamp_guarded (a : array) : 0 < TINY -> guarded (amap clamp a).
Proof. intros HT i j k. entry. apply clamp_guarded, HT. Qed.

Lemma slice_x_guarded lo hi (a : array) : guarded a -> guarded (slice_x lo hi a).
Proof. intros H i j k. apply H. Qed.

Lemma slice_y_guarded lo hi (a : array) : guarded a -> guarded (slice_y lo hi a).
Proof. intros H i j k. apply H. Qed.

Lemma slice_z_guarded lo hi (a : array) : guarded a -> guarded (slice_z lo hi a).
Proof. intros H i j k. apply H. Qed.

(** *** Limiters *)

(** C6: whatever the gradient ratio, the correction factor lies between
    0 and 2 for "minmod", "superbee" and "koren", and is 0 for "upwind". *)
Theorem limiter_bounded (r : array) (i j k : nat) :
  (exists psi, limit "minmod" r = Some psi /\ 0 <= elt psi i j k <= 2) /\
  (exists psi, limit "superbee" r = Some psi /\ 0 <= elt psi i j k <= 2) /\
  (exists psi, limit "koren" r = Some psi /\ 0 <= elt psi i j k <= 2) /\
  (exists psi, limit "upwind" r = Some psi /\ elt psi i j k == 0).
Proof.
  repeat split; eexists; (split; [reflexivity|]); entry;
    try (minmax; lra); try ring; try (split; minmax; lra).
Qed.

(** *** Clamped differences *)

(** C7: with a positive [TINY], every clamped difference is at least
    [TINY] in magnitude and has the sign of the difference it replaces
    when that one is not zero; the divisors of the six gradient ratios
    are slices of the clamped differences, so none of them is zero. *)
Theorem clamp_guards_division (p : Z) (perX perY perZ : bool) (phi : Unknown) :
  0 < TINY ->
  let dx := d_x p perX phi in
  let dy := d_y p perY phi in
  let dz := d_z p perZ phi in
  (guarded dx /\ guarded dy /\ guarded dz) /\
  (forall i j k,
      sign_kept (elt (d_x_raw p perX phi) i j k) (elt dx i j k) /\
      sign_kept (elt (d_y_raw p perY phi) i j k) (elt dy i j k) /\
      sign_kept (elt (d_z_raw p perZ phi) i j k) (elt dz i j k)) /\
  (r_x_we dx = slice_x (Some 1%Z) (Some (-1)%Z) dx [/] slice_x (Some 0%Z) (Some (-2)%Z) dx /\
   guarded (slice_x (Some 0%Z) (Some (-2)%Z) dx)) /\
  (r_x_ew dx = slice_x (Some 2%Z) None dx [/] slice_x (Some 1%Z) (Some (-1)%Z) dx /\
   guarded (slice_x (Some 1%Z) (Some (-1)%Z) dx)) /\
  (r_y_sn dy = slice_y (Some 1%Z) (Some (-1)%Z) dy [/] slice_y (Some 0%Z) (Some (-2)%Z) dy /\
   guarded (slice_y (Some 0%Z) (Some (-2)%Z) dy)) /\
  (r_y_ns dy = slice_y (Some 2%Z) None dy [/] slice_y (Some 1%Z) (Some (-1)%Z) dy /\
   guarded (slice_y (Some 1%Z) (Some (-1)%Z) dy)) /\
  (r_z_bt dz = slice_z (Some 1%Z) (Some (-1)%Z) dz [/] slice_z (Some 0%Z) (Some (-2)%Z) dz /\
   guarded (slice_z (Some 0%Z) (Some (-2)%Z) dz)) /\
  (r_z_tb dz = slice_z (Some 2%Z) None dz [/] slice_z (Some 1%Z) (Some (-1)%Z) dz /\
   guarded (slice_z (Some 1%Z) (Some (-1)%Z) dz)).
Proof.
  intros HT dx dy dz.
  assert (Gx : guarded dx) by (apply amap_clamp_guarded, HT).
  assert (Gy : guarded dy) by (apply amap_clamp_guarded, HT).
  assert (Gz : guarded dz) by (apply amap_clamp_guarded, HT).
  split; [auto|]. split.
  - intros i j k. subst dx dy dz. unfold d_x, d_y, d_z. entry.
    repeat split; apply clamp_sign_kept; exact HT.
  - repeat split; try reflexivity;
      first [apply slice_x_guarded | apply slice_y_guarded | apply slice_z_guarded];
      assumption.
Qed.


(** *** Concatenation *)

Lemma cat_x_cons_lt (a : array) (r : list array) (i j k : nat) :
  (i < nx a)%nat -> elt (cat_x (a :: r)) i j k = elt a i j k.
Proof.
  intros H. cbn [cat_x elt].
  destruct (Nat.ltb_spec i (nx a)); [reflexivity|lia].
Qed.

Lemma cat_x_cons_ge (a : array) (r : list array) (i j k : nat) :
  (nx a <= i)%nat -> elt (cat_x (a :: r)) i j k = elt (cat_x r) (i - nx a) j k.
Proof.
  intros H. cbn [cat_x elt].
  destruct (Nat.ltb_spec i (nx a)); [lia|reflexivity].
Qed.

Lemma cat_y_cons_lt (a : array) (r : list array) (i j k : nat) :
  (j < ny a)%nat -> elt (cat_y (a :: r)) i j k = elt a i j k.
Proof.
  intros H. cbn [cat_y elt].
  destruct (Nat.ltb_spec j (ny a)); [reflexivity|lia].
Qed.

Lemma cat_y_cons_ge (a : array) (r : list array) (i j k : nat) :
  (ny a <= j)%nat -> elt (cat_y (a :: r)) i j k = elt (cat_y r) i (j - ny a) k.
Proof.
  intros H. cbn [cat_y elt].
  destruct (Nat.ltb_spec j (ny a)); [lia|reflexivity].
Qed.

Lemma cat_z_cons_lt (a : array) (r : list array) (i j k : nat) :
  (k < nz a)%nat -> elt (cat_z (a :: r)) i j k = elt a i j k.
Proof.
  intros H. cbn [cat_z elt].
  destruct (Nat.ltb_spec k (nz a)); [reflexivity|lia].
Qed.

Lemma cat_z_cons_ge (a : array) (r : list array) (i j k : nat) :
  (nz a <= k)%nat -> elt (cat_z (a :: r)) i j k = elt (cat_z r) i j (k - nz a).
Proof.
  intros H. cbn [cat_z elt].
  destruct (Nat.ltb_spec k (nz a)); [lia|reflexivity].
Qed.

(** *** Flow direction *)

(** C10: at every face exactly one of the two masks of an axis holds;
    the positive one is [velocity >= 0] and the other its negation, so a
    face without normal velocity counts as positive flow.  Under the
    positive mask the selected ratio is the one for positive flow, and
    both the upwind flux and the limited flux of lines 356-375 carry the
    value of [cat((boundary, values))], which at face [S i] is cell [i],
    the cell of lower index, times the mass flow; the limited flux adds
    the correction for the difference of index [i].  Under the negative
    mask it is the other ratio, the value of [cat((values, boundary))],
    which at face [i] is cell [i], and the difference of index [S i]. *)
Theorem flow_masks_select_donor (phi : Unknown) (f : faces) (dt : Q)
        (gx gy gz px py pz : array) (i j k : nat) :
  (elt (flow_ew f) i j k = negb (elt (flow_we f) i j k) /\
   (elt (flow_we f) i j k = true <-> 0 <= elt (u_fac f) i j k) /\
   (elt (u_fac f) i j k == 0 -> elt (flow_we f) i j k = true) /\
   (elt (flow_we f) i j k = true ->
    elt (r_x f gx) i j k == elt (r_x_we gx) i j k /\
    elt (flux_fac_upw_x phi f) i j k ==
      elt (cat_x [bnd_W phi; val phi]) i j k * elt (mass_x f) i j k /\
    elt (flux_fac_lim_x phi f dt gx px) i j k ==
      elt (cat_x [bnd_W phi; val phi]) i j k * elt (mass_x f) i j k
      + elt (anti_x f dt) i j k * (elt px i j k * elt gx i j k)) /\
   (elt (flow_ew f) i j k = true ->
    elt (r_x f gx) i j k == elt (r_x_ew gx) i j k /\
    elt (flux_fac_upw_x phi f) i j k ==
      elt (cat_x [val phi; bnd_E phi]) i j k * elt (mass_x f) i j k /\
    ((1 <= nx gx)%nat ->
     elt (flux_fac_lim_x phi f dt gx px) i j k ==
       elt (cat_x [val phi; bnd_E phi]) i j k * elt (mass_x f) i j k
       + elt (anti_x f dt) i j k * (elt px i j k * elt gx (S i) j k))) /\
   (nx (bnd_W phi) = 1%nat -> (i < nx (val phi))%nat ->
    elt (cat_x [bnd_W phi; val phi]) (S i) j k = elt (val phi) i j k) /\
   ((i < nx (val phi))%nat ->
    elt (cat_x [val phi; bnd_E phi]) i j k = elt (val phi) i j k)) /\
  (elt (flow_ns f) i j k = negb (elt (flow_sn f) i j k) /\
   (elt (flow_sn f) i j k = true <-> 0 <= elt (v_fac f) i j k) /\
   (elt (v_fac f) i j k == 0 -> elt (flow_sn f) i j k = true) /\
   (elt (flow_sn f) i j k = true ->
    elt (r_y f gy) i j k == elt (r_y_sn gy) i j k /\
    elt (flux_fac_upw_y phi f) i j k ==
      elt (cat_y [bnd_S phi; val phi]) i j k * elt (mass_y f) i j k /\
    elt (flux_fac_lim_y phi f dt gy py) i j k ==
      elt (cat_y [bnd_S phi; val phi]) i j k * elt (mass_y f) i j k
      + elt (anti_y f dt) i j k * (elt py i j k * elt gy i j k)) /\
   (elt (flow_ns f) i j k = true ->
    elt (r_y f gy) i j k == elt (r_y_ns gy) i j k /\
    elt (flux_fac_upw_y phi f) i j k ==
      elt (cat_y [val phi; bnd_N phi]) i j k * elt (mass_y f) i j k /\
    ((1 <= ny gy)%nat ->
     elt (flux_fac_lim_y phi f dt gy py) i j k ==
       elt (cat_y [val phi; bnd_N phi]) i j k * elt (mass_y f) i j k
       + elt (anti_y f dt) i j k * (elt py i j k * elt gy i (S j) k))) /\
   (ny (bnd_S phi) = 1%nat -> (j < ny (val phi))%nat ->
    elt (cat_y [bnd_S phi; val phi]) i (S j) k = elt (val phi) i j k) /\
   ((j < ny (val phi))%nat ->
    elt (cat_y [val phi; bnd_N phi]) i j k = elt (val phi) i j k)) /\
  (elt (flow_tb f) i j k = negb (elt (flow_bt f) i j k) /\
   (elt (flow_bt f) i j k = true <-> 0 <= elt (w_fac f) i j k) /\
   (elt (w_fac f) i j k == 0 -> elt (flow_bt f) i j k = true) /\
   (elt (flow_bt f) i j k = true ->
    elt (r_z f gz) i j k == elt (r_z_bt gz) i j k /\
    elt (flux_fac_upw_z phi f) i j k ==
      elt (cat_z [bnd_B phi; val phi]) i j k * elt (mass_z f) i j k /\
    elt (flux_fac_lim_z phi f dt gz pz) i j k ==
      elt (cat_z [bnd_B phi; val phi]) i j k * elt (mass_z f) i j k
      + elt (anti_z f dt) i j k * (elt pz i j k * elt gz i j k)) /\
   (elt (flow_tb f) i j k = true ->
    elt (r_z f gz) i j k == elt (r_z_tb gz) i j k /\
    elt (flux_fac_upw_z phi f) i j k ==
      elt (cat_z [val phi; bnd_T phi]) i j k * elt (mass_z f) i j k /\
    ((1 <= nz gz)%nat ->
     elt (flux_fac_lim_z phi f dt gz pz) i j k ==
       elt (cat_z [val phi; bnd_T phi]) i j k * elt (mass_z f) i j k
       + elt (anti_z f dt) i j k * (elt pz i j k * elt gz i j (S k)))) /\
   (nz (bnd_B phi) = 1%nat -> (k < nz (val phi))%nat ->
    elt (cat_z [bnd_B phi; val phi]) i j (S k) = elt (val phi) i j k) /\
   ((k < nz (val phi))%nat ->
    elt (cat_z [val phi; bnd_T phi]) i j k = elt (val phi) i j k)).
Proof.
  split; [|split].
  - unfold flow_ew, flow_we, r_x, r_x_we, r_x_ew, flux_fac_upw_x,
      flux_fac_lim_x, mass_x, anti_x, flow_ew, flow_we.
    entry. repeat split; try apply Qle_bool_iff.
    + intros H. apply Qle_bool_iff. lra.
    + rewrite H. cbn [negb b2q]. ring.
    + rewrite H. cbn [negb b2q]. ring.
    + rewrite H. cbn [negb b2q].
      replace (slice_lo (nx gx) (Some 0%Z) + i)%nat with i
        by (unfold slice_lo, py_index; cbn [Z.ltb Z.compare]; lia).
      ring.
    + apply negb_true_iff in H. rewrite H. cbn [negb b2q]. ring.
    + apply negb_true_iff in H. rewrite H. cbn [negb b2q]. ring.
    + intros L. apply negb_true_iff in H. rewrite H. cbn [negb b2q].
      replace (slice_lo (nx gx) (Some 1%Z) + i)%nat with (S i)
        by (unfold slice_lo, py_index; cbn [Z.ltb Z.compare]; lia).
      ring.
    + intros H L. rewrite cat_x_cons_ge by lia. rewrite cat_x_cons_lt by lia.
      f_equal. lia.
    + intros L. apply cat_x_cons_lt, L.
  - unfold flow_ns, flow_sn, r_y, r_y_sn, r_y_ns, flux_fac_upw_y,
      flux_fac_lim_y, mass_y, anti_y, flow_ns, flow_sn.
    entry. repeat split; try apply Qle_bool_iff.
    + intros H. apply Qle_bool_iff. lra.
    + rewrite H. cbn [negb b2q]. ring.
    + rewrite H. cbn [negb b2q]. ring.
    + rewrite H. cbn [negb b2q].
      replace (slice_lo (ny gy) (Some 0%Z) + j)%nat with j
        by (unfold slice_lo, py_index; cbn [Z.ltb Z.compare]; lia).
      ring.
    + apply negb_true_iff in H. rewrite H. cbn [negb b2q]. ring.
    + apply negb_true_iff in H. rewrite H. cbn [negb b2q]. ring.
    + intros L. apply negb_true_iff in H. rewrite H. cbn [negb b2q].
      replace (slice_lo (ny gy) (Some 1%Z) + j)%nat with (S j)
        by (unfold slice_lo, py_index; cbn [Z.ltb Z.compare]; lia).
      ring.
    + intros H L. rewrite cat_y_cons_ge by lia. rewrite cat_y_cons_lt by lia.
      f_equal. lia.
    + intros L. apply cat_y_cons_lt, L.
  - unfold flow_tb, flow_bt, r_z, r_z_bt, r_z_tb, flux_fac_upw_z,
      flux_fac_lim_z, mass_z, anti_z, flow_tb, flow_bt.
    entry. repeat split; try apply Qle_bool_iff.
    + intros H. apply Qle_bool_iff. lra.
    + rewrite H. cbn [negb b2q]. ring.
    + rewrite H. cbn [negb b2q]. ring.
    + rewrite H. cbn [negb b2q].
      replace (slice_lo (nz gz) (Some 0%Z) + k)%nat with k
        by (unfold slice_lo, py_index; cbn [Z.ltb Z.compare]; lia).
      ring.
    + apply negb_true_iff in H. rewrite H. cbn [negb b2q]. ring.
    + apply negb_true_iff in H. rewrite H. cbn [negb b2q]. ring.
    + intros L. apply negb_true_iff in H. rewrite H. cbn [negb b2q].
      replace (slice_lo (nz gz) (Some 1%Z) + k)%nat with (S k)
        by (unfold slice_lo, py_index; cbn [Z.ltb Z.compare]; lia).
      ring.
    + intros H L. rewrite cat_z_cons_ge by lia. rewrite cat_z_cons_lt by lia.
      f_equal. lia.
    + intros L. apply cat_z_cons_lt, L.
Qed.

(** *** What [advection] returns *)

Lemma reconstruct_some (p : Z) rho sx sy sz dx dy dz perX perY perZ uf vf wf :
  In p placements ->
  exists f, reconstruct p rho sx sy sz dx dy dz perX perY perZ uf vf wf = Some f.
Proof.
  intros H. unfold reconstruct.
  destruct (p =? pos_Z)%Z eqn:EZ; [eexists; reflexivity|].
  destruct (p =? pos_Y)%Z eqn:EY; [eexists; reflexivity|].
  destruct (p =? pos_X)%Z eqn:EX; [eexists; reflexivity|].
  destruct (p =? pos_C)%Z eqn:EC; [eexists; reflexivity|].
  apply Z.eqb_neq in EZ, EY, EX, EC.
  destruct H as [H|[H|[H|[H|[]]]]]; congruence.
Qed.

Lemma reconstruct_none (p : Z) rho sx sy sz dx dy dz perX perY perZ uf vf wf :
  ~ In p placements ->
  reconstruct p rho sx sy sz dx dy dz perX perY perZ uf vf wf = None.
Proof.
  intros H. unfold reconstruct.
  destruct (Z.eqb_spec p pos_C) as [E|_]; [destruct H; left; auto|].
  destruct (Z.eqb_spec p pos_X) as [E|_]; [destruct H; right; left; auto|].
  destruct (Z.eqb_spec p pos_Y) as [E|_]; [destruct H; right; right; left; auto|].
  destruct (Z.eqb_spec p pos_Z) as [E|_]; [destruct H; right; right; right; left; auto|].
  reflexivity.
Qed.

Lemma limit_some (limiter : string) (r : array) :
  In limiter limiters -> exists psi, limit limiter r = Some psi.
Proof.
  intros [H|[H|[H|[H|[]]]]]; subst limiter; eexists; reflexivity.
Qed.

Lemma limit_none (limiter : string) (r : array) :
  ~ In limiter limiters -> limit limiter r = None.
Proof.
  intros H. unfold limit.
  destruct (String.eqb_spec limiter "upwind") as [E|_]; [destruct H; left; auto|].
  destruct (String.eqb_spec limiter "minmod") as [E|_]; [destruct H; right; left; auto|].
  destruct (String.eqb_spec limiter "superbee") as [E|_];
    [destruct H; right; right; left; auto|].
  destruct (String.eqb_spec limiter "koren") as [E|_];
    [destruct H; right; right; right; left; auto|].
  reflexivity.
Qed.

Lemma faces_of_some rho phi uvwf dxyz :
  In (pos phi) placements -> exists f, faces_of rho phi uvwf dxyz = Some f.
Proof.
  intros H. destruct uvwf as [[uf vf] wf], dxyz as [[dx dy] dz].
  apply reconstruct_some, H.
Qed.

Lemma faces_of_none rho phi uvwf dxyz :
  ~ In (pos phi) placements -> faces_of rho phi uvwf dxyz = None.
Proof.
  intros H. destruct uvwf as [[uf vf] wf], dxyz as [[dx dy] dz].
  apply reconstruct_none, H.
Qed.

Lemma limited_some (limiter : string) phi f dt :
  In limiter limiters -> exists cl, limited limiter phi f dt = Some cl.
Proof.
  intros H. unfold limited.
  destruct (@limit_some limiter (r_x f (d_x (pos phi) (per_X phi) (exchange phi))) H) as [px ->].
  destruct (@limit_some limiter (r_y f (d_y (pos phi) (per_Y phi) (exchange phi))) H) as [py ->].
  destruct (@limit_some limiter (r_z f (d_z (pos phi) (per_Z phi) (exchange phi))) H) as [pz ->].
  eexists; reflexivity.
Qed.

Lemma limited_none (limiter : string) phi f dt :
  ~ In limiter limiters -> limited limiter phi f dt = None.
Proof.
  intros H. unfold limited. rewrite (@limit_none limiter _ H). reflexivity.
Qed.

(** the refreshed velocities, as [advection] leaves them *)
Lemma advection_ok rho phi uvwf dxyz dt limiter matrix f cl :
  faces_of rho phi uvwf dxyz = Some f ->
  limited limiter phi f dt = Some cl ->
  advection rho phi uvwf dxyz dt limiter matrix =
  mk_run (Ok match matrix with
             | Some _ => cl [-] c_upw (exchange phi) f
             | None => cl
             end)
         (exchange phi)
         (exchange (fst (fst uvwf)), exchange (snd (fst uvwf)), exchange (snd uvwf))
         (option_map (fun m => fill_matrix m f) matrix)
         [Exchange "phi"; Exchange "uf"; Exchange "vf"; Exchange "wf"].
Proof.
  destruct uvwf as [[uf vf] wf], dxyz as [[dx dy] dz].
  unfold faces_of, limited, advection. cbv zeta. intros -> H.
  destruct (limit limiter (r_x f _)) as [px|]; [|discriminate].
  destruct (limit limiter (r_y f _)) as [py|]; [|discriminate].
  destruct (limit limiter (r_z f _)) as [pz|]; [|discriminate].
  injection H as <-. destruct matrix; reflexivity.
Qed.

Lemma advection_no_faces rho phi uvwf dxyz dt limiter matrix :
  faces_of rho phi uvwf dxyz = None ->
  advection rho phi uvwf dxyz dt limiter matrix =
  mk_run (Raise (UnboundLocalError "u_fac"))
         (exchange phi)
         (exchange (fst (fst uvwf)), exchange (snd (fst uvwf)), exchange (snd uvwf))
         matrix
         [Exchange "phi"; Exchange "uf"; Exchange "vf"; Exchange "wf"].
Proof.
  destruct uvwf as [[uf vf] wf], dxyz as [[dx dy] dz].
  unfold faces_of, advection. cbv zeta. intros ->. reflexivity.
Qed.

Lemma advection_no_psi rho phi uvwf dxyz dt limiter matrix f :
  faces_of rho phi uvwf dxyz = Some f ->
  limited limiter phi f dt = None ->
  advection rho phi uvwf dxyz dt limiter matrix =
  mk_run (Raise (UnboundLocalError "psi_x"))
         (exchange phi)
         (exchange (fst (fst uvwf)), exchange (snd (fst uvwf)), exchange (snd uvwf))
         matrix
         [Exchange "phi"; Exchange "uf"; Exchange "vf"; Exchange "wf"].
Proof.
  destruct uvwf as [[uf vf] wf], dxyz as [[dx dy] dz].
  unfold faces_of, limited, advection. cbv zeta. intros -> H.
  destruct (limit limiter (r_x f _)) as [px|]; [|reflexivity].
  destruct (limit limiter (r_y f _)) as [py|]; [|reflexivity].
  destruct (limit limiter (r_z f _)) as [pz|]; [|reflexivity].
  discriminate.
Qed.

(** *** The upwind limiter *)

Lemma upwind_flux_x phi f dt d r i j k :
  elt (flux_fac_lim_x phi f dt d (r :* 0)) i j k == elt (flux_fac_upw_x phi f) i j k.
Proof. unfold flux_fac_lim_x, flux_fac_upw_x. entry. ring. Qed.

Lemma upwind_flux_y phi f dt d r i j k :
  elt (flux_fac_lim_y phi f dt d (r :* 0)) i j k == elt (flux_fac_upw_y phi f) i j k.
Proof. unfold flux_fac_lim_y, flux_fac_upw_y. entry. ring. Qed.

Lemma upwind_flux_z phi f dt d r i j k :
  elt (flux_fac_lim_z phi f dt d (r :* 0)) i j k == elt (flux_fac_upw_z phi f) i j k.
Proof. unfold flux_fac_lim_z, flux_fac_upw_z. entry. ring. Qed.

Lemma limited_upwind phi f dt :
  exists up, limited "upwind" phi f dt = Some up /\
             array_eq up (c_upw (exchange phi) f).
Proof.
  eexists. split; [reflexivity|]. split; [reflexivity|].
  intros i j k. unfold c_lim, c_upw. entry.
  rewrite !upwind_flux_x, !upwind_flux_y, !upwind_flux_z. reflexivity.
Qed.

(** C5: with "upwind" every limited face flux is the upwind face flux,
    the correction adding nothing, and what [advection] returns without a
    matrix agrees, entry by entry, with the upwind-only divergence that
    the call with a matrix subtracts. *)
Theorem upwind_limiter_adds_no_correction rho phi uvwf dxyz dt m :
  In (pos phi) placements ->
  exists f a,
    faces_of rho phi uvwf dxyz = Some f /\
    result (advection rho phi uvwf dxyz dt "upwind" None) = Ok a /\
    result (advection rho phi uvwf dxyz dt "upwind" (Some m)) =
      Ok (a [-] c_upw (exchange phi) f) /\
    array_eq a (c_upw (exchange phi) f) /\
    (forall r d psi i j k,
        limit "upwind" r = Some psi ->
        elt psi i j k == 0 /\
        elt (flux_fac_lim_x (exchange phi) f dt d psi) i j k ==
          elt (flux_fac_upw_x (exchange phi) f) i j k /\
        elt (flux_fac_lim_y (exchange phi) f dt d psi) i j k ==
          elt (flux_fac_upw_y (exchange phi) f) i j k /\
        elt (flux_fac_lim_z (exchange phi) f dt d psi) i j k ==
          elt (flux_fac_upw_z (exchange phi) f) i j k).
Proof.
  intros Hp.
  destruct (@faces_of_some rho phi uvwf dxyz Hp) as [f Hf].
  destruct (limited_upwind phi f dt) as (up & Hup & Heq).
  exists f, up. split; [exact Hf|].
  rewrite (@advection_ok _ _ _ _ _ _ None _ _ Hf Hup),
    (@advection_ok _ _ _ _ _ _ (Some m) _ _ Hf Hup). cbn [result].
  repeat split; try apply Heq.
  - injection H as <-. entry. ring.
  - injection H as <-. apply upwind_flux_x.
  - injection H as <-. apply upwind_flux_y.
  - injection H as <-. apply upwind_flux_z.
Qed.

(** *** Deferred correction *)

(** C1: for each of the four limiters, the call with a matrix returns
    the limited flux divergence minus the upwind-only flux divergence,
    and that array agrees, entry by entry, with the result of the call
    without a matrix for the same limiter minus the result of the call
    without a matrix for "upwind". *)
Theorem deferred_correction_identity rho phi uvwf dxyz dt limiter m :
  In limiter limiters ->
  In (pos phi) placements ->
  exists f cl up,
    faces_of rho phi uvwf dxyz = Some f /\
    limited limiter phi f dt = Some cl /\
    result (advection rho phi uvwf dxyz dt limiter (Some m)) =
      Ok (cl [-] c_upw (exchange phi) f) /\
    result (advection rho phi uvwf dxyz dt limiter None) = Ok cl /\
    result (advection rho phi uvwf dxyz dt "upwind" None) = Ok up /\
    array_eq (cl [-] c_upw (exchange phi) f) (cl [-] up).
Proof.
  intros Hl Hp.
  destruct (@faces_of_some rho phi uvwf dxyz Hp) as [f Hf].
  destruct (@limited_some limiter phi f dt Hl) as [cl Hcl].
  destruct (limited_upwind phi f dt) as (up & Hup & Hs & Heq).
  exists f, cl, up. split; [exact Hf|]. split; [exact Hcl|].
  rewrite (@advection_ok _ _ _ _ _ _ None _ _ Hf Hcl),
    (@advection_ok _ _ _ _ _ _ (Some m) _ _ Hf Hcl),
    (@advection_ok _ _ _ _ _ _ None _ _ Hf Hup).
  cbn [result]. repeat split.
  intros i j k. entry. rewrite (Heq i j k). reflexivity.
Qed.

(** *** Upwind terms of the matrix *)

Lemma mflow_x_split (f : faces) (i j k : nat) :
  (0 <= elt (u_fac f) i j k ->
   elt (mflow_we f) i j k == elt (mass_x f) i j k /\ elt (mflow_ew f) i j k == 0) /\
  (elt (u_fac f) i j k < 0 ->
   elt (mflow_we f) i j k == 0 /\ elt (mflow_ew f) i j k == elt (mass_x f) i j k).
Proof.
  unfold mflow_we, mflow_ew, mass_x, flow_ew, flow_we. entry.
  split; intros H; qtests; try lra; cbn [negb b2q]; split; ring.
Qed.

Lemma mflow_y_split (f : faces) (i j k : nat) :
  (0 <= elt (v_fac f) i j k ->
   elt (mflow_sn f) i j k == elt (mass_y f) i j k /\ elt (mflow_ns f) i j k == 0) /\
  (elt (v_fac f) i j k < 0 ->
   elt (mflow_sn f) i j k == 0 /\ elt (mflow_ns f) i j k == elt (mass_y f) i j k).
Proof.
  unfold mflow_sn, mflow_ns, mass_y, flow_ns, flow_sn. entry.
  split; intros H; qtests; try lra; cbn [negb b2q]; split; ring.
Qed.

Lemma mflow_z_split (f : faces) (i j k : nat) :
  (0 <= elt (w_fac f) i j k ->
   elt (mflow_bt f) i j k == elt (mass_z f) i j k /\ elt (mflow_tb f) i j k == 0) /\
  (elt (w_fac f) i j k < 0 ->
   elt (mflow_bt f) i j k == 0 /\ elt (mflow_tb f) i j k == elt (mass_z f) i j k).
Proof.
  unfold mflow_bt, mflow_tb, mass_z, flow_tb, flow_bt. entry.
  split; intros H; qtests; try lra; cbn [negb b2q]; split; ring.
Qed.

Lemma py_index_one (n : nat) : (1 <= n)%nat -> py_index n 1 = 1%nat.
Proof. intros H. unfold py_index. cbn. lia. Qed.

(** C3: the call with a matrix adds the positive-flow mass flow of the
    near face of a cell to the band of the neighbour behind that face
    and subtracts the negative-flow mass flow of the far face from the
    band of the neighbour beyond it; the centre band gains exactly what
    the six neighbour bands of the cell gain, with the same sign; and of
    the two mass flows of a face one is the mass flow and the other is
    zero, according to the sign of the velocity. *)
Theorem matrix_centre_gains_neighbour_gains rho phi uvwf dxyz dt limiter m :
  In limiter limiters ->
  In (pos phi) placements ->
  exists f m',
    faces_of rho phi uvwf dxyz = Some f /\
    matrix_out (advection rho phi uvwf dxyz dt limiter (Some m)) = Some m' /\
    forall i j k,
      (elt (band_W m') i j k == elt (band_W m) i j k + elt (mflow_we f) i j k /\
       elt (band_S m') i j k == elt (band_S m) i j k + elt (mflow_sn f) i j k /\
       elt (band_B m') i j k == elt (band_B m) i j k + elt (mflow_bt f) i j k) /\
      (((1 <= nx (u_fac f))%nat ->
        elt (band_E m') i j k == elt (band_E m) i j k - elt (mflow_ew f) (S i) j k) /\
       ((1 <= ny (v_fac f))%nat ->
        elt (band_N m') i j k == elt (band_N m) i j k - elt (mflow_ns f) i (S j) k) /\
       ((1 <= nz (w_fac f))%nat ->
        elt (band_T m') i j k == elt (band_T m) i j k - elt (mflow_tb f) i j (S k))) /\
      elt (band_C m') i j k - elt (band_C m) i j k ==
        (elt (band_W m') i j k - elt (band_W m) i j k)
        + (elt (band_E m') i j k - elt (band_E m) i j k)
        + (elt (band_S m') i j k - elt (band_S m) i j k)
        + (elt (band_N m') i j k - elt (band_N m) i j k)
        + (elt (band_B m') i j k - elt (band_B m) i j k)
        + (elt (band_T m') i j k - elt (band_T m) i j k) /\
      ((0 <= elt (u_fac f) i j k ->
        elt (mflow_we f) i j k == elt (mass_x f) i j k /\ elt (mflow_ew f) i j k == 0) /\
       (elt (u_fac f) i j k < 0 ->
        elt (mflow_we f) i j k == 0 /\ elt (mflow_ew f) i j k == elt (mass_x f) i j k)) /\
      ((0 <= elt (v_fac f) i j k ->
        elt (mflow_sn f) i j k == elt (mass_y f) i j k /\ elt (mflow_ns f) i j k == 0) /\
       (elt (v_fac f) i j k < 0 ->
        elt (mflow_sn f) i j k == 0 /\ elt (mflow_ns f) i j k == elt (mass_y f) i j k)) /\
      ((0 <= elt (w_fac f) i j k ->
        elt (mflow_bt f) i j k == elt (mass_z f) i j k /\ elt (mflow_tb f) i j k == 0) /\
       (elt (w_fac f) i j k < 0 ->
        elt (mflow_bt f) i j k == 0 /\ elt (mflow_tb f) i j k == elt (mass_z f) i j k)).
Proof.
  intros Hl Hp.
  destruct (@faces_of_some rho phi uvwf dxyz Hp) as [f Hf].
  destruct (@limited_some limiter phi f dt Hl) as [cl Hcl].
  exists f, (fill_matrix m f). split; [exact Hf|].
  rewrite (@advection_ok _ _ _ _ _ _ (Some m) _ _ Hf Hcl).
  split; [reflexivity|].
  intros i j k. split; [|split; [|split; [|split; [|split]]]].
  - unfold fill_matrix. cbn [band_W band_S band_B]. entry. repeat split; reflexivity.
  - unfold fill_matrix. cbn [band_E band_N band_T]. entry.
    repeat split; intros H.
    + replace (slice_lo (nx (mflow_ew f)) (Some 1%Z)) with 1%nat
        by (symmetry; apply py_index_one, H). reflexivity.
    + replace (slice_lo (ny (mflow_ns f)) (Some 1%Z)) with 1%nat
        by (symmetry; apply py_index_one, H). reflexivity.
    + replace (slice_lo (nz (mflow_tb f)) (Some 1%Z)) with 1%nat
        by (symmetry; apply py_index_one, H). reflexivity.
  - unfold fill_matrix.
    cbn [band_C band_W band_E band_S band_N band_B band_T]. entry. ring.
  - apply mflow_x_split.
  - apply mflow_y_split.
  - apply mflow_z_split.
Qed.

(** *** Unsupported limiter or placement *)

(** C2: [advection] checks neither argument.  With a placement tag that
    is none of the four it raises [UnboundLocalError] for [u_fac]; with
    one of the four and a limiter name that is none of the four it
    raises [UnboundLocalError] for [psi_x]; with both supported it
    returns an array.  In every case the four buffers have been
    refreshed by then, and when it raises the matrix is as it was
    passed. *)
Theorem unsupported_configuration_raises_late rho phi uvwf dxyz dt limiter matrix :
  (~ In (pos phi) placements ->
   result (advection rho phi uvwf dxyz dt limiter matrix) =
     Raise (UnboundLocalError "u_fac")) /\
  (In (pos phi) placements -> ~ In limiter limiters ->
   result (advection rho phi uvwf dxyz dt limiter matrix) =
     Raise (UnboundLocalError "psi_x")) /\
  (In (pos phi) placements -> In limiter limiters ->
   exists a, result (advection rho phi uvwf dxyz dt limiter matrix) = Ok a) /\
  calls (advection rho phi uvwf dxyz dt limiter matrix) =
    [Exchange "phi"; Exchange "uf"; Exchange "vf"; Exchange "wf"] /\
  phi_out (advection rho phi uvwf dxyz dt limiter matrix) = exchange phi /\
  (~ In (pos phi) placements \/ ~ In limiter limiters ->
   matrix_out (advection rho phi uvwf dxyz dt limiter matrix) = matrix).
Proof.
  destruct (in_dec Z.eq_dec (pos phi) placements) as [Hp|Hp].
  - destruct (@faces_of_some rho phi uvwf dxyz Hp) as [f Hf].
    destruct (in_dec string_dec limiter limiters) as [Hl|Hl].
    + destruct (@limited_some limiter phi f dt Hl) as [cl Hcl].
      rewrite (@advection_ok _ _ _ _ _ _ matrix _ _ Hf Hcl).
      cbn [result calls phi_out matrix_out].
      split; [tauto|]. split; [tauto|].
      split; [intros _ _; eexists; reflexivity|].
      split; [reflexivity|]. split; [reflexivity|]. tauto.
    + rewrite (@advection_no_psi _ _ _ _ _ _ matrix _ Hf (@limited_none limiter phi f dt Hl)).
      cbn [result calls phi_out matrix_out].
      split; [tauto|]. split; [reflexivity|].
      split; [tauto|]. split; [reflexivity|]. split; reflexivity.
  - rewrite (@advection_no_faces _ _ _ _ dt limiter matrix (@faces_of_none rho phi uvwf dxyz Hp)).
    cbn [result calls phi_out matrix_out].
    split; [reflexivity|]. split; [tauto|].
    split; [tauto|]. split; [reflexivity|]. split; reflexivity.
Qed.

(** *** A uniform field *)

Lemma py_index_le (n : nat) (b : Z) : (py_index n b <= n)%nat.
Proof. unfold py_index. destruct (Z.ltb_spec b 0); lia. Qed.

Lemma slice_lo_0 (n : nat) : slice_lo n (Some 0%Z) = 0%nat.
Proof. unfold slice_lo, py_index. cbn [Z.ltb Z.compare]. lia. Qed.

Lemma slice_lo_1 (n : nat) : (1 <= n)%nat -> slice_lo n (Some 1%Z) = 1%nat.
Proof. unfold slice_lo, py_index. cbn [Z.ltb Z.compare]. lia. Qed.

Lemma slice_lo_2 (n : nat) : (2 <= n)%nat -> slice_lo n (Some 2%Z) = 2%nat.
Proof. unfold slice_lo, py_index. cbn [Z.ltb Z.compare]. lia. Qed.

(** at ratio 1 the limiters other than "upwind" return 1 *)
Lemma limit_at_one (limiter : string) (r psi : array) (i j k : nat) :
  limit limiter r = Some psi ->
  elt r i j k == 1 ->
  elt psi i j k * TINY == residue limiter.
Proof.
  unfold limit, residue. intros H H1.
  destruct (limiter =? "upwind")%string.
  { injection H as <-. cbn [amap elt]. ring. }
  assert (P : elt psi i j k == 1); [|rewrite P; ring].
  destruct (limiter =? "minmod")%string; [injection H as <-; entry; minmax; lra|].
  destruct (limiter =? "superbee")%string; [injection H as <-; entry; minmax; lra|].
  destruct (limiter =? "koren")%string; [injection H as <-|discriminate].
  entry.
  assert (Q3 : (2 + elt r i j k) / 3 == 1) by (rewrite H1; field).
  minmax; lra.
Qed.

Lemma slice_x_uniform c lo hi (a : array) :
  uniform_in c a -> uniform_in c (slice_x lo hi a).
Proof.
  intros H i j k Hi Hj Hk. cbn [slice_x nx ny nz elt] in *.
  apply H; try assumption.
  assert (slice_hi (nx a) hi <= nx a)%nat
    by (destruct hi; cbn [slice_hi]; [apply py_index_le|lia]).
  lia.
Qed.

Lemma cat_x_uniform c m1 m2 (l : list array) :
  Forall (fun a => uniform_in c a /\ ny a = m1 /\ nz a = m2) l ->
  forall i j k, (i < nx (cat_x l))%nat -> (j < m1)%nat -> (k < m2)%nat ->
                elt (cat_x l) i j k == c.
Proof.
  induction 1 as [|a l (Ha & H2 & H3) F IH]; intros i j k Hi Hj Hk;
    cbn [cat_x elt nx ny nz] in *; [lia|].
  destruct (Nat.ltb_spec i (nx a)).
  - apply Ha; lia.
  - apply IH; lia.
Qed.

Lemma dif_cat_x_zero c m1 m2 (l : list array) :
  Forall (fun a => uniform_in c a /\ ny a = m1 /\ nz a = m2) l ->
  forall i j k, (S i < nx (cat_x l))%nat -> (j < m1)%nat -> (k < m2)%nat ->
                elt (dif_x (cat_x l)) i j k == 0.
Proof.
  intros F i j k Hi Hj Hk. cbn [dif_x elt].
  rewrite !(@cat_x_uniform c m1 m2 l F) by lia. ring.
Qed.

Lemma d_x_raw_zero c p per phi :
  uniform c phi -> conformable phi ->
  (per = true -> (3 <= nx (val phi))%nat) ->
  forall i j k, (i <= nx (val phi) + 2)%nat ->
                (j < ny (val phi))%nat -> (k < nz (val phi))%nat ->
                elt (d_x_raw p per phi) i j k == 0.
Proof.
  intros (Uv & UW & UE & US & UN & UB & UT) (CW & CE & CS & CN & CB & CT)
         Hper i j k Hi Hj Hk.
  injection CW as L1 L2 L3. injection CE as M1 M2 M3.
  unfold d_x_raw.
  destruct per; cbn [negb]; [specialize (Hper eq_refl); destruct (p =? pos_X)%Z|];
    apply dif_cat_x_zero with (c := c) (m1 := ny (val phi)) (m2 := nz (val phi));
    try assumption;
    try (repeat constructor; try assumption; apply slice_x_uniform; assumption);
    cbn [cat_x nx ny nz slice_x slice_lo slice_hi]; unfold py_index;
    cbn [Z.ltb Z.compare]; lia.
Qed.

Lemma d_x_extent p per phi :
  conformable phi ->
  (per = true -> (3 <= nx (val phi))%nat) ->
  nx (d_x p per phi) = (nx (val phi) + 3)%nat.
Proof.
  intros (CW & CE & CS & CN & CB & CT) Hper.
  injection CW as L1 L2 L3. injection CE as M1 M2 M3.
  unfold d_x, d_x_raw.
  destruct per; cbn [negb]; [specialize (Hper eq_refl); destruct (p =? pos_X)%Z|];
    cbn [amap dif_x cat_x nx ny nz slice_x slice_lo slice_hi]; unfold py_index;
    cbn [Z.ltb Z.compare]; lia.
Qed.

Lemma d_x_uniform c p per phi :
  0 < TINY -> uniform c phi -> conformable phi ->
  (per = true -> (3 <= nx (val phi))%nat) ->
  forall i j k, (i <= nx (val phi) + 2)%nat ->
                (j < ny (val phi))%nat -> (k < nz (val phi))%nat ->
                elt (d_x p per phi) i j k == - TINY.
Proof.
  intros HT U Cf Hper i j k Hi Hj Hk. unfold d_x. cbn [amap elt].
  apply clamp_zero; [exact HT|].
  apply (@d_x_raw_zero c p per phi U Cf Hper); assumption.
Qed.

(** the limited face flux of a uniform field *)
Lemma flux_uniform_x c phi (f : faces) dt p per limiter psi :
  0 < TINY -> uniform c phi -> conformable phi ->
  (per = true -> (3 <= nx (val phi))%nat) ->
  limit limiter (r_x f (d_x p per phi)) = Some psi ->
  forall i j k, (i <= nx (val phi))%nat ->
                (j < ny (val phi))%nat -> (k < nz (val phi))%nat ->
    elt (flux_fac_lim_x phi f dt (d_x p per phi) psi) i j k ==
      c * elt (mass_x f) i j k - residue limiter * elt (anti_x f dt) i j k.
Proof.
  intros HT U Cf Hper Hpsi i j k Hi Hj Hk.
  pose proof (@d_x_extent p per phi Cf Hper) as Hn.
  assert (D0 : elt (d_x p per phi) i j k == - TINY)
    by (apply (@d_x_uniform c p per phi HT U Cf Hper); lia).
  assert (D1 : elt (d_x p per phi) (S i) j k == - TINY)
    by (apply (@d_x_uniform c p per phi HT U Cf Hper); lia).
  assert (D2 : elt (d_x p per phi) (S (S i)) j k == - TINY)
    by (apply (@d_x_uniform c p per phi HT U Cf Hper); lia).
  assert (R : elt (r_x f (d_x p per phi)) i j k == 1).
  { unfold r_x, r_x_we, r_x_ew. entry. rewrite Hn.
    rewrite slice_lo_0, slice_lo_1, slice_lo_2 by lia. cbn [Nat.add].
    rewrite D0, D1, D2.
    assert (E : - TINY / - TINY == 1) by (field; lra).
    rewrite E. unfold flow_ew. entry.
    destruct (elt (flow_we f) i j k); cbn [b2q negb]; ring. }
  pose proof (@limit_at_one limiter _ psi i j k Hpsi R) as P.
  destruct U as (Uv & UW & UE & US & UN & UB & UT).
  destruct Cf as (CW & CE & CS & CN & CB & CT).
  injection CW as L1 L2 L3. injection CE as M1 M2 M3.
  assert (A1 : elt (cat_x [bnd_W phi; val phi]) i j k == c).
  { apply (@cat_x_uniform c (ny (val phi)) (nz (val phi)));
      [repeat constructor; assumption| |assumption|assumption].
    cbn [cat_x nx ny nz]. lia. }
  assert (A2 : elt (cat_x [val phi; bnd_E phi]) i j k == c).
  { apply (@cat_x_uniform c (ny (val phi)) (nz (val phi)));
      [repeat constructor; assumption| |assumption|assumption].
    cbn [cat_x nx ny nz]. lia. }
  unfold flux_fac_lim_x, mass_x, anti_x, flow_ew. entry. rewrite Hn.
  rewrite slice_lo_0, slice_lo_1 by lia. cbn [Nat.add].
  rewrite A1, A2, D0, D1.
  revert P. generalize (elt psi i j k). intros x P.
  assert (P' : x * - TINY == - residue limiter) by (rewrite <- P; ring).
  destruct (elt (flow_we f) i j k); cbn [b2q negb]; rewrite !P'; ring.
Qed.

Lemma slice_y_uniform c lo hi (a : array) :
  uniform_in c a -> uniform_in c (slice_y lo hi a).
Proof.
  intros H i j k Hi Hj Hk. cbn [slice_y nx ny nz elt] in *.
  apply H; try assumption.
  assert (slice_hi (ny a) hi <= ny a)%nat
    by (destruct hi; cbn [slice_hi]; [apply py_index_le|lia]).
  lia.
Qed.

Lemma cat_y_uniform c m1 m2 (l : list array) :
  Forall (fun a => uniform_in c a /\ nx a = m1 /\ nz a = m2) l ->
  forall i j k, (j < ny (cat_y l))%nat -> (i < m1)%nat -> (k < m2)%nat ->
                elt (cat_y l) i j k == c.
Proof.
  induction 1 as [|a l (Ha & H2 & H3) F IH]; intros i j k Hi Hj Hk;
    cbn [cat_y elt nx ny nz] in *; [lia|].
  destruct (Nat.ltb_spec j (ny a)).
  - apply Ha; lia.
  - apply IH; lia.
Qed.

Lemma dif_cat_y_zero c m1 m2 (l : list array) :
  Forall (fun a => uniform_in c a /\ nx a = m1 /\ nz a = m2) l ->
  forall i j k, (S j < ny (cat_y l))%nat -> (i < m1)%nat -> (k < m2)%nat ->
                elt (dif_y (cat_y l)) i j k == 0.
Proof.
  intros F i j k Hi Hj Hk. cbn [dif_y elt].
  rewrite !(@cat_y_uniform c m1 m2 l F) by lia. ring.
Qed.

Lemma d_y_raw_zero c p per phi :
  uniform c phi -> conformable phi ->
  (per = true -> (3 <= ny (val phi))%nat) ->
  forall i j k, (j <= ny (val phi) + 2)%nat ->
                (i < nx (val phi))%nat -> (k < nz (val phi))%nat ->
                elt (d_y_raw p per phi) i j k == 0.
Proof.
  intros (Uv & UW & UE & US & UN & UB & UT) (CW & CE & CS & CN & CB & CT)
         Hper i j k Hi Hj Hk.
  injection CS as L1 L2 L3. injection CN as M1 M2 M3.
  unfold d_y_raw.
  destruct per; cbn [negb]; [specialize (Hper eq_refl); destruct (p =? pos_Y)%Z|];
    apply dif_cat_y_zero with (c := c) (m1 := nx (val phi)) (m2 := nz (val phi));
    try assumption;
    try (repeat constructor; try assumption; apply slice_y_uniform; assumption);
    cbn [cat_y nx ny nz slice_y slice_lo slice_hi]; unfold py_index;
    cbn [Z.ltb Z.compare]; lia.
Qed.

Lemma d_y_extent p per phi :
  conformable phi ->
  (per = true -> (3 <= ny (val phi))%nat) ->
  ny (d_y p per phi) = (ny (val phi) + 3)%nat.
Proof.
  intros (CW & CE & CS & CN & CB & CT) Hper.
  injection CS as L1 L2 L3. injection CN as M1 M2 M3.
  unfold d_y, d_y_raw.
  destruct per; cbn [negb]; [specialize (Hper eq_refl); destruct (p =? pos_Y)%Z|];
    cbn [amap dif_y cat_y nx ny nz slice_y slice_lo slice_hi]; unfold py_index;
    cbn [Z.ltb Z.compare]; lia.
Qed.

Lemma d_y_uniform c p per phi :
  0 < TINY -> uniform c phi -> conformable phi ->
  (per = true -> (3 <= ny (val phi))%nat) ->
  forall i j k, (j <= ny (val phi) + 2)%nat ->
                (i < nx (val phi))%nat -> (k < nz (val phi))%nat ->
                elt (d_y p per phi) i j k == - TINY.
Proof.
  intros HT U Cf Hper i j k Hi Hj Hk. unfold d_y. cbn [amap elt].
  apply clamp_zero; [exact HT|].
  apply (@d_y_raw_zero c p per phi U Cf Hper); assumption.
Qed.

(** the limited face flux of a uniform field *)
Lemma flux_uniform_y c phi (f : faces) dt p per limiter psi :
  0 < TINY -> uniform c phi -> conformable phi ->
  (per = true -> (3 <= ny (val phi))%nat) ->
  limit limiter (r_y f (d_y p per phi)) = Some psi ->
  forall i j k, (j <= ny (val phi))%nat ->
                (i < nx (val phi))%nat -> (k < nz (val phi))%nat ->
    elt (flux_fac_lim_y phi f dt (d_y p per phi) psi) i j k ==
      c * elt (mass_y f) i j k - residue limiter * elt (anti_y f dt) i j k.
Proof.
  intros HT U Cf Hper Hpsi i j k Hi Hj Hk.
  pose proof (@d_y_extent p per phi Cf Hper) as Hn.
  assert (D0 : elt (d_y p per phi) i j k == - TINY)
    by (apply (@d_y_uniform c p per phi HT U Cf Hper); lia).
  assert (D1 : elt (d_y p per phi) i (S j) k == - TINY)
    by (apply (@d_y_uniform c p per phi HT U Cf Hper); lia).
  assert (D2 : elt (d_y p per phi) i (S (S j)) k == - TINY)
    by (apply (@d_y_uniform c p per phi HT U Cf Hper); lia).
  assert (R : elt (r_y f (d_y p per phi)) i j k == 1).
  { unfold r_y, r_y_sn, r_y_ns. entry. rewrite Hn.
    rewrite slice_lo_0, slice_lo_1, slice_lo_2 by lia. cbn [Nat.add].
    rewrite D0, D1, D2.
    assert (E : - TINY / - TINY == 1) by (field; lra).
    rewrite E. unfold flow_ns. entry.
    destruct (elt (flow_sn f) i j k); cbn [b2q negb]; ring. }
  pose proof (@limit_at_one limiter _ psi i j k Hpsi R) as P.
  destruct U as (Uv & UW & UE & US & UN & UB & UT).
  destruct Cf as (CW & CE & CS & CN & CB & CT).
  injection CS as L1 L2 L3. injection CN as M1 M2 M3.
  assert (A1 : elt (cat_y [bnd_S phi; val phi]) i j k == c).
  { apply (@cat_y_uniform c (nx (val phi)) (nz (val phi)));
      [repeat constructor; assumption| |assumption|assumption].
    cbn [cat_y nx ny nz]. lia. }
  assert (A2 : elt (cat_y [val phi; bnd_N phi]) i j k == c).
  { apply (@cat_y_uniform c (nx (val phi)) (nz (val phi)));
      [repeat constructor; assumption| |assumption|assumption].
    cbn [cat_y nx ny nz]. lia. }
  unfold flux_fac_lim_y, mass_y, anti_y, flow_ns. entry. rewrite Hn.
  rewrite slice_lo_0, slice_lo_1 by lia. cbn [Nat.add].
  rewrite A1, A2, D0, D1.
  revert P. generalize (elt psi i j k). intros x P.
  assert (P' : x * - TINY == - residue limiter) by (rewrite <- P; ring).
  destruct (elt (flow_sn f) i j k); cbn [b2q negb]; rewrite !P'; ring.
Qed.

Lemma slice_z_uniform c lo hi (a : array) :
  uniform_in c a -> uniform_in c (slice_z lo hi a).
Proof.
  intros H i j k Hi Hj Hk. cbn [slice_z nx ny nz elt] in *.
  apply H; try assumption.
  assert (slice_hi (nz a) hi <= nz a)%nat
    by (destruct hi; cbn [slice_hi]; [apply py_index_le|lia]).
  lia.
Qed.

Lemma cat_z_uniform c m1 m2 (l : list array) :
  Forall (fun a => uniform_in c a /\ nx a = m1 /\ ny a = m2) l ->
  forall i j k, (k < nz (cat_z l))%nat -> (i < m1)%nat -> (j < m2)%nat ->
                elt (cat_z l) i j k == c.
Proof.
  induction 1 as [|a l (Ha & H2 & H3) F IH]; intros i j k Hi Hj Hk;
    cbn [cat_z elt nx ny nz] in *; [lia|].
  destruct (Nat.ltb_spec k (nz a)).
  - apply Ha; lia.
  - apply IH; lia.
Qed.

Lemma dif_cat_z_zero c m1 m2 (l : list array) :
  Forall (fun a => uniform_in c a /\ nx a = m1 /\ ny a = m2) l ->
  forall i j k, (S k < nz (cat_z l))%nat -> (i < m1)%nat -> (j < m2)%nat ->
                elt (dif_z (cat_z l)) i j k == 0.
Proof.
  intros F i j k Hi Hj Hk. cbn [dif_z elt].
  rewrite !(@cat_z_uniform c m1 m2 l F) by lia. ring.
Qed.

Lemma d_z_raw_zero c p per phi :
  uniform c phi -> conformable phi ->
  (per = true -> (3 <= nz (val phi))%nat) ->
  forall i j k, (k <= nz (val phi) + 2)%nat ->
                (i < nx (val phi))%nat -> (j < ny (val phi))%nat ->
                elt (d_z_raw p per phi) i j k == 0.
Proof.
  intros (Uv & UW & UE & US & UN & UB & UT) (CW & CE & CS & CN & CB & CT)
         Hper i j k Hi Hj Hk.
  injection CB as L1 L2 L3. injection CT as M1 M2 M3.
  unfold d_z_raw.
  destruct per; cbn [negb]; [specialize (Hper eq_refl); destruct (p =? pos_Z)%Z|];
    apply dif_cat_z_zero with (c := c) (m1 := nx (val phi)) (m2 := ny (val phi));
    try assumption;
    try (repeat constructor; try assumption; apply slice_z_uniform; assumption);
    cbn [cat_z nx ny nz slice_z slice_lo slice_hi]; unfold py_index;
    cbn [Z.ltb Z.compare]; lia.
Qed.

Lemma d_z_extent p per phi :
  conformable phi ->
  (per = true -> (3 <= nz (val phi))%nat) ->
  nz (d_z p per phi) = (nz (val phi) + 3)%nat.
Proof.
  intros (CW & CE & CS & CN & CB & CT) Hper.
  injection CB as L1 L2 L3. injection CT as M1 M2 M3.
  unfold d_z, d_z_raw.
  destruct per; cbn [negb]; [specialize (Hper eq_refl); destruct (p =? pos_Z)%Z|];
    cbn [amap dif_z cat_z nx ny nz slice_z slice_lo slice_hi]; unfold py_index;
    cbn [Z.ltb Z.compare]; lia.
Qed.

Lemma d_z_uniform c p per phi :
  0 < TINY -> uniform c phi -> conformable phi ->
  (per = true -> (3 <= nz (val phi))%nat) ->
  forall i j k, (k <= nz (val phi) + 2)%nat ->
                (i < nx (val phi))%nat -> (j < ny (val phi))%nat ->
                elt (d_z p per phi) i j k == - TINY.
Proof.
  intros HT U Cf Hper i j k Hi Hj Hk. unfold d_z. cbn [amap elt].
  apply clamp_zero; [exact HT|].
  apply (@d_z_raw_zero c p per phi U Cf Hper); assumption.
Qed.

(** the limited face flux of a uniform field *)
Lemma flux_uniform_z c phi (f : faces) dt p per limiter psi :
  0 < TINY -> uniform c phi -> conformable phi ->
  (per = true -> (3 <= nz (val phi))%nat) ->
  limit limiter (r_z f (d_z p per phi)) = Some psi ->
  forall i j k, (k <= nz (val phi))%nat ->
                (i < nx (val phi))%nat -> (j < ny (val phi))%nat ->
    elt (flux_fac_lim_z phi f dt (d_z p per phi) psi) i j k ==
      c * elt (mass_z f) i j k - residue limiter * elt (anti_z f dt) i j k.
Proof.
  intros HT U Cf Hper Hpsi i j k Hi Hj Hk.
  pose proof (@d_z_extent p per phi Cf Hper) as Hn.
  assert (D0 : elt (d_z p per phi) i j k == - TINY)
    by (apply (@d_z_uniform c p per phi HT U Cf Hper); lia).
  assert (D1 : elt (d_z p per phi) i j (S k) == - TINY)
    by (apply (@d_z_uniform c p per phi HT U Cf Hper); lia).
  assert (D2 : elt (d_z p per phi) i j (S (S k)) == - TINY)
    by (apply (@d_z_uniform c p per phi HT U Cf Hper); lia).
  assert (R : elt (r_z f (d_z p per phi)) i j k == 1).
  { unfold r_z, r_z_bt, r_z_tb. entry. rewrite Hn.
    rewrite slice_lo_0, slice_lo_1, slice_lo_2 by lia. cbn [Nat.add].
    rewrite D0, D1, D2.
    assert (E : - TINY / - TINY == 1) by (field; lra).
    rewrite E. unfold flow_tb. entry.
    destruct (elt (flow_bt f) i j k); cbn [b2q negb]; ring. }
  pose proof (@limit_at_one limiter _ psi i j k Hpsi R) as P.
  destruct U as (Uv & UW & UE & US & UN & UB & UT).
  destruct Cf as (CW & CE & CS & CN & CB & CT).
  injection CB as L1 L2 L3. injection CT as M1 M2 M3.
  assert (A1 : elt (cat_z [bnd_B phi; val phi]) i j k == c).
  { apply (@cat_z_uniform c (nx (val phi)) (ny (val phi)));
      [repeat constructor; assumption| |assumption|assumption].
    cbn [cat_z nx ny nz]. lia. }
  assert (A2 : elt (cat_z [val phi; bnd_T phi]) i j k == c).
  { apply (@cat_z_uniform c (nx (val phi)) (ny (val phi)));
      [repeat constructor; assumption| |assumption|assumption].
    cbn [cat_z nx ny nz]. lia. }
  unfold flux_fac_lim_z, mass_z, anti_z, flow_tb. entry. rewrite Hn.
  rewrite slice_lo_0, slice_lo_1 by lia. cbn [Nat.add].
  rewrite A1, A2, D0, D1.
  revert P. generalize (elt psi i j k). intros x P.
  assert (P' : x * - TINY == - residue limiter) by (rewrite <- P; ring).
  destruct (elt (flow_bt f) i j k); cbn [b2q negb]; rewrite !P'; ring.
Qed.

(** in rational arithmetic the result for a uniform field is, in every
    cell, [c] times the divergence of the mass flow through the faces,
    less [TINY] times the divergence of the factor of the correction for
    the limiters other than "upwind" *)
Lemma uniform_field_flux_form rho phi uvwf dxyz dt limiter c :
  0 < TINY ->
  In limiter limiters ->
  In (pos phi) placements ->
  uniform c (exchange phi) ->
  conformable (exchange phi) ->
  (per_X phi = true -> (3 <= nx (val (exchange phi)))%nat) ->
  (per_Y phi = true -> (3 <= ny (val (exchange phi)))%nat) ->
  (per_Z phi = true -> (3 <= nz (val (exchange phi)))%nat) ->
  exists f a,
    faces_of rho phi uvwf dxyz = Some f /\
    result (advection rho phi uvwf dxyz dt limiter None) = Ok a /\
    forall i j k,
      (i < nx (val (exchange phi)))%nat ->
      (j < ny (val (exchange phi)))%nat ->
      (k < nz (val (exchange phi)))%nat ->
      elt a i j k ==
        c * elt (div3 (mass_x f) (mass_y f) (mass_z f)) i j k
        - residue limiter * elt (div3 (anti_x f dt) (anti_y f dt) (anti_z f dt)) i j k /\
      (limiter = "upwind"%string ->
       elt (div3 (mass_x f) (mass_y f) (mass_z f)) i j k == 0 ->
       elt a i j k == 0).
Proof.
  intros HT Hl Hp U Cf PX PY PZ.
  destruct (@faces_of_some rho phi uvwf dxyz Hp) as [f Hf].
  destruct (@limited_some limiter phi f dt Hl) as [cl Hcl].
  exists f, cl. split; [exact Hf|].
  rewrite (@advection_ok _ _ _ _ _ _ None _ _ Hf Hcl). split; [reflexivity|].
  unfold limited in Hcl.
  destruct (limit limiter (r_x f _)) as [psi_x|] eqn:Lx; [|discriminate].
  destruct (limit limiter (r_y f _)) as [psi_y|] eqn:Ly; [|discriminate].
  destruct (limit limiter (r_z f _)) as [psi_z|] eqn:Lz; [|discriminate].
  injection Hcl as <-.
  intros i j k Hi Hj Hk.
  assert (F : elt (c_lim (exchange phi) f dt
                         (d_x (pos phi) (per_X phi) (exchange phi))
                         (d_y (pos phi) (per_Y phi) (exchange phi))
                         (d_z (pos phi) (per_Z phi) (exchange phi))
                         (psi_x, psi_y, psi_z)) i j k ==
        c * elt (div3 (mass_x f) (mass_y f) (mass_z f)) i j k
        - residue limiter * elt (div3 (anti_x f dt) (anti_y f dt) (anti_z f dt)) i j k).
  { unfold c_lim, div3. entry.
    rewrite (@flux_uniform_x c _ f dt _ _ limiter psi_x HT U Cf PX Lx (S i) j k) by lia.
    rewrite (@flux_uniform_x c _ f dt _ _ limiter psi_x HT U Cf PX Lx i j k) by lia.
    rewrite (@flux_uniform_y c _ f dt _ _ limiter psi_y HT U Cf PY Ly i (S j) k) by lia.
    rewrite (@flux_uniform_y c _ f dt _ _ limiter psi_y HT U Cf PY Ly i j k) by lia.
    rewrite (@flux_uniform_z c _ f dt _ _ limiter psi_z HT U Cf PZ Lz i j (S k)) by lia.
    rewrite (@flux_uniform_z c _ f dt _ _ limiter psi_z HT U Cf PZ Lz i j k) by lia.
    ring. }
  split; [exact F|].
  intros -> H0. rewrite F, H0. unfold residue. cbn [String.eqb Ascii.eqb Bool.eqb]. ring.
Qed.

(** C4: for a field that is [c] in every cell and boundary array, on
    arrays of matching extents, the result without a matrix is zero in
    every cell whose two faces along each axis carry the same face
    velocity, face density and face area and, unless the limiter is
    "upwind", the same distance between cell centres: the two face
    fluxes of an axis are then the same expression of the same values,
    and their difference is zero.  Nothing is said of a cell whose faces
    differ. *)
Theorem uniform_field_equal_faces rho phi uvwf dxyz dt limiter c :
  0 < TINY ->
  In limiter limiters ->
  In (pos phi) placements ->
  uniform c (exchange phi) ->
  conformable (exchange phi) ->
  (per_X phi = true -> (3 <= nx (val (exchange phi)))%nat) ->
  (per_Y phi = true -> (3 <= ny (val (exchange phi)))%nat) ->
  (per_Z phi = true -> (3 <= nz (val (exchange phi)))%nat) ->
  exists f a,
    faces_of rho phi uvwf dxyz = Some f /\
    result (advection rho phi uvwf dxyz dt limiter None) = Ok a /\
    forall i j k,
      (i < nx (val (exchange phi)))%nat ->
      (j < ny (val (exchange phi)))%nat ->
      (k < nz (val (exchange phi)))%nat ->
      (elt (u_fac f) (S i) j k == elt (u_fac f) i j k /\
       elt (rho_x_fac f) (S i) j k == elt (rho_x_fac f) i j k /\
       elt (a_x_fac f) (S i) j k == elt (a_x_fac f) i j k) ->
      (elt (v_fac f) i (S j) k == elt (v_fac f) i j k /\
       elt (rho_y_fac f) i (S j) k == elt (rho_y_fac f) i j k /\
       elt (a_y_fac f) i (S j) k == elt (a_y_fac f) i j k) ->
      (elt (w_fac f) i j (S k) == elt (w_fac f) i j k /\
       elt (rho_z_fac f) i j (S k) == elt (rho_z_fac f) i j k /\
       elt (a_z_fac f) i j (S k) == elt (a_z_fac f) i j k) ->
      (limiter = "upwind"%string \/
       (elt (del_x f) (S i) j k == elt (del_x f) i j k /\
        elt (del_y f) i (S j) k == elt (del_y f) i j k /\
        elt (del_z f) i j (S k) == elt (del_z f) i j k)) ->
      elt a i j k == 0.
Proof.
  intros HT Hl Hp U Cf PX PY PZ.
  destruct (@uniform_field_flux_form rho phi uvwf dxyz dt limiter c HT Hl Hp U Cf PX PY PZ)
    as (f & a & Hf & Ha & F).
  exists f, a. split; [exact Hf|]. split; [exact Ha|].
  intros i j k Hi Hj Hk (Xu & Xr & Xa) (Yv & Yr & Ya) (Zw & Zr & Za) D.
  destruct (F i j k Hi Hj Hk) as [E _]. rewrite E.
  assert (M : elt (div3 (mass_x f) (mass_y f) (mass_z f)) i j k == 0).
  { unfold div3, mass_x, mass_y, mass_z. entry.
    rewrite Xu, Xr, Xa, Yv, Yr, Ya, Zw, Zr, Za. ring. }
  rewrite M.
  destruct D as [-> | (Dx & Dy & Dz)].
  - unfold residue. cbn [String.eqb Ascii.eqb Bool.eqb]. ring.
  - assert (A : elt (div3 (anti_x f dt) (anti_y f dt) (anti_z f dt)) i j k == 0).
    { unfold div3, anti_x, anti_y, anti_z. entry.
      rewrite Xu, Xr, Xa, Yv, Yr, Ya, Zw, Zr, Za, Dx, Dy, Dz. ring. }
    rewrite A. ring.
Qed.

End Properties.

Section TransportProperties.

Context {env : Environment} {col : Collaborators}.

(** C8: [calc_phi] does not use a source that is an array of more than
    one entry.  For a field with one of the four placements [advection]
    returns the advective term, and then the test [src == None] of
    line 60 raises numpy's [ValueError]: the buffers of the field and of
    the velocities have been refreshed, no right-hand side is assembled,
    the solver is not called and the values of the field are not
    overwritten. *)
Theorem calc_phi_refuses_array_source phi uvwf density gamma dt dxyz obst (s : array) :
  In (pos phi) placements ->
  (1 < entries s)%nat ->
  (exists c_phi,
      result (advection density phi uvwf dxyz dt "minmod" None) = Ok c_phi) /\
  calc_phi phi uvwf density gamma dt dxyz obst (Some s) =
    mk_step (Raise (ValueError "truth value of an array"))
            (exchange phi)
            (exchange (fst (fst uvwf)), exchange (snd (fst uvwf)), exchange (snd uvwf)).
Proof.
  intros Hp Hs.
  destruct (@faces_of_some _ density phi uvwf dxyz Hp) as [f Hf].
  destruct (@limited_some _ "minmod" phi f dt) as [cl Hcl];
    [right; left; reflexivity|].
  pose proof (@advection_ok _ density phi uvwf dxyz dt "minmod" None f cl Hf Hcl) as Hadv.
  split; [exists cl; rewrite Hadv; reflexivity|].
  unfold calc_phi. rewrite Hadv.
  cbn [result phi_out uvwf_out matrix_out option_map].
  destruct dxyz as [[ex ey] ez]. unfold src_eq_None.
  destruct (Nat.eqb_spec (entries s) 1) as [E|E]; [lia|reflexivity].
Qed.

End TransportProperties.

(* ================================================================== *)
(** * Further properties of the two functions *)
(* ================================================================== *)

Section Coverage.

Context {env : Environment}.

(** *** Limiters *)

(** X1: whatever limiter binds [psi], the correction factor is zero
    where the ratio is zero or negative, and where the ratio is positive
    it is at most twice the ratio. *)
Theorem limiter_in_tvd_region (limiter : string) (r psi : array) (i j k : nat) :
  limit limiter r = Some psi ->
  (elt r i j k <= 0 -> elt psi i j k == 0) /\
  (0 <= elt r i j k -> elt psi i j k <= 2 * elt r i j k).
Proof.
  unfold limit. intros H.
  destruct (limiter =? "upwind")%string.
  { injection H as <-. entry. split; intros; [ring|lra]. }
  destruct (limiter =? "minmod")%string.
  { injection H as <-. entry. split; intros; minmax; lra. }
  destruct (limiter =? "superbee")%string.
  { injection H as <-. entry. split; intros; minmax; lra. }
  destruct (limiter =? "koren")%string; [injection H as <-|discriminate].
  entry. split; intros; minmax; lra.
Qed.

(** X2: at every ratio the factors are ordered, "upwind" below "minmod"
    below "koren" below "superbee", and at ratio 1 the last three are 1. *)
Theorem limiters_ordered (r : array) (i j k : nat) :
  exists pu pm pk ps,
    limit "upwind" r = Some pu /\ limit "minmod" r = Some pm /\
    limit "koren" r = Some pk /\ limit "superbee" r = Some ps /\
    elt pu i j k <= elt pm i j k /\
    elt pm i j k <= elt pk i j k /\
    elt pk i j k <= elt ps i j k /\
    (elt r i j k == 1 ->
     elt pm i j k == 1 /\ elt pk i j k == 1 /\ elt ps i j k == 1).
Proof.
  do 4 eexists. do 4 (split; [reflexivity|]). entry.
  assert (T : (2 + elt r i j k) / 3 * 3 == 2 + elt r i j k) by field.
  revert T. generalize ((2 + elt r i j k) / 3). intros t T.
  repeat split; intros; minmax; lra.
Qed.

(** *** The clamp *)

(** X3: with a positive [TINY] the two masked assignments leave every
    difference of magnitude at least [TINY] as it is, move no difference
    by more than [TINY], change nothing when applied a second time, and
    keep the order of any two differences. *)
Theorem clamp_touches_the_dead_zone_only (d e : Q) :
  0 < TINY ->
  (TINY <= Qabs d -> clamp d = d) /\
  Qabs (clamp d - d) <= TINY /\
  clamp (clamp d) = clamp d /\
  (d <= e -> clamp d <= clamp e).
Proof.
  intros HT.
  assert (M : d <= e -> clamp d <= clamp e).
  { intros L.
    destruct (clamp_spec d HT) as [(H1 & H)|[(H1 & H2 & H)|[(H1 & H2 & H)|(H1 & H)]]];
      destruct (clamp_spec e HT) as [(G1 & G)|[(G1 & G2 & G)|[(G1 & G2 & G)|(G1 & G)]]];
      rewrite H, G; lra. }
  split; [|split; [|split; [|exact M]]].
  - intros A.
    destruct (Qabs_cases d) as [[P0 B]|[P0 B]]; rewrite B in A;
      destruct (clamp_spec d HT) as [(H1 & H)|[(H1 & H2 & H)|[(H1 & H2 & H)|(H1 & H)]]];
      try exact H; lra.
  - destruct (clamp_spec d HT) as [(H1 & H)|[(H1 & H2 & H)|[(H1 & H2 & H)|(H1 & H)]]];
      rewrite H;
      match goal with
      | |- Qabs ?x <= _ => destruct (Qabs_cases x) as [[P0 A]|[P0 A]]; rewrite A; lra
      end.
  - destruct (clamp_spec d HT) as [(H1 & H)|[(H1 & H2 & H)|[(H1 & H2 & H)|(H1 & H)]]];
      rewrite H; try exact H.
    + destruct (clamp_spec (- TINY) HT)
        as [(G1 & G)|[(G1 & G2 & G)|[(G1 & G2 & G)|(G1 & G)]]]; try lra; exact G.
    + destruct (clamp_spec TINY HT)
        as [(G1 & G)|[(G1 & G2 & G)|[(G1 & G2 & G)|(G1 & G)]]]; try lra; exact G.
Qed.

(** *** Face fluxes *)

(** X4: at a face where the velocity times the time step equals the
    distance between the cell centres in magnitude (Courant number one),
    the limited face flux is the upwind face flux, whatever [psi] is;
    along each axis. *)
Theorem courant_one_gives_upwind_flux (phi : Unknown) (f : faces) (dt : Q)
        (d psi : array) (i j k : nat) :
  (~ elt (del_x f) i j k == 0 ->
   Qabs (elt (u_fac f) i j k) * dt == elt (del_x f) i j k ->
   elt (flux_fac_lim_x phi f dt d psi) i j k == elt (flux_fac_upw_x phi f) i j k) /\
  (~ elt (del_y f) i j k == 0 ->
   Qabs (elt (v_fac f) i j k) * dt == elt (del_y f) i j k ->
   elt (flux_fac_lim_y phi f dt d psi) i j k == elt (flux_fac_upw_y phi f) i j k) /\
  (~ elt (del_z f) i j k == 0 ->
   Qabs (elt (w_fac f) i j k) * dt == elt (del_z f) i j k ->
   elt (flux_fac_lim_z phi f dt d psi) i j k == elt (flux_fac_upw_z phi f) i j k).
Proof.
  split; [|split]; intros N C.
  - unfold flux_fac_lim_x, flux_fac_upw_x. entry. rewrite C.
    assert (E : 1 - elt (del_x f) i j k / elt (del_x f) i j k == 0) by (field; exact N).
    rewrite E. ring.
  - unfold flux_fac_lim_y, flux_fac_upw_y. entry. rewrite C.
    assert (E : 1 - elt (del_y f) i j k / elt (del_y f) i j k == 0) by (field; exact N).
    rewrite E. ring.
  - unfold flux_fac_lim_z, flux_fac_upw_z. entry. rewrite C.
    assert (E : 1 - elt (del_z f) i j k / elt (del_z f) i j k == 0) by (field; exact N).
    rewrite E. ring.
Qed.

Lemma still_face_x phi f dt d psi i j k :
  elt (u_fac f) i j k == 0 ->
  elt (flux_fac_lim_x phi f dt d psi) i j k == 0 /\
  elt (flux_fac_upw_x phi f) i j k == 0 /\
  elt (mflow_we f) i j k == 0 /\ elt (mflow_ew f) i j k == 0.
Proof.
  intros H.
  assert (A : Qabs (elt (u_fac f) i j k) == 0) by (rewrite H; reflexivity).
  unfold flux_fac_lim_x, flux_fac_upw_x, mflow_we, mflow_ew. entry.
  rewrite A. generalize (b2q (elt (flow_we f) i j k)) (b2q (elt (flow_ew f) i j k)).
  intros b1 b2. rewrite H. repeat split; ring.
Qed.

Lemma still_face_y phi f dt d psi i j k :
  elt (v_fac f) i j k == 0 ->
  elt (flux_fac_lim_y phi f dt d psi) i j k == 0 /\
  elt (flux_fac_upw_y phi f) i j k == 0 /\
  elt (mflow_sn f) i j k == 0 /\ elt (mflow_ns f) i j k == 0.
Proof.
  intros H.
  assert (A : Qabs (elt (v_fac f) i j k) == 0) by (rewrite H; reflexivity).
  unfold flux_fac_lim_y, flux_fac_upw_y, mflow_sn, mflow_ns. entry.
  rewrite A. generalize (b2q (elt (flow_sn f) i j k)) (b2q (elt (flow_ns f) i j k)).
  intros b1 b2. rewrite H. repeat split; ring.
Qed.

Lemma still_face_z phi f dt d psi i j k :
  elt (w_fac f) i j k == 0 ->
  elt (flux_fac_lim_z phi f dt d psi) i j k == 0 /\
  elt (flux_fac_upw_z phi f) i j k == 0 /\
  elt (mflow_bt f) i j k == 0 /\ elt (mflow_tb f) i j k == 0.
Proof.
  intros H.
  assert (A : Qabs (elt (w_fac f) i j k) == 0) by (rewrite H; reflexivity).
  unfold flux_fac_lim_z, flux_fac_upw_z, mflow_bt, mflow_tb. entry.
  rewrite A. generalize (b2q (elt (flow_bt f) i j k)) (b2q (elt (flow_tb f) i j k)).
  intros b1 b2. rewrite H. repeat split; ring.
Qed.

Lemma slice_lo_one_cases (n : nat) :
  slice_lo n (Some 1%Z) = 1%nat \/ slice_lo n (Some 1%Z) = 0%nat.
Proof. unfold slice_lo, py_index. cbn [Z.ltb Z.compare]. lia. Qed.

(** X5: in a cell whose six face velocities are zero the result is zero
    with and without a matrix, for each limiter and whatever the field,
    and the call with a matrix leaves the seven coefficients of the cell
    as they were. *)
Theorem still_cell_gets_nothing rho phi uvwf dxyz dt limiter m f (i j k : nat) :
  In limiter limiters ->
  faces_of rho phi uvwf dxyz = Some f ->
  elt (u_fac f) i j k == 0 -> elt (u_fac f) (S i) j k == 0 ->
  elt (v_fac f) i j k == 0 -> elt (v_fac f) i (S j) k == 0 ->
  elt (w_fac f) i j k == 0 -> elt (w_fac f) i j (S k) == 0 ->
  exists a b m',
    result (advection rho phi uvwf dxyz dt limiter None) = Ok a /\
    result (advection rho phi uvwf dxyz dt limiter (Some m)) = Ok b /\
    matrix_out (advection rho phi uvwf dxyz dt limiter (Some m)) = Some m' /\
    elt a i j k == 0 /\ elt b i j k == 0 /\
    elt (band_C m') i j k == elt (band_C m) i j k /\
    elt (band_W m') i j k == elt (band_W m) i j k /\
    elt (band_E m') i j k == elt (band_E m) i j k /\
    elt (band_S m') i j k == elt (band_S m) i j k /\
    elt (band_N m') i j k == elt (band_N m) i j k /\
    elt (band_B m') i j k == elt (band_B m) i j k /\
    elt (band_T m') i j k == elt (band_T m) i j k.
Proof.
  intros Hl Hf U0 U1 V0 V1 W0 W1.
  destruct (@limited_some _ limiter phi f dt Hl) as [cl Hcl].
  rewrite (@advection_ok _ _ _ _ _ _ _ None _ _ Hf Hcl),
    (@advection_ok _ _ _ _ _ _ _ (Some m) _ _ Hf Hcl).
  do 3 eexists. do 3 (split; [reflexivity|]).
  unfold limited in Hcl.
  destruct (limit limiter (r_x f _)) as [psi_x|]; [|discriminate].
  destruct (limit limiter (r_y f _)) as [psi_y|]; [|discriminate].
  destruct (limit limiter (r_z f _)) as [psi_z|]; [|discriminate].
  injection Hcl as <-.
  set (dx := d_x (pos phi) (per_X phi) (exchange phi)).
  set (dy := d_y (pos phi) (per_Y phi) (exchange phi)).
  set (dz := d_z (pos phi) (per_Z phi) (exchange phi)).
  destruct (@still_face_x (exchange phi) f dt dx psi_x i j k U0) as (X0 & X0u & X0w & X0e).
  destruct (@still_face_x (exchange phi) f dt dx psi_x (S i) j k U1) as (X1 & X1u & X1w & X1e).
  destruct (@still_face_y (exchange phi) f dt dy psi_y i j k V0) as (Y0 & Y0u & Y0w & Y0e).
  destruct (@still_face_y (exchange phi) f dt dy psi_y i (S j) k V1) as (Y1 & Y1u & Y1w & Y1e).
  destruct (@still_face_z (exchange phi) f dt dz psi_z i j k W0) as (Z0 & Z0u & Z0w & Z0e).
  destruct (@still_face_z (exchange phi) f dt dz psi_z i j (S k) W1) as (Z1 & Z1u & Z1w & Z1e).
  assert (A : elt (c_lim (exchange phi) f dt dx dy dz (psi_x, psi_y, psi_z)) i j k == 0).
  { unfold c_lim. entry. rewrite X0, X1, Y0, Y1, Z0, Z1. ring. }
  assert (B : elt (c_upw (exchange phi) f) i j k == 0).
  { unfold c_upw. entry. rewrite X0u, X1u, Y0u, Y1u, Z0u, Z1u. ring. }
  assert (EX : elt (slice_x (Some 1%Z) None (mflow_ew f)) i j k == 0).
  { entry. destruct (slice_lo_one_cases (nx (mflow_ew f))) as [-> | ->];
      cbn [Nat.add]; assumption. }
  assert (EY : elt (slice_y (Some 1%Z) None (mflow_ns f)) i j k == 0).
  { entry. destruct (slice_lo_one_cases (ny (mflow_ns f))) as [-> | ->];
      cbn [Nat.add]; assumption. }
  assert (EZ : elt (slice_z (Some 1%Z) None (mflow_tb f)) i j k == 0).
  { entry. destruct (slice_lo_one_cases (nz (mflow_tb f))) as [-> | ->];
      cbn [Nat.add]; assumption. }
  split; [exact A|]. split; [entry; rewrite A, B; ring|].
  unfold fill_matrix.
  cbn [band_C band_W band_E band_S band_N band_B band_T iadd isub assign_all elt amap2].
  rewrite EX, EY, EZ.
  cbn [slice_x slice_y slice_z slice_lo elt Nat.add].
  rewrite X0w, Y0w, Z0w. repeat split; ring.
Qed.

(** *** Upwind terms of the matrix *)

(** X6: where density times area is not negative at the six faces of a
    cell, none of the seven coefficients of the cell gets smaller. *)
Theorem upwind_coefficients_do_not_decrease rho phi uvwf dxyz dt limiter m f (i j k : nat) :
  In limiter limiters ->
  faces_of rho phi uvwf dxyz = Some f ->
  (1 <= nx (u_fac f))%nat -> (1 <= ny (v_fac f))%nat -> (1 <= nz (w_fac f))%nat ->
  0 <= elt (rho_x_fac f) i j k * elt (a_x_fac f) i j k ->
  0 <= elt (rho_x_fac f) (S i) j k * elt (a_x_fac f) (S i) j k ->
  0 <= elt (rho_y_fac f) i j k * elt (a_y_fac f) i j k ->
  0 <= elt (rho_y_fac f) i (S j) k * elt (a_y_fac f) i (S j) k ->
  0 <= elt (rho_z_fac f) i j k * elt (a_z_fac f) i j k ->
  0 <= elt (rho_z_fac f) i j (S k) * elt (a_z_fac f) i j (S k) ->
  exists m',
    matrix_out (advection rho phi uvwf dxyz dt limiter (Some m)) = Some m' /\
    elt (band_C m) i j k <= elt (band_C m') i j k /\
    elt (band_W m) i j k <= elt (band_W m') i j k /\
    elt (band_E m) i j k <= elt (band_E m') i j k /\
    elt (band_S m) i j k <= elt (band_S m') i j k /\
    elt (band_N m) i j k <= elt (band_N m') i j k /\
    elt (band_B m) i j k <= elt (band_B m') i j k /\
    elt (band_T m) i j k <= elt (band_T m') i j k.
Proof.
  intros Hl Hf N1 N2 N3 X0 X1 Y0 Y1 Z0 Z1.
  destruct (@limited_some _ limiter phi f dt Hl) as [cl Hcl].
  rewrite (@advection_ok _ _ _ _ _ _ _ (Some m) _ _ Hf Hcl).
  eexists. split; [reflexivity|].
  assert (Pwe : forall u ra, 0 <= ra -> 0 <= u * b2q (Qle_bool 0 u) * ra).
  { intros u ra H. qtests; cbn [b2q]; nra. }
  assert (Pew : forall u ra, 0 <= ra -> u * b2q (negb (Qle_bool 0 u)) * ra <= 0).
  { intros u ra H. qtests; cbn [b2q negb]; nra. }
  unfold fill_matrix.
  cbn [band_C band_W band_E band_S band_N band_B band_T iadd isub assign_all elt amap2
       slice_x slice_y slice_z nx ny nz mflow_we mflow_ew mflow_sn mflow_ns mflow_bt mflow_tb
       flow_we flow_ew flow_sn flow_ns flow_bt flow_tb lnot ge0 amap].
  rewrite !slice_lo_1 by assumption. cbn [slice_lo Nat.add].
  pose proof (Pwe (elt (u_fac f) i j k) _ X0) as A1.
  pose proof (Pew (elt (u_fac f) (S i) j k) _ X1) as A2.
  pose proof (Pwe (elt (v_fac f) i j k) _ Y0) as A3.
  pose proof (Pew (elt (v_fac f) i (S j) k) _ Y1) as A4.
  pose proof (Pwe (elt (w_fac f) i j k) _ Z0) as A5.
  pose proof (Pew (elt (w_fac f) i j (S k)) _ Z1) as A6.
  rewrite <- !Qmult_assoc in *.
  repeat split; lra.
Qed.

(** X7: what the call adds to the matrix does not depend on the
    limiter, on the time step, or on the values of the field: two calls
    that agree on density, velocities, cell sizes, and on the placement
    and periodicity of the field leave the same matrix. *)
Theorem matrix_terms_ignore_limiter_and_field rho phi phi' uvwf dxyz dt dt'
        limiter limiter' m :
  In limiter limiters -> In limiter' limiters ->
  In (pos phi) placements ->
  pos phi' = pos phi -> per_X phi' = per_X phi ->
  per_Y phi' = per_Y phi -> per_Z phi' = per_Z phi ->
  exists m',
    matrix_out (advection rho phi uvwf dxyz dt limiter (Some m)) = Some m' /\
    matrix_out (advection rho phi' uvwf dxyz dt' limiter' (Some m)) = Some m'.
Proof.
  intros Hl Hl' Hp E1 E2 E3 E4.
  destruct (@faces_of_some _ rho phi uvwf dxyz Hp) as [f Hf].
  assert (Hf' : faces_of rho phi' uvwf dxyz = Some f).
  { rewrite <- Hf. unfold faces_of. rewrite E1, E2, E3, E4. reflexivity. }
  destruct (@limited_some _ limiter phi f dt Hl) as [cl Hcl].
  destruct (@limited_some _ limiter' phi' f dt' Hl') as [cl' Hcl'].
  rewrite (@advection_ok _ _ _ _ _ _ _ (Some m) _ _ Hf Hcl),
    (@advection_ok _ _ _ _ _ _ _ (Some m) _ _ Hf' Hcl').
  eexists. split; reflexivity.
Qed.

(** *** The periodic patch *)

Lemma wrap_x_slots (a : array) :
  (2 <= nx a)%nat ->
  shape (wrap_x a) = shape a /\
  forall i j k,
    elt (wrap_x a) i j k =
      if (i =? 0)%nat then elt a (nx a - 2) j k
      else if (i =? nx a - 1)%nat then elt a 1 j k
      else elt a i j k.
Proof.
  intros H. split; [reflexivity|]. intros i j k.
  unfold wrap_x, assign_x, slice_x, slice_lo, slice_hi, py_index.
  cbn [elt nx ny nz Z.ltb Z.compare].
  replace (Z.to_nat (Z.max 0 (Z.of_nat (nx a) + -1))) with (nx a - 1)%nat by lia.
  replace (Z.to_nat (Z.max 0 (Z.of_nat (nx a) + -2))) with (nx a - 2)%nat by lia.
  replace (Nat.min (Z.to_nat 1) (nx a)) with 1%nat by lia.
  replace (Nat.min (Z.to_nat 2) (nx a)) with 2%nat by lia.
  repeat match goal with
         | |- context [Nat.leb ?x ?y] => destruct (Nat.leb_spec x y)
         | |- context [Nat.ltb ?x ?y] => destruct (Nat.ltb_spec x y)
         | |- context [Nat.eqb ?x ?y] => destruct (Nat.eqb_spec x y)
         end; cbn [andb]; try lia; try reflexivity; f_equal; lia.
Qed.

Lemma wrap_y_slots (a : array) :
  (2 <= ny a)%nat ->
  shape (wrap_y a) = shape a /\
  forall i j k,
    elt (wrap_y a) i j k =
      if (j =? 0)%nat then elt a i (ny a - 2) k
      else if (j =? ny a - 1)%nat then elt a i 1 k
      else elt a i j k.
Proof.
  intros H. split; [reflexivity|]. intros i j k.
  unfold wrap_y, assign_y, slice_y, slice_lo, slice_hi, py_index.
  cbn [elt nx ny nz Z.ltb Z.compare].
  replace (Z.to_nat (Z.max 0 (Z.of_nat (ny a) + -1))) with (ny a - 1)%nat by lia.
  replace (Z.to_nat (Z.max 0 (Z.of_nat (ny a) + -2))) with (ny a - 2)%nat by lia.
  replace (Nat.min (Z.to_nat 1) (ny a)) with 1%nat by lia.
  replace (Nat.min (Z.to_nat 2) (ny a)) with 2%nat by lia.
  repeat match goal with
         | |- context [Nat.leb ?x ?y] => destruct (Nat.leb_spec x y)
         | |- context [Nat.ltb ?x ?y] => destruct (Nat.ltb_spec x y)
         | |- context [Nat.eqb ?x ?y] => destruct (Nat.eqb_spec x y)
         end; cbn [andb]; try lia; try reflexivity; f_equal; lia.
Qed.

Lemma wrap_z_slots (a : array) :
  (2 <= nz a)%nat ->
  shape (wrap_z a) = shape a /\
  forall i j k,
    elt (wrap_z a) i j k =
      if (k =? 0)%nat then elt a i j (nz a - 2)
      else if (k =? nz a - 1)%nat then elt a i j 1
      else elt a i j k.
Proof.
  intros H. split; [reflexivity|]. intros i j k.
  unfold wrap_z, assign_z, slice_z, slice_lo, slice_hi, py_index.
  cbn [elt nx ny nz Z.ltb Z.compare].
  replace (Z.to_nat (Z.max 0 (Z.of_nat (nz a) + -1))) with (nz a - 1)%nat by lia.
  replace (Z.to_nat (Z.max 0 (Z.of_nat (nz a) + -2))) with (nz a - 2)%nat by lia.
  replace (Nat.min (Z.to_nat 1) (nz a)) with 1%nat by lia.
  replace (Nat.min (Z.to_nat 2) (nz a)) with 2%nat by lia.
  repeat match goal with
         | |- context [Nat.leb ?x ?y] => destruct (Nat.leb_spec x y)
         | |- context [Nat.ltb ?x ?y] => destruct (Nat.ltb_spec x y)
         | |- context [Nat.eqb ?x ?y] => destruct (Nat.eqb_spec x y)
         end; cbn [andb]; try lia; try reflexivity; f_equal; lia.
Qed.

(** X8: on an array with at least two slabs along the axis, the two
    assignments for a periodic axis keep the extents, overwrite the first
    slab with the last but one and the last slab with the second, leave
    every other slab as it is, and change nothing when made a second
    time. *)
Theorem periodic_patch_copies_inner_slabs (a : array) (i j k : nat) :
  ((2 <= nx a)%nat ->
   shape (wrap_x a) = shape a /\
   elt (wrap_x a) 0 j k = elt a (nx a - 2) j k /\
   elt (wrap_x a) (nx a - 1) j k = elt a 1 j k /\
   ((0 < i < nx a - 1)%nat -> elt (wrap_x a) i j k = elt a i j k) /\
   elt (wrap_x (wrap_x a)) i j k = elt (wrap_x a) i j k) /\
  ((2 <= ny a)%nat ->
   shape (wrap_y a) = shape a /\
   elt (wrap_y a) i 0 k = elt a i (ny a - 2) k /\
   elt (wrap_y a) i (ny a - 1) k = elt a i 1 k /\
   ((0 < j < ny a - 1)%nat -> elt (wrap_y a) i j k = elt a i j k) /\
   elt (wrap_y (wrap_y a)) i j k = elt (wrap_y a) i j k) /\
  ((2 <= nz a)%nat ->
   shape (wrap_z a) = shape a /\
   elt (wrap_z a) i j 0 = elt a i j (nz a - 2) /\
   elt (wrap_z a) i j (nz a - 1) = elt a i j 1 /\
   ((0 < k < nz a - 1)%nat -> elt (wrap_z a) i j k = elt a i j k) /\
   elt (wrap_z (wrap_z a)) i j k = elt (wrap_z a) i j k).
Proof.
  split; [|split]; intros H.
  - destruct (@wrap_x_slots a H) as [S W].
    assert (H' : (2 <= nx (wrap_x a))%nat) by exact H.
    destruct (@wrap_x_slots (wrap_x a) H') as [_ W'].
    split; [exact S|]. rewrite W', !W.
    change (nx (wrap_x a)) with (nx a).
    repeat match goal with
           | |- context [Nat.eqb ?x ?y] => destruct (Nat.eqb_spec x y)
           end; repeat split; intros; try lia; try reflexivity; f_equal; lia.
  - destruct (@wrap_y_slots a H) as [S W].
    assert (H' : (2 <= ny (wrap_y a))%nat) by exact H.
    destruct (@wrap_y_slots (wrap_y a) H') as [_ W'].
    split; [exact S|]. rewrite W', !W.
    change (ny (wrap_y a)) with (ny a).
    repeat match goal with
           | |- context [Nat.eqb ?x ?y] => destruct (Nat.eqb_spec x y)
           end; repeat split; intros; try lia; try reflexivity; f_equal; lia.
  - destruct (@wrap_z_slots a H) as [S W].
    assert (H' : (2 <= nz (wrap_z a))%nat) by exact H.
    destruct (@wrap_z_slots (wrap_z a) H') as [_ W'].
    split; [exact S|]. rewrite W', !W.
    change (nz (wrap_z a)) with (nz a).
    repeat match goal with
           | |- context [Nat.eqb ?x ?y] => destruct (Nat.eqb_spec x y)
           end; repeat split; intros; try lia; try reflexivity; f_equal; lia.
Qed.
(** *** Cell-centred face arrays *)

Lemma padded_x_values (per : bool) (g b1 b2 : array) (bnd : Q -> Q) (j k : nat) :
  (2 <= nx g)%nat ->
  nx b1 = 1%nat -> nx b2 = 1%nat ->
  elt b1 0 j k = bnd (elt g 0 j k) ->
  elt b2 0 j k = bnd (elt g (nx g - 1) j k) ->
  let c := cat_x [b1; avg_x g; b2] in
  face_values per (nx g) (fun i => elt g i j k) bnd
              (fun i => elt (if per then wrap_x c else c) i j k).
Proof.
  intros H N1 N2 B1 B2 c.
  assert (Nc : nx c = (nx g + 1)%nat).
  { subst c. cbn [cat_x avg_x nx ny nz]. lia. }
  assert (C0 : elt c 0 j k = bnd (elt g 0 j k)).
  { subst c. rewrite cat_x_cons_lt by lia. exact B1. }
  assert (Cn : elt c (nx g) j k = bnd (elt g (nx g - 1) j k)).
  { subst c. rewrite cat_x_cons_ge by lia. rewrite cat_x_cons_ge by (cbn [avg_x nx ny nz]; lia).
    rewrite cat_x_cons_lt by (cbn [avg_x nx ny nz]; lia).
    cbn [avg_x nx ny nz]. rewrite <- B2. f_equal; lia. }
  assert (Ci : forall i, (1 <= i <= nx g - 1)%nat ->
                      elt c i j k = (elt g i j k + elt g (i - 1) j k) * (1 # 2)).
  { intros i Hi. subst c. rewrite cat_x_cons_ge by lia.
    rewrite cat_x_cons_lt by (cbn [avg_x nx ny nz]; lia).
    rewrite N1. cbn [avg_x elt]. replace (S (i - 1)) with i by lia. reflexivity. }
  destruct per.
  - destruct (@wrap_x_slots c) as [_ W]; [lia|].
    split; [|split]; [|discriminate|intros _; split].
    + intros i Hi. rewrite W, Nc.
      destruct (Nat.eqb_spec i 0); [lia|].
      destruct (Nat.eqb_spec i (nx g + 1 - 1)); [lia|]. apply Ci, Hi.
    + rewrite W, Nc. cbn [Nat.eqb].
      replace (nx g + 1 - 2)%nat with (nx g - 1)%nat by lia.
      rewrite Ci by lia. do 3 f_equal; lia.
    + rewrite W, Nc.
      destruct (Nat.eqb_spec (nx g) 0); [lia|].
      destruct (Nat.eqb_spec (nx g) (nx g + 1 - 1)); [|lia].
      rewrite Ci by lia. reflexivity.
  - split; [|split]; [exact Ci|intros _; split; assumption|discriminate].
Qed.

Lemma padded_y_values (per : bool) (g b1 b2 : array) (bnd : Q -> Q) (i k : nat) :
  (2 <= ny g)%nat ->
  ny b1 = 1%nat -> ny b2 = 1%nat ->
  elt b1 i 0 k = bnd (elt g i 0 k) ->
  elt b2 i 0 k = bnd (elt g i (ny g - 1) k) ->
  let c := cat_y [b1; avg_y g; b2] in
  face_values per (ny g) (fun j => elt g i j k) bnd
              (fun j => elt (if per then wrap_y c else c) i j k).
Proof.
  intros H N1 N2 B1 B2 c.
  assert (Nc : ny c = (ny g + 1)%nat).
  { subst c. cbn [cat_y avg_y nx ny nz]. lia. }
  assert (C0 : elt c i 0 k = bnd (elt g i 0 k)).
  { subst c. rewrite cat_y_cons_lt by lia. exact B1. }
  assert (Cn : elt c i (ny g) k = bnd (elt g i (ny g - 1) k)).
  { subst c. rewrite cat_y_cons_ge by lia. rewrite cat_y_cons_ge by (cbn [avg_y nx ny nz]; lia).
    rewrite cat_y_cons_lt by (cbn [avg_y nx ny nz]; lia).
    cbn [avg_y nx ny nz]. rewrite <- B2. f_equal; lia. }
  assert (Ci : forall j, (1 <= j <= ny g - 1)%nat ->
                      elt c i j k = (elt g i j k + elt g i (j - 1) k) * (1 # 2)).
  { intros j Hi. subst c. rewrite cat_y_cons_ge by lia.
    rewrite cat_y_cons_lt by (cbn [avg_y nx ny nz]; lia).
    rewrite N1. cbn [avg_y elt]. replace (S (j - 1)) with j by lia. reflexivity. }
  destruct per.
  - destruct (@wrap_y_slots c) as [_ W]; [lia|].
    split; [|split]; [|discriminate|intros _; split].
    + intros j Hi. rewrite W, Nc.
      destruct (Nat.eqb_spec j 0); [lia|].
      destruct (Nat.eqb_spec j (ny g + 1 - 1)); [lia|]. apply Ci, Hi.
    + rewrite W, Nc. cbn [Nat.eqb].
      replace (ny g + 1 - 2)%nat with (ny g - 1)%nat by lia.
      rewrite Ci by lia. do 3 f_equal; lia.
    + rewrite W, Nc.
      destruct (Nat.eqb_spec (ny g) 0); [lia|].
      destruct (Nat.eqb_spec (ny g) (ny g + 1 - 1)); [|lia].
      rewrite Ci by lia. reflexivity.
  - split; [|split]; [exact Ci|intros _; split; assumption|discriminate].
Qed.

Lemma padded_z_values (per : bool) (g b1 b2 : array) (bnd : Q -> Q) (i j : nat) :
  (2 <= nz g)%nat ->
  nz b1 = 1%nat -> nz b2 = 1%nat ->
  elt b1 i j 0 = bnd (elt g i j 0) ->
  elt b2 i j 0 = bnd (elt g i j (nz g - 1)) ->
  let c := cat_z [b1; avg_z g; b2] in
  face_values per (nz g) (fun k => elt g i j k) bnd
              (fun k => elt (if per then wrap_z c else c) i j k).
Proof.
  intros H N1 N2 B1 B2 c.
  assert (Nc : nz c = (nz g + 1)%nat).
  { subst c. cbn [cat_z avg_z nx ny nz]. lia. }
  assert (C0 : elt c i j 0 = bnd (elt g i j 0)).
  { subst c. rewrite cat_z_cons_lt by lia. exact B1. }
  assert (Cn : elt c i j (nz g) = bnd (elt g i j (nz g - 1))).
  { subst c. rewrite cat_z_cons_ge by lia. rewrite cat_z_cons_ge by (cbn [avg_z nx ny nz]; lia).
    rewrite cat_z_cons_lt by (cbn [avg_z nx ny nz]; lia).
    cbn [avg_z nx ny nz]. rewrite <- B2. f_equal; lia. }
  assert (Ci : forall k, (1 <= k <= nz g - 1)%nat ->
                      elt c i j k = (elt g i j k + elt g i j (k - 1)) * (1 # 2)).
  { intros k Hi. subst c. rewrite cat_z_cons_ge by lia.
    rewrite cat_z_cons_lt by (cbn [avg_z nx ny nz]; lia).
    rewrite N1. cbn [avg_z elt]. replace (S (k - 1)) with k by lia. reflexivity. }
  destruct per.
  - destruct (@wrap_z_slots c) as [_ W]; [lia|].
    split; [|split]; [|discriminate|intros _; split].
    + intros k Hi. rewrite W, Nc.
      destruct (Nat.eqb_spec k 0); [lia|].
      destruct (Nat.eqb_spec k (nz g + 1 - 1)); [lia|]. apply Ci, Hi.
    + rewrite W, Nc. cbn [Nat.eqb].
      replace (nz g + 1 - 2)%nat with (nz g - 1)%nat by lia.
      rewrite Ci by lia. do 3 f_equal; lia.
    + rewrite W, Nc.
      destruct (Nat.eqb_spec (nz g) 0); [lia|].
      destruct (Nat.eqb_spec (nz g) (nz g + 1 - 1)); [|lia].
      rewrite Ci by lia. reflexivity.
  - split; [|split]; [exact Ci|intros _; split; assumption|discriminate].
Qed.

Ltac pad_side :=
  cbn [first_x last_x first_y last_y first_z last_z slice_x slice_y slice_z
       amap nx ny nz elt slice_lo slice_hi];
  try unfold py_index; cbn [Z.ltb Z.compare];
  first [assumption | lia | reflexivity | f_equal; lia | f_equal; f_equal; lia].

(** X9: for a cell-centred field, along each axis with at least two
    cells, density, area and distance at an interior face are the
    averages of the two cells; at the two boundary faces density and area
    are those of the cell next to the face and the distance is half its
    width; on a periodic axis the first boundary face has instead the
    value of the last interior face and the last boundary face the value
    of the first interior face. *)
Theorem cell_centred_face_values (rho sx sy sz dx dy dz : array)
        (perX perY perZ : bool) (uf vf wf : Unknown) (i j k : nat) :
  let f := faces_C rho sx sy sz dx dy dz perX perY perZ uf vf wf in
  ((2 <= nx rho)%nat ->
   face_values perX (nx rho) (fun i => elt rho i j k) (fun v => v)
               (fun i => elt (rho_x_fac f) i j k)) /\
  ((2 <= nx sx)%nat ->
   face_values perX (nx sx) (fun i => elt sx i j k) (fun v => v)
               (fun i => elt (a_x_fac f) i j k)) /\
  ((2 <= nx dx)%nat ->
   face_values perX (nx dx) (fun i => elt dx i j k) (fun v => v * (1 # 2))
               (fun i => elt (del_x f) i j k)) /\
  ((2 <= ny rho)%nat ->
   face_values perY (ny rho) (fun j => elt rho i j k) (fun v => v)
               (fun j => elt (rho_y_fac f) i j k)) /\
  ((2 <= ny sy)%nat ->
   face_values perY (ny sy) (fun j => elt sy i j k) (fun v => v)
               (fun j => elt (a_y_fac f) i j k)) /\
  ((2 <= ny dy)%nat ->
   face_values perY (ny dy) (fun j => elt dy i j k) (fun v => v * (1 # 2))
               (fun j => elt (del_y f) i j k)) /\
  ((2 <= nz rho)%nat ->
   face_values perZ (nz rho) (fun k => elt rho i j k) (fun v => v)
               (fun k => elt (rho_z_fac f) i j k)) /\
  ((2 <= nz sz)%nat ->
   face_values perZ (nz sz) (fun k => elt sz i j k) (fun v => v)
               (fun k => elt (a_z_fac f) i j k)) /\
  ((2 <= nz dz)%nat ->
   face_values perZ (nz dz) (fun k => elt dz i j k) (fun v => v * (1 # 2))
               (fun k => elt (del_z f) i j k)).
Proof.
  intros f. subst f. unfold faces_C.
  destruct perX, perY, perZ;
    cbn [rho_x_fac rho_y_fac rho_z_fac a_x_fac a_y_fac a_z_fac del_x del_y del_z];
    repeat (match goal with |- (_ -> _) /\ _ => split end); intros H;
    first [ apply (@padded_x_values true); pad_side
          | apply (@padded_x_values false); pad_side
          | apply (@padded_y_values true); pad_side
          | apply (@padded_y_values false); pad_side
          | apply (@padded_z_values true); pad_side
          | apply (@padded_z_values false); pad_side ].
Qed.

(** *** Sums over cells *)

Lemma sum_n_ext (n : nat) (g h : nat -> Q) :
  (forall i, (i < n)%nat -> g i == h i) -> sum_n n g == sum_n n h.
Proof.
  induction n as [|n IH]; intros H; cbn [sum_n]; [reflexivity|].
  rewrite IH by (intros; apply H; lia). rewrite (H n) by lia. reflexivity.
Qed.

Lemma sum_n_plus (n : nat) (g h : nat -> Q) :
  sum_n n (fun i => g i + h i) == sum_n n g + sum_n n h.
Proof.
  induction n as [|n IH]; cbn [sum_n]; [ring|]. rewrite IH. ring.
Qed.

Lemma sum_n_zero (n : nat) : sum_n n (fun _ => 0) == 0.
Proof. induction n as [|n IH]; cbn [sum_n]; [reflexivity|]. rewrite IH. ring. Qed.

Lemma sum_n_swap (n m : nat) (g : nat -> nat -> Q) :
  sum_n n (fun i => sum_n m (fun j => g i j)) ==
  sum_n m (fun j => sum_n n (fun i => g i j)).
Proof.
  induction n as [|n IH]; cbn [sum_n].
  - symmetry. apply sum_n_zero.
  - rewrite IH. rewrite <- sum_n_plus. reflexivity.
Qed.

Lemma sum_n_telescope (n : nat) (g : nat -> Q) :
  sum_n n (fun i => g (S i) - g i) == g n - g 0%nat.
Proof.
  induction n as [|n IH]; cbn [sum_n]; [ring|]. rewrite IH. ring.
Qed.

(** the sum over a box of a difference along x, y or z *)
Lemma total_dif_x (a : array) (n1 n2 n3 : nat) :
  total (dif_x a) n1 n2 n3 ==
  sum_n n2 (fun j => sum_n n3 (fun k => elt a n1 j k - elt a 0 j k)).
Proof.
  unfold total. cbn [dif_x elt].
  rewrite sum_n_swap. apply sum_n_ext. intros j _.
  rewrite sum_n_swap. apply sum_n_ext. intros k _.
  apply (sum_n_telescope n1 (fun i => elt a i j k)).
Qed.

Lemma total_dif_y (a : array) (n1 n2 n3 : nat) :
  total (dif_y a) n1 n2 n3 ==
  sum_n n1 (fun i => sum_n n3 (fun k => elt a i n2 k - elt a i 0 k)).
Proof.
  unfold total. cbn [dif_y elt].
  apply sum_n_ext. intros i _.
  rewrite sum_n_swap. apply sum_n_ext. intros k _.
  apply (sum_n_telescope n2 (fun j => elt a i j k)).
Qed.

Lemma total_dif_z (a : array) (n1 n2 n3 : nat) :
  total (dif_z a) n1 n2 n3 ==
  sum_n n1 (fun i => sum_n n2 (fun j => elt a i j n3 - elt a i j 0)).
Proof.
  unfold total. cbn [dif_z elt].
  apply sum_n_ext. intros i _. apply sum_n_ext. intros j _.
  apply (sum_n_telescope n3 (fun k => elt a i j k)).
Qed.

Lemma total_plus (a b : array) (n1 n2 n3 : nat) :
  total (a [+] b) n1 n2 n3 == total a n1 n2 n3 + total b n1 n2 n3.
Proof.
  unfold total. cbn [amap2 elt].
  rewrite <- sum_n_plus. apply sum_n_ext. intros i _.
  rewrite <- sum_n_plus. apply sum_n_ext. intros j _.
  apply sum_n_plus.
Qed.

(** X10: the result without a matrix is in flux form: summed over any
    box of cells that starts at the first cell, the fluxes through the
    faces inside the box cancel, and what is left is the limited flux
    through the far faces of the box less the flux through its near
    faces, along the three axes. *)
Theorem result_sums_to_the_boundary_fluxes rho phi uvwf dxyz dt limiter f
        (n1 n2 n3 : nat) :
  In limiter limiters ->
  faces_of rho phi uvwf dxyz = Some f ->
  exists a psi_x psi_y psi_z,
    result (advection rho phi uvwf dxyz dt limiter None) = Ok a /\
    limit limiter (r_x f (d_x (pos phi) (per_X phi) (exchange phi))) = Some psi_x /\
    limit limiter (r_y f (d_y (pos phi) (per_Y phi) (exchange phi))) = Some psi_y /\
    limit limiter (r_z f (d_z (pos phi) (per_Z phi) (exchange phi))) = Some psi_z /\
    let Fx := flux_fac_lim_x (exchange phi) f dt
                             (d_x (pos phi) (per_X phi) (exchange phi)) psi_x in
    let Fy := flux_fac_lim_y (exchange phi) f dt
                             (d_y (pos phi) (per_Y phi) (exchange phi)) psi_y in
    let Fz := flux_fac_lim_z (exchange phi) f dt
                             (d_z (pos phi) (per_Z phi) (exchange phi)) psi_z in
    total a n1 n2 n3 ==
      sum_n n2 (fun j => sum_n n3 (fun k => elt Fx n1 j k - elt Fx 0 j k))
      + sum_n n1 (fun i => sum_n n3 (fun k => elt Fy i n2 k - elt Fy i 0 k))
      + sum_n n1 (fun i => sum_n n2 (fun j => elt Fz i j n3 - elt Fz i j 0)).
Proof.
  intros Hl Hf.
  destruct (@limited_some _ limiter phi f dt Hl) as [cl Hcl].
  rewrite (@advection_ok _ _ _ _ _ _ _ None _ _ Hf Hcl).
  unfold limited in Hcl.
  destruct (limit limiter (r_x f _)) as [psi_x|]; [|discriminate].
  destruct (limit limiter (r_y f _)) as [psi_y|]; [|discriminate].
  destruct (limit limiter (r_z f _)) as [psi_z|]; [|discriminate].
  injection Hcl as <-.
  exists (c_lim (exchange phi) f dt (d_x (pos phi) (per_X phi) (exchange phi))
                (d_y (pos phi) (per_Y phi) (exchange phi))
                (d_z (pos phi) (per_Z phi) (exchange phi)) (psi_x, psi_y, psi_z)),
    psi_x, psi_y, psi_z.
  do 4 (split; [reflexivity|]). intros Fx Fy Fz.
  unfold c_lim. fold Fx Fy Fz.
  rewrite !total_plus, total_dif_x, total_dif_y, total_dif_z. reflexivity.
Qed.

(** *** Differences at the boundary of a non-periodic axis *)

Lemma boundary_differences_x p phi (j k : nat) :
  0 < TINY -> conformable phi ->
  let d := d_x p false phi in
  elt d 0 j k == - TINY /\
  elt d (nx (val phi) + 2) j k == - TINY /\
  elt (r_x_we d) 0 j k == - elt d 1 j k / TINY /\
  elt (r_x_ew d) (nx (val phi)) j k == - TINY / elt d (nx (val phi) + 1) j k.
Proof.
  intros HT Cf d.
  pose proof (@d_x_extent _ p false phi Cf) as Hn.
  assert (Hn' : nx d = (nx (val phi) + 3)%nat) by (apply Hn; discriminate).
  destruct Cf as (CW & CE & CS & CN & CB & CT).
  injection CW as L1 L2 L3. injection CE as M1 M2 M3.
  assert (D0 : elt d 0 j k == - TINY).
  { subst d. unfold d_x, d_x_raw. cbn [negb amap elt dif_x].
    apply clamp_zero; [exact HT|].
    rewrite (@cat_x_cons_ge (bnd_W phi)) by lia.
    rewrite !cat_x_cons_lt by lia.
    match goal with
    | |- elt ?b ?x ?y ?z - _ == 0 => replace (elt b x y z) with (elt b 0 j k) by (f_equal; lia)
    end. ring. }
  assert (Dn : elt d (nx (val phi) + 2) j k == - TINY).
  { subst d. unfold d_x, d_x_raw. cbn [negb amap elt dif_x].
    apply clamp_zero; [exact HT|].
    repeat (rewrite cat_x_cons_ge by lia).
    rewrite !cat_x_cons_lt by lia.
    rewrite (@cat_x_cons_ge (bnd_W phi)) by lia.
    rewrite (@cat_x_cons_ge (bnd_W phi)) by lia.
    rewrite (@cat_x_cons_ge (val phi)) by lia.
    rewrite (@cat_x_cons_lt (bnd_E phi)) by lia.
    match goal with
    | |- elt ?b ?x ?y ?z - elt ?b ?x' ?y' ?z' == 0 =>
        replace (elt b x y z) with (elt b x' y' z') by (f_equal; lia)
    end. ring. }
  split; [exact D0|]. split; [exact Dn|]. split.
  - unfold r_x_we. entry. fold d. rewrite Hn'.
    rewrite slice_lo_0, slice_lo_1 by lia. cbn [Nat.add].
    rewrite D0. field. lra.
  - unfold r_x_ew. entry. fold d. rewrite Hn'.
    rewrite slice_lo_1, slice_lo_2 by lia.
    replace (elt d (2 + nx (val phi)) j k) with (elt d (nx (val phi) + 2) j k) by (f_equal; lia).
    replace (elt d (1 + nx (val phi)) j k) with (elt d (nx (val phi) + 1) j k) by (f_equal; lia).
    rewrite Dn. reflexivity.
Qed.

Lemma boundary_differences_y p phi (i k : nat) :
  0 < TINY -> conformable phi ->
  let d := d_y p false phi in
  elt d i 0 k == - TINY /\
  elt d i (ny (val phi) + 2) k == - TINY /\
  elt (r_y_sn d) i 0 k == - elt d i 1 k / TINY /\
  elt (r_y_ns d) i (ny (val phi)) k == - TINY / elt d i (ny (val phi) + 1) k.
Proof.
  intros HT Cf d.
  pose proof (@d_y_extent _ p false phi Cf) as Hn.
  assert (Hn' : ny d = (ny (val phi) + 3)%nat) by (apply Hn; discriminate).
  destruct Cf as (CW & CE & CS & CN & CB & CT).
  injection CS as L1 L2 L3. injection CN as M1 M2 M3.
  assert (D0 : elt d i 0 k == - TINY).
  { subst d. unfold d_y, d_y_raw. cbn [negb amap elt dif_y].
    apply clamp_zero; [exact HT|].
    rewrite (@cat_y_cons_ge (bnd_S phi)) by lia.
    rewrite !cat_y_cons_lt by lia.
    match goal with
    | |- elt ?b ?x ?y ?z - _ == 0 => replace (elt b x y z) with (elt b i 0 k) by (f_equal; lia)
    end. ring. }
  assert (Dn : elt d i (ny (val phi) + 2) k == - TINY).
  { subst d. unfold d_y, d_y_raw. cbn [negb amap elt dif_y].
    apply clamp_zero; [exact HT|].
    repeat (rewrite cat_y_cons_ge by lia).
    rewrite !cat_y_cons_lt by lia.
    rewrite (@cat_y_cons_ge (bnd_S phi)) by lia.
    rewrite (@cat_y_cons_ge (bnd_S phi)) by lia.
    rewrite (@cat_y_cons_ge (val phi)) by lia.
    rewrite (@cat_y_cons_lt (bnd_N phi)) by lia.
    match goal with
    | |- elt ?b ?x ?y ?z - elt ?b ?x' ?y' ?z' == 0 =>
        replace (elt b x y z) with (elt b x' y' z') by (f_equal; lia)
    end. ring. }
  split; [exact D0|]. split; [exact Dn|]. split.
  - unfold r_y_sn. entry. fold d. rewrite Hn'.
    rewrite slice_lo_0, slice_lo_1 by lia. cbn [Nat.add].
    rewrite D0. field. lra.
  - unfold r_y_ns. entry. fold d. rewrite Hn'.
    rewrite slice_lo_1, slice_lo_2 by lia.
    replace (elt d i (2 + ny (val phi)) k) with (elt d i (ny (val phi) + 2) k) by (f_equal; lia).
    replace (elt d i (1 + ny (val phi)) k) with (elt d i (ny (val phi) + 1) k) by (f_equal; lia).
    rewrite Dn. reflexivity.
Qed.

Lemma boundary_differences_z p phi (i j : nat) :
  0 < TINY -> conformable phi ->
  let d := d_z p false phi in
  elt d i j 0 == - TINY /\
  elt d i j (nz (val phi) + 2) == - TINY /\
  elt (r_z_bt d) i j 0 == - elt d i j 1 / TINY /\
  elt (r_z_tb d) i j (nz (val phi)) == - TINY / elt d i j (nz (val phi) + 1).
Proof.
  intros HT Cf d.
  pose proof (@d_z_extent _ p false phi Cf) as Hn.
  assert (Hn' : nz d = (nz (val phi) + 3)%nat) by (apply Hn; discriminate).
  destruct Cf as (CW & CE & CS & CN & CB & CT).
  injection CB as L1 L2 L3. injection CT as M1 M2 M3.
  assert (D0 : elt d i j 0 == - TINY).
  { subst d. unfold d_z, d_z_raw. cbn [negb amap elt dif_z].
    apply clamp_zero; [exact HT|].
    rewrite (@cat_z_cons_ge (bnd_B phi)) by lia.
    rewrite !cat_z_cons_lt by lia.
    match goal with
    | |- elt ?b ?x ?y ?z - _ == 0 => replace (elt b x y z) with (elt b i j 0) by (f_equal; lia)
    end. ring. }
  assert (Dn : elt d i j (nz (val phi) + 2) == - TINY).
  { subst d. unfold d_z, d_z_raw. cbn [negb amap elt dif_z].
    apply clamp_zero; [exact HT|].
    repeat (rewrite cat_z_cons_ge by lia).
    rewrite !cat_z_cons_lt by lia.
    rewrite (@cat_z_cons_ge (bnd_B phi)) by lia.
    rewrite (@cat_z_cons_ge (bnd_B phi)) by lia.
    rewrite (@cat_z_cons_ge (val phi)) by lia.
    rewrite (@cat_z_cons_lt (bnd_T phi)) by lia.
    match goal with
    | |- elt ?b ?x ?y ?z - elt ?b ?x' ?y' ?z' == 0 =>
        replace (elt b x y z) with (elt b x' y' z') by (f_equal; lia)
    end. ring. }
  split; [exact D0|]. split; [exact Dn|]. split.
  - unfold r_z_bt. entry. fold d. rewrite Hn'.
    rewrite slice_lo_0, slice_lo_1 by lia. cbn [Nat.add].
    rewrite D0. field. lra.
  - unfold r_z_tb. entry. fold d. rewrite Hn'.
    rewrite slice_lo_1, slice_lo_2 by lia.
    replace (elt d i j (2 + nz (val phi))) with (elt d i j (nz (val phi) + 2)) by (f_equal; lia).
    replace (elt d i j (1 + nz (val phi))) with (elt d i j (nz (val phi) + 1)) by (f_equal; lia).
    rewrite Dn. reflexivity.
Qed.

(** X11: on an axis that is not periodic the boundary value is entered
    twice, so with a positive [TINY] the first and the last clamped
    difference are [-TINY] whatever the field; hence the ratio for
    positive flow at the first face is the first inner difference divided
    by [-TINY], and the ratio for negative flow at the last face is
    [-TINY] divided by the last inner difference. *)
Theorem outer_differences_are_the_threshold (p : Z) (phi : Unknown) (i j k : nat) :
  0 < TINY ->
  conformable phi ->
  (let d := d_x p false phi in
   elt d 0 j k == - TINY /\
   elt d (nx (val phi) + 2) j k == - TINY /\
   elt (r_x_we d) 0 j k == - elt d 1 j k / TINY /\
   elt (r_x_ew d) (nx (val phi)) j k == - TINY / elt d (nx (val phi) + 1) j k) /\
  (let d := d_y p false phi in
   elt d i 0 k == - TINY /\
   elt d i (ny (val phi) + 2) k == - TINY /\
   elt (r_y_sn d) i 0 k == - elt d i 1 k / TINY /\
   elt (r_y_ns d) i (ny (val phi)) k == - TINY / elt d i (ny (val phi) + 1) k) /\
  (let d := d_z p false phi in
   elt d i j 0 == - TINY /\
   elt d i j (nz (val phi) + 2) == - TINY /\
   elt (r_z_bt d) i j 0 == - elt d i j 1 / TINY /\
   elt (r_z_tb d) i j (nz (val phi)) == - TINY / elt d i j (nz (val phi) + 1)).
Proof.
  intros HT Cf. split; [|split].
  - apply boundary_differences_x; assumption.
  - apply boundary_differences_y; assumption.
  - apply boundary_differences_z; assumption.
Qed.

(** *** Extents *)

Lemma triple_eq (a b c a' b' c' : nat) :
  a = a' -> b = b' -> c = c' -> (a, b, c) = (a', b', c').
Proof. intros -> -> ->. reflexivity. Qed.

(** compute the extents of an array expression and compare them *)
Ltac extents :=
  unfold shape in *;
  repeat match goal with
         | H : (_, _, _) = (_, _, _) |- _ => injection H as ? ? ?
         end;
  cbn [nx ny nz amap amap2 cat_x cat_y cat_z dif_x dif_y dif_z avg_x avg_y avg_z
       slice_x slice_y slice_z slice_all assign_x assign_y assign_z assign_all
       wrap_x wrap_y wrap_z first_x last_x first_y last_y first_z last_z
       slice_lo slice_hi ge0 lnot abs] in *;
  unfold py_index in *; cbn [Z.ltb Z.compare] in *;
  try apply triple_eq; lia.

(** the extents of what the model returns: those of the values of the
    field, read off the first operand of each elementwise operation *)
Lemma extents_of_the_result rho phi uvwf dxyz dt limiter m :
  In limiter limiters ->
  In (pos phi) placements ->
  conformable (exchange phi) ->
  exists a b m',
    result (advection rho phi uvwf dxyz dt limiter None) = Ok a /\
    result (advection rho phi uvwf dxyz dt limiter (Some m)) = Ok b /\
    matrix_out (advection rho phi uvwf dxyz dt limiter (Some m)) = Some m' /\
    shape a = shape (val (exchange phi)) /\
    shape b = shape (val (exchange phi)) /\
    shape (band_C m') = shape (band_C m) /\
    shape (band_W m') = shape (band_W m) /\ shape (band_E m') = shape (band_E m) /\
    shape (band_S m') = shape (band_S m) /\ shape (band_N m') = shape (band_N m) /\
    shape (band_B m') = shape (band_B m) /\ shape (band_T m') = shape (band_T m).
Proof.
  intros Hl Hp Cf.
  destruct (@faces_of_some _ rho phi uvwf dxyz Hp) as [f Hf].
  destruct (@limited_some _ limiter phi f dt Hl) as [cl Hcl].
  rewrite (@advection_ok _ _ _ _ _ _ _ None _ _ Hf Hcl),
    (@advection_ok _ _ _ _ _ _ _ (Some m) _ _ Hf Hcl).
  do 3 eexists. do 3 (split; [reflexivity|]).
  unfold limited in Hcl.
  destruct (limit limiter (r_x f _)) as [psi_x|]; [|discriminate].
  destruct (limit limiter (r_y f _)) as [psi_y|]; [|discriminate].
  destruct (limit limiter (r_z f _)) as [psi_z|]; [|discriminate].
  injection Hcl as <-.
  destruct Cf as (CW & CE & CS & CN & CB & CT).
  split; [|split; [|repeat split]].
  - unfold c_lim, flux_fac_lim_x. extents.
  - unfold c_lim, flux_fac_lim_x. extents.
Qed.


Lemma faces_C_fields rho sx sy sz dx dy dz (perX perY perZ : bool) uf vf wf :
  let f := faces_C rho sx sy sz dx dy dz perX perY perZ uf vf wf in
  let pad_x (b1 g b2 : array) :=
      if perX then wrap_x (cat_x [b1; avg_x g; b2]) else cat_x [b1; avg_x g; b2] in
  let pad_y (b1 g b2 : array) :=
      if perY then wrap_y (cat_y [b1; avg_y g; b2]) else cat_y [b1; avg_y g; b2] in
  let pad_z (b1 g b2 : array) :=
      if perZ then wrap_z (cat_z [b1; avg_z g; b2]) else cat_z [b1; avg_z g; b2] in
  rho_x_fac f = pad_x (first_x rho) rho (last_x rho) /\
  a_x_fac f = pad_x (first_x sx) sx (last_x sx) /\
  del_x f = pad_x (first_x dx :* (1#2)) dx (last_x dx :* (1#2)) /\
  rho_y_fac f = pad_y (first_y rho) rho (last_y rho) /\
  a_y_fac f = pad_y (first_y sy) sy (last_y sy) /\
  del_y f = pad_y (first_y dy :* (1#2)) dy (last_y dy :* (1#2)) /\
  rho_z_fac f = pad_z (first_z rho) rho (last_z rho) /\
  a_z_fac f = pad_z (first_z sz) sz (last_z sz) /\
  del_z f = pad_z (first_z dz :* (1#2)) dz (last_z dz :* (1#2)) /\
  u_fac f = cat_x [bnd_W uf; val uf; bnd_E uf] /\
  v_fac f = cat_y [bnd_S vf; val vf; bnd_N vf] /\
  w_fac f = cat_z [bnd_B wf; val wf; bnd_T wf].
Proof.
  unfold faces_C. destruct perX, perY, perZ; cbn [rho_x_fac rho_y_fac rho_z_fac
    a_x_fac a_y_fac a_z_fac del_x del_y del_z u_fac v_fac w_fac]; repeat split.
Qed.

Lemma pad_x_shape (per : bool) (b1 g b2 : array) (n1 n2 n3 : nat) :
  (1 <= n1)%nat -> nx b1 = 1%nat -> ny b1 = n2 -> nz b1 = n3 ->
  nx g = n1 -> nx b2 = 1%nat ->
  shape (if per then wrap_x (cat_x [b1; avg_x g; b2]) else cat_x [b1; avg_x g; b2])
  = (S n1, n2, n3).
Proof.
  intros. destruct per; unfold shape; cbn [wrap_x assign_x cat_x avg_x nx ny nz];
    apply triple_eq; lia.
Qed.

Lemma pad_y_shape (per : bool) (b1 g b2 : array) (n1 n2 n3 : nat) :
  (1 <= n2)%nat -> ny b1 = 1%nat -> nx b1 = n1 -> nz b1 = n3 ->
  ny g = n2 -> ny b2 = 1%nat ->
  shape (if per then wrap_y (cat_y [b1; avg_y g; b2]) else cat_y [b1; avg_y g; b2])
  = (n1, S n2, n3).
Proof.
  intros. destruct per; unfold shape; cbn [wrap_y assign_y cat_y avg_y nx ny nz];
    apply triple_eq; lia.
Qed.

Lemma pad_z_shape (per : bool) (b1 g b2 : array) (n1 n2 n3 : nat) :
  (1 <= n3)%nat -> nz b1 = 1%nat -> nx b1 = n1 -> ny b1 = n2 ->
  nz g = n3 -> nz b2 = 1%nat ->
  shape (if per then wrap_z (cat_z [b1; avg_z g; b2]) else cat_z [b1; avg_z g; b2])
  = (n1, n2, S n3).
Proof.
  intros. destruct per; unfold shape; cbn [wrap_z assign_z cat_z avg_z nx ny nz];
    apply triple_eq; lia.
Qed.

Lemma first_last_extents (a : array) :
  ((1 <= nx a)%nat -> nx (first_x a) = 1%nat /\ nx (last_x a) = 1%nat) /\
  ((1 <= ny a)%nat -> ny (first_y a) = 1%nat /\ ny (last_y a) = 1%nat) /\
  ((1 <= nz a)%nat -> nz (first_z a) = 1%nat /\ nz (last_z a) = 1%nat).
Proof.
  unfold first_x, last_x, first_y, last_y, first_z, last_z.
  cbn [slice_x slice_y slice_z nx ny nz slice_lo slice_hi]. unfold py_index.
  cbn [Z.ltb Z.compare]. repeat split; lia.
Qed.

Lemma d_x_shape p per phi :
  conformable phi ->
  (per = true -> (3 <= nx (val phi))%nat) ->
  nx (d_x p per phi) = (nx (val phi) + 3)%nat /\
  ny (d_x p per phi) = ny (val phi) /\
  nz (d_x p per phi) = nz (val phi).
Proof.
  intros Cf Hper.
  pose proof (@d_x_extent _ p per phi Cf Hper) as Hn.
  destruct Cf as (CW & CE & CS & CN & CB & CT).
  injection CW as L1 L2 L3.
  repeat split; try exact Hn;
    unfold d_x, d_x_raw; destruct per; cbn [negb];
    try destruct (p =? pos_X)%Z;
    cbn [amap dif_x cat_x slice_x nx ny nz]; lia.
Qed.

Lemma difference_slices_x (d : array) (n : nat) :
  nx d = (n + 3)%nat ->
  nx (slice_x (Some 0%Z) (Some (-2)%Z) d) = S n /\
  nx (slice_x (Some 1%Z) (Some (-1)%Z) d) = S n /\
  nx (slice_x (Some 2%Z) None d) = S n.
Proof.
  intros H. cbn [slice_x nx ny nz slice_lo slice_hi]. rewrite H.
  unfold py_index. cbn [Z.ltb Z.compare]. repeat split; lia.
Qed.

Lemma cat2_x_shape (a b : array) (m1 m2 m3 : nat) :
  (nx a + nx b)%nat = m1 -> ny a = m2 -> nz a = m3 ->
  shape (cat_x [a; b]) = (m1, m2, m3).
Proof.
  intros H1 H2 H3. unfold shape. cbn [cat_x nx ny nz].
  apply triple_eq; lia.
Qed.

Lemma cat3_x_shape (a b c : array) (m1 m2 m3 : nat) :
  (nx a + nx b + nx c)%nat = m1 -> ny a = m2 -> nz a = m3 ->
  shape (cat_x [a; b; c]) = (m1, m2, m3).
Proof.
  intros H1 H2 H3. unfold shape. cbn [cat_x nx ny nz].
  apply triple_eq; lia.
Qed.

Lemma slice_x_shape (lo hi : option Z) (d : array) (m1 m2 m3 : nat) :
  nx (slice_x lo hi d) = m1 -> ny d = m2 -> nz d = m3 ->
  shape (slice_x lo hi d) = (m1, m2, m3).
Proof.
  intros H1 H2 H3. unfold shape. apply triple_eq;
    first [exact H1 | exact H2 | exact H3].
Qed.

Lemma inner_slices_x (a : array) (n : nat) :
  nx a = S n ->
  nx (slice_x None (Some (-1)%Z) a) = n /\
  nx (slice_x (Some 1%Z) None a) = n.
Proof.
  intros H. cbn [slice_x nx ny nz slice_lo slice_hi]. rewrite H.
  unfold py_index. cbn [Z.ltb Z.compare]. split; lia.
Qed.

Lemma operands_x_conform (rho g s1 s2 : array) (phi vel : Unknown) (f : faces)
      (p : Z) (per : bool) (n1 n2 n3 : nat) :
  (1 <= n1)%nat -> (1 <= n2)%nat -> (1 <= n3)%nat ->
  shape rho = (n1, n2, n3) -> shape g = (n1, n2, n3) ->
  shape s1 = (n1, n2, n3) ->
  shape (val phi) = (n1, n2, n3) -> conformable phi ->
  shape (val vel) = ((n1 - 1)%nat, n2, n3) ->
  shape (bnd_W vel) = (1%nat, n2, n3) -> shape (bnd_E vel) = (1%nat, n2, n3) ->
  (per = true -> (3 <= n1)%nat) ->
  rho_x_fac f = (if per then wrap_x (cat_x [first_x rho; avg_x rho; last_x rho])
                 else cat_x [first_x rho; avg_x rho; last_x rho]) ->
  a_x_fac f = (if per then wrap_x (cat_x [first_x (s1 [*] s2); avg_x (s1 [*] s2);
                                          last_x (s1 [*] s2)])
               else cat_x [first_x (s1 [*] s2); avg_x (s1 [*] s2); last_x (s1 [*] s2)]) ->
  del_x f = (if per then wrap_x (cat_x [first_x g :* (1#2); avg_x g; last_x g :* (1#2)])
             else cat_x [first_x g :* (1#2); avg_x g; last_x g :* (1#2)]) ->
  u_fac f = cat_x [bnd_W vel; val vel; bnd_E vel] ->
  Forall (fun a => shape a = (S n1, n2, n3)) (operands_x phi f (d_x p per phi)) /\
  shape (slice_x None (Some (-1)%Z) (mflow_we f)) = (n1, n2, n3) /\
  shape (slice_x (Some 1%Z) None (mflow_ew f)) = (n1, n2, n3).
Proof.
  intros P1 P2 P3 Sr Sg Ss Sv Cf Vv Vl Vh Hper Fr Fa Fd Fv.
  unfold shape in Sr, Sg, Ss, Sv, Vv, Vl, Vh.
  injection Sr as R1 R2 R3. injection Sg as G1 G2 G3. injection Ss as S1 S2 S3.
  injection Sv as V1 V2 V3. injection Vv as U1 U2 U3.
  injection Vl as A1 A2 A3. injection Vh as B1 B2 B3.
  assert (Hper' : per = true -> (3 <= nx (val phi))%nat).
  { intros E. specialize (Hper E). rewrite V1. exact Hper. }
  destruct (@d_x_shape p per phi Cf Hper') as (Q1 & Q2 & Q3).
  rewrite V1 in Q1. rewrite V2 in Q2. rewrite V3 in Q3.
  destruct (@difference_slices_x (d_x p per phi) n1 Q1) as (D1 & D2 & D3).
  destruct (first_last_extents rho) as (Rx & Ry & Rz).
  destruct (first_last_extents (s1 [*] s2)) as (Ax & Ay & Az).
  destruct (first_last_extents g) as (Gx & Gy & Gz).
  assert (Px : (1 <= nx rho)%nat) by (rewrite R1; exact P1).
  assert (PAx : (1 <= nx (s1 [*] s2))%nat)
    by (cbn [amap2 nx ny nz]; rewrite S1; exact P1).
  assert (PGx : (1 <= nx g)%nat) by (rewrite G1; exact P1).
  destruct (Rx Px) as (Rf & Rl).
  destruct (Ax PAx) as (Af & Al).
  destruct (Gx PGx) as (Gf & Gl).
  clear Rx Ry Rz Ax Ay Az Gx Gy Gz.
  destruct Cf as (CW & CE & CS & CN & CB & CT).
  unfold shape in CW, CE.
  injection CW as L1 L2 L3. injection CE as M1 M2 M3.
  assert (Sf_r : shape (rho_x_fac f) = (S n1, n2, n3)).
  { rewrite Fr. apply pad_x_shape;
      first [exact P1 | exact Rf | exact Rl | exact R1
            | cbn [first_x slice_x nx ny nz]; assumption]. }
  assert (Sf_a : shape (a_x_fac f) = (S n1, n2, n3)).
  { rewrite Fa. apply pad_x_shape;
      first [exact P1 | exact Af | exact Al
            | cbn [first_x slice_x amap2 nx ny nz]; assumption]. }
  assert (Sf_d : shape (del_x f) = (S n1, n2, n3)).
  { rewrite Fd. apply pad_x_shape;
      first [exact P1 | exact G1
            | cbn [amap nx ny nz]; first [exact Gf | exact Gl]
            | cbn [first_x slice_x amap nx ny nz]; assumption]. }
  assert (Sf_v : shape (u_fac f) = (S n1, n2, n3)).
  { rewrite Fv. apply cat3_x_shape; [lia | assumption | assumption]. }
  split; [|split].
  - unfold operands_x.
    repeat (apply Forall_cons; [|]); [| | | | | | | | | apply Forall_nil].
    + apply cat2_x_shape; lia.
    + apply cat2_x_shape; lia.
    + exact Sf_v.
    + exact Sf_d.
    + exact Sf_r.
    + exact Sf_a.
    + apply slice_x_shape; [exact D1 | assumption | assumption].
    + apply slice_x_shape; [exact D2 | assumption | assumption].
    + apply slice_x_shape; [exact D3 | assumption | assumption].
  - unfold shape in Sf_v. injection Sf_v as W1 W2 W3.
    assert (W : nx (mflow_we f) = S n1) by (unfold mflow_we; cbn [amap2 nx ny nz]; assumption).
    destruct (@inner_slices_x (mflow_we f) n1 W) as (I1 & _).
    apply slice_x_shape; [exact I1 | unfold mflow_we; cbn [amap2 nx ny nz]; assumption
                                      | unfold mflow_we; cbn [amap2 nx ny nz]; assumption].
  - unfold shape in Sf_v. injection Sf_v as W1 W2 W3.
    assert (W : nx (mflow_ew f) = S n1) by (unfold mflow_ew; cbn [amap2 nx ny nz]; assumption).
    destruct (@inner_slices_x (mflow_ew f) n1 W) as (_ & I2).
    apply slice_x_shape; [exact I2 | unfold mflow_ew; cbn [amap2 nx ny nz]; assumption
                                      | unfold mflow_ew; cbn [amap2 nx ny nz]; assumption].
Qed.

Lemma d_y_shape p per phi :
  conformable phi ->
  (per = true -> (3 <= ny (val phi))%nat) ->
  nx (d_y p per phi) = nx (val phi) /\
  ny (d_y p per phi) = (ny (val phi) + 3)%nat /\
  nz (d_y p per phi) = nz (val phi).
Proof.
  intros Cf Hper.
  pose proof (@d_y_extent _ p per phi Cf Hper) as Hn.
  destruct Cf as (CW & CE & CS & CN & CB & CT).
  injection CS as L1 L2 L3.
  repeat split; try exact Hn;
    unfold d_y, d_y_raw; destruct per; cbn [negb];
    try destruct (p =? pos_Y)%Z;
    cbn [amap dif_y cat_y slice_y nx ny nz]; lia.
Qed.

Lemma difference_slices_y (d : array) (n : nat) :
  ny d = (n + 3)%nat ->
  ny (slice_y (Some 0%Z) (Some (-2)%Z) d) = S n /\
  ny (slice_y (Some 1%Z) (Some (-1)%Z) d) = S n /\
  ny (slice_y (Some 2%Z) None d) = S n.
Proof.
  intros H. cbn [slice_y nx ny nz slice_lo slice_hi]. rewrite H.
  unfold py_index. cbn [Z.ltb Z.compare]. repeat split; lia.
Qed.

Lemma cat2_y_shape (a b : array) (m1 m2 m3 : nat) :
  (ny a + ny b)%nat = m2 -> nx a = m1 -> nz a = m3 ->
  shape (cat_y [a; b]) = (m1, m2, m3).
Proof.
  intros H1 H2 H3. unfold shape. cbn [cat_y nx ny nz].
  apply triple_eq; lia.
Qed.

Lemma cat3_y_shape (a b c : array) (m1 m2 m3 : nat) :
  (ny a + ny b + ny c)%nat = m2 -> nx a = m1 -> nz a = m3 ->
  shape (cat_y [a; b; c]) = (m1, m2, m3).
Proof.
  intros H1 H2 H3. unfold shape. cbn [cat_y nx ny nz].
  apply triple_eq; lia.
Qed.

Lemma slice_y_shape (lo hi : option Z) (d : array) (m1 m2 m3 : nat) :
  ny (slice_y lo hi d) = m2 -> nx d = m1 -> nz d = m3 ->
  shape (slice_y lo hi d) = (m1, m2, m3).
Proof.
  intros H1 H2 H3. unfold shape. apply triple_eq;
    first [exact H1 | exact H2 | exact H3].
Qed.

Lemma inner_slices_y (a : array) (n : nat) :
  ny a = S n ->
  ny (slice_y None (Some (-1)%Z) a) = n /\
  ny (slice_y (Some 1%Z) None a) = n.
Proof.
  intros H. cbn [slice_y nx ny nz slice_lo slice_hi]. rewrite H.
  unfold py_index. cbn [Z.ltb Z.compare]. split; lia.
Qed.

Lemma operands_y_conform (rho g s1 s2 : array) (phi vel : Unknown) (f : faces)
      (p : Z) (per : bool) (n1 n2 n3 : nat) :
  (1 <= n1)%nat -> (1 <= n2)%nat -> (1 <= n3)%nat ->
  shape rho = (n1, n2, n3) -> shape g = (n1, n2, n3) ->
  shape s1 = (n1, n2, n3) ->
  shape (val phi) = (n1, n2, n3) -> conformable phi ->
  shape (val vel) = (n1, (n2 - 1)%nat, n3) ->
  shape (bnd_S vel) = (n1, 1%nat, n3) -> shape (bnd_N vel) = (n1, 1%nat, n3) ->
  (per = true -> (3 <= n2)%nat) ->
  rho_y_fac f = (if per then wrap_y (cat_y [first_y rho; avg_y rho; last_y rho])
                 else cat_y [first_y rho; avg_y rho; last_y rho]) ->
  a_y_fac f = (if per then wrap_y (cat_y [first_y (s1 [*] s2); avg_y (s1 [*] s2);
                                          last_y (s1 [*] s2)])
               else cat_y [first_y (s1 [*] s2); avg_y (s1 [*] s2); last_y (s1 [*] s2)]) ->
  del_y f = (if per then wrap_y (cat_y [first_y g :* (1#2); avg_y g; last_y g :* (1#2)])
             else cat_y [first_y g :* (1#2); avg_y g; last_y g :* (1#2)]) ->
  v_fac f = cat_y [bnd_S vel; val vel; bnd_N vel] ->
  Forall (fun a => shape a = (n1, S n2, n3)) (operands_y phi f (d_y p per phi)) /\
  shape (slice_y None (Some (-1)%Z) (mflow_sn f)) = (n1, n2, n3) /\
  shape (slice_y (Some 1%Z) None (mflow_ns f)) = (n1, n2, n3).
Proof.
  intros P1 P2 P3 Sr Sg Ss Sv Cf Vv Vl Vh Hper Fr Fa Fd Fv.
  unfold shape in Sr, Sg, Ss, Sv, Vv, Vl, Vh.
  injection Sr as R1 R2 R3. injection Sg as G1 G2 G3. injection Ss as S1 S2 S3.
  injection Sv as V1 V2 V3. injection Vv as U1 U2 U3.
  injection Vl as A1 A2 A3. injection Vh as B1 B2 B3.
  assert (Hper' : per = true -> (3 <= ny (val phi))%nat).
  { intros E. specialize (Hper E). rewrite V2. exact Hper. }
  destruct (@d_y_shape p per phi Cf Hper') as (Q1 & Q2 & Q3).
  rewrite V1 in Q1. rewrite V2 in Q2. rewrite V3 in Q3.
  destruct (@difference_slices_y (d_y p per phi) n2 Q2) as (D1 & D2 & D3).
  destruct (first_last_extents rho) as (Rx & Ry & Rz).
  destruct (first_last_extents (s1 [*] s2)) as (Ax & Ay & Az).
  destruct (first_last_extents g) as (Gx & Gy & Gz).
  assert (Py : (1 <= ny rho)%nat) by (rewrite R2; exact P2).
  assert (PAy : (1 <= ny (s1 [*] s2))%nat)
    by (cbn [amap2 nx ny nz]; rewrite S2; exact P2).
  assert (PGy : (1 <= ny g)%nat) by (rewrite G2; exact P2).
  destruct (Ry Py) as (Rf & Rl).
  destruct (Ay PAy) as (Af & Al).
  destruct (Gy PGy) as (Gf & Gl).
  clear Rx Ry Rz Ax Ay Az Gx Gy Gz.
  destruct Cf as (CW & CE & CS & CN & CB & CT).
  unfold shape in CS, CN.
  injection CS as L1 L2 L3. injection CN as M1 M2 M3.
  assert (Sf_r : shape (rho_y_fac f) = (n1, S n2, n3)).
  { rewrite Fr. apply pad_y_shape;
      first [exact P2 | exact Rf | exact Rl | exact R2
            | cbn [first_y slice_y nx ny nz]; assumption]. }
  assert (Sf_a : shape (a_y_fac f) = (n1, S n2, n3)).
  { rewrite Fa. apply pad_y_shape;
      first [exact P2 | exact Af | exact Al
            | cbn [first_y slice_y amap2 nx ny nz]; assumption]. }
  assert (Sf_d : shape (del_y f) = (n1, S n2, n3)).
  { rewrite Fd. apply pad_y_shape;
      first [exact P2 | exact G2
            | cbn [amap nx ny nz]; first [exact Gf | exact Gl]
            | cbn [first_y slice_y amap nx ny nz]; assumption]. }
  assert (Sf_v : shape (v_fac f) = (n1, S n2, n3)).
  { rewrite Fv. apply cat3_y_shape; [lia | assumption | assumption]. }
  split; [|split].
  - unfold operands_y.
    repeat (apply Forall_cons; [|]); [| | | | | | | | | apply Forall_nil].
    + apply cat2_y_shape; lia.
    + apply cat2_y_shape; lia.
    + exact Sf_v.
    + exact Sf_d.
    + exact Sf_r.
    + exact Sf_a.
    + apply slice_y_shape; [exact D1 | assumption | assumption].
    + apply slice_y_shape; [exact D2 | assumption | assumption].
    + apply slice_y_shape; [exact D3 | assumption | assumption].
  - unfold shape in Sf_v. injection Sf_v as W1 W2 W3.
    assert (W : ny (mflow_sn f) = S n2) by (unfold mflow_sn; cbn [amap2 nx ny nz]; assumption).
    destruct (@inner_slices_y (mflow_sn f) n2 W) as (I1 & _).
    apply slice_y_shape; [exact I1 | unfold mflow_sn; cbn [amap2 nx ny nz]; assumption
                                      | unfold mflow_sn; cbn [amap2 nx ny nz]; assumption].
  - unfold shape in Sf_v. injection Sf_v as W1 W2 W3.
    assert (W : ny (mflow_ns f) = S n2) by (unfold mflow_ns; cbn [amap2 nx ny nz]; assumption).
    destruct (@inner_slices_y (mflow_ns f) n2 W) as (_ & I2).
    apply slice_y_shape; [exact I2 | unfold mflow_ns; cbn [amap2 nx ny nz]; assumption
                                      | unfold mflow_ns; cbn [amap2 nx ny nz]; assumption].
Qed.

Lemma d_z_shape p per phi :
  conformable phi ->
  (per = true -> (3 <= nz (val phi))%nat) ->
  nx (d_z p per phi) = nx (val phi) /\
  ny (d_z p per phi) = ny (val phi) /\
  nz (d_z p per phi) = (nz (val phi) + 3)%nat.
Proof.
  intros Cf Hper.
  pose proof (@d_z_extent _ p per phi Cf Hper) as Hn.
  destruct Cf as (CW & CE & CS & CN & CB & CT).
  injection CB as L1 L2 L3.
  repeat split; try exact Hn;
    unfold d_z, d_z_raw; destruct per; cbn [negb];
    try destruct (p =? pos_Z)%Z;
    cbn [amap dif_z cat_z slice_z nx ny nz]; lia.
Qed.

Lemma difference_slices_z (d : array) (n : nat) :
  nz d = (n + 3)%nat ->
  nz (slice_z (Some 0%Z) (Some (-2)%Z) d) = S n /\
  nz (slice_z (Some 1%Z) (Some (-1)%Z) d) = S n /\
  nz (slice_z (Some 2%Z) None d) = S n.
Proof.
  intros H. cbn [slice_z nx ny nz slice_lo slice_hi]. rewrite H.
  unfold py_index. cbn [Z.ltb Z.compare]. repeat split; lia.
Qed.

Lemma cat2_z_shape (a b : array) (m1 m2 m3 : nat) :
  (nz a + nz b)%nat = m3 -> nx a = m1 -> ny a = m2 ->
  shape (cat_z [a; b]) = (m1, m2, m3).
Proof.
  intros H1 H2 H3. unfold shape. cbn [cat_z nx ny nz].
  apply triple_eq; lia.
Qed.

Lemma cat3_z_shape (a b c : array) (m1 m2 m3 : nat) :
  (nz a + nz b + nz c)%nat = m3 -> nx a = m1 -> ny a = m2 ->
  shape (cat_z [a; b; c]) = (m1, m2, m3).
Proof.
  intros H1 H2 H3. unfold shape. cbn [cat_z nx ny nz].
  apply triple_eq; lia.
Qed.

Lemma slice_z_shape (lo hi : option Z) (d : array) (m1 m2 m3 : nat) :
  nz (slice_z lo hi d) = m3 -> nx d = m1 -> ny d = m2 ->
  shape (slice_z lo hi d) = (m1, m2, m3).
Proof.
  intros H1 H2 H3. unfold shape. apply triple_eq;
    first [exact H1 | exact H2 | exact H3].
Qed.

Lemma inner_slices_z (a : array) (n : nat) :
  nz a = S n ->
  nz (slice_z None (Some (-1)%Z) a) = n /\
  nz (slice_z (Some 1%Z) None a) = n.
Proof.
  intros H. cbn [slice_z nx ny nz slice_lo slice_hi]. rewrite H.
  unfold py_index. cbn [Z.ltb Z.compare]. split; lia.
Qed.

Lemma operands_z_conform (rho g s1 s2 : array) (phi vel : Unknown) (f : faces)
      (p : Z) (per : bool) (n1 n2 n3 : nat) :
  (1 <= n1)%nat -> (1 <= n2)%nat -> (1 <= n3)%nat ->
  shape rho = (n1, n2, n3) -> shape g = (n1, n2, n3) ->
  shape s1 = (n1, n2, n3) ->
  shape (val phi) = (n1, n2, n3) -> conformable phi ->
  shape (val vel) = (n1, n2, (n3 - 1)%nat) ->
  shape (bnd_B vel) = (n1, n2, 1%nat) -> shape (bnd_T vel) = (n1, n2, 1%nat) ->
  (per = true -> (3 <= n3)%nat) ->
  rho_z_fac f = (if per then wrap_z (cat_z [first_z rho; avg_z rho; last_z rho])
                 else cat_z [first_z rho; avg_z rho; last_z rho]) ->
  a_z_fac f = (if per then wrap_z (cat_z [first_z (s1 [*] s2); avg_z (s1 [*] s2);
                                          last_z (s1 [*] s2)])
               else cat_z [first_z (s1 [*] s2); avg_z (s1 [*] s2); last_z (s1 [*] s2)]) ->
  del_z f = (if per then wrap_z (cat_z [first_z g :* (1#2); avg_z g; last_z g :* (1#2)])
             else cat_z [first_z g :* (1#2); avg_z g; last_z g :* (1#2)]) ->
  w_fac f = cat_z [bnd_B vel; val vel; bnd_T vel] ->
  Forall (fun a => shape a = (n1, n2, S n3)) (operands_z phi f (d_z p per phi)) /\
  shape (slice_z None (Some (-1)%Z) (mflow_bt f)) = (n1, n2, n3) /\
  shape (slice_z (Some 1%Z) None (mflow_tb f)) = (n1, n2, n3).
Proof.
  intros P1 P2 P3 Sr Sg Ss Sv Cf Vv Vl Vh Hper Fr Fa Fd Fv.
  unfold shape in Sr, Sg, Ss, Sv, Vv, Vl, Vh.
  injection Sr as R1 R2 R3. injection Sg as G1 G2 G3. injection Ss as S1 S2 S3.
  injection Sv as V1 V2 V3. injection Vv as U1 U2 U3.
  injection Vl as A1 A2 A3. injection Vh as B1 B2 B3.
  assert (Hper' : per = true -> (3 <= nz (val phi))%nat).
  { intros E. specialize (Hper E). rewrite V3. exact Hper. }
  destruct (@d_z_shape p per phi Cf Hper') as (Q1 & Q2 & Q3).
  rewrite V1 in Q1. rewrite V2 in Q2. rewrite V3 in Q3.
  destruct (@difference_slices_z (d_z p per phi) n3 Q3) as (D1 & D2 & D3).
  destruct (first_last_extents rho) as (Rx & Ry & Rz).
  destruct (first_last_extents (s1 [*] s2)) as (Ax & Ay & Az).
  destruct (first_last_extents g) as (Gx & Gy & Gz).
  assert (Pz : (1 <= nz rho)%nat) by (rewrite R3; exact P3).
  assert (PAz : (1 <= nz (s1 [*] s2))%nat)
    by (cbn [amap2 nx ny nz]; rewrite S3; exact P3).
  assert (PGz : (1 <= nz g)%nat) by (rewrite G3; exact P3).
  destruct (Rz Pz) as (Rf & Rl).
  destruct (Az PAz) as (Af & Al).
  destruct (Gz PGz) as (Gf & Gl).
  clear Rx Ry Rz Ax Ay Az Gx Gy Gz.
  destruct Cf as (CW & CE & CS & CN & CB & CT).
  unfold shape in CB, CT.
  injection CB as L1 L2 L3. injection CT as M1 M2 M3.
  assert (Sf_r : shape (rho_z_fac f) = (n1, n2, S n3)).
  { rewrite Fr. apply pad_z_shape;
      first [exact P3 | exact Rf | exact Rl | exact R3
            | cbn [first_z slice_z nx ny nz]; assumption]. }
  assert (Sf_a : shape (a_z_fac f) = (n1, n2, S n3)).
  { rewrite Fa. apply pad_z_shape;
      first [exact P3 | exact Af | exact Al
            | cbn [first_z slice_z amap2 nx ny nz]; assumption]. }
  assert (Sf_d : shape (del_z f) = (n1, n2, S n3)).
  { rewrite Fd. apply pad_z_shape;
      first [exact P3 | exact G3
            | cbn [amap nx ny nz]; first [exact Gf | exact Gl]
            | cbn [first_z slice_z amap nx ny nz]; assumption]. }
  assert (Sf_v : shape (w_fac f) = (n1, n2, S n3)).
  { rewrite Fv. apply cat3_z_shape; [lia | assumption | assumption]. }
  split; [|split].
  - unfold operands_z.
    repeat (apply Forall_cons; [|]); [| | | | | | | | | apply Forall_nil].
    + apply cat2_z_shape; lia.
    + apply cat2_z_shape; lia.
    + exact Sf_v.
    + exact Sf_d.
    + exact Sf_r.
    + exact Sf_a.
    + apply slice_z_shape; [exact D1 | assumption | assumption].
    + apply slice_z_shape; [exact D2 | assumption | assumption].
    + apply slice_z_shape; [exact D3 | assumption | assumption].
  - unfold shape in Sf_v. injection Sf_v as W1 W2 W3.
    assert (W : nz (mflow_bt f) = S n3) by (unfold mflow_bt; cbn [amap2 nx ny nz]; assumption).
    destruct (@inner_slices_z (mflow_bt f) n3 W) as (I1 & _).
    apply slice_z_shape; [exact I1 | unfold mflow_bt; cbn [amap2 nx ny nz]; assumption
                                      | unfold mflow_bt; cbn [amap2 nx ny nz]; assumption].
  - unfold shape in Sf_v. injection Sf_v as W1 W2 W3.
    assert (W : nz (mflow_tb f) = S n3) by (unfold mflow_tb; cbn [amap2 nx ny nz]; assumption).
    destruct (@inner_slices_z (mflow_tb f) n3 W) as (_ & I2).
    apply slice_z_shape; [exact I2 | unfold mflow_tb; cbn [amap2 nx ny nz]; assumption
                                      | unfold mflow_tb; cbn [amap2 nx ny nz]; assumption].
Qed.

(** X13 (lines 61-105, 277-317, 356-397): for a cell-centred variable on
    a grid of [n1 x n2 x n3] cells, with density and cell sizes of that
    shape, conformable boundary values, face velocities of the staggered
    shapes and at least three cells along every periodic axis, all the
    arrays the flux along an axis is computed from have the face shape of
    that axis ([n1 + 1] by [n2] by [n3] along x, and likewise along y and
    z), and the six slices added to the matrix have the shape of the
    cells: the elementwise operations on them meet operands of equal
    extents. *)
Theorem cell_centred_operands_conform
        (rho dx dy dz : array) (phi uf vf wf : Unknown) (n1 n2 n3 : nat) :
  (1 <= n1)%nat -> (1 <= n2)%nat -> (1 <= n3)%nat ->
  shape rho = (n1, n2, n3) ->
  shape dx = (n1, n2, n3) -> shape dy = (n1, n2, n3) -> shape dz = (n1, n2, n3) ->
  shape (val phi) = (n1, n2, n3) -> conformable phi ->
  staggered (uf, vf, wf) n1 n2 n3 ->
  (per_X phi = true -> (3 <= n1)%nat) ->
  (per_Y phi = true -> (3 <= n2)%nat) ->
  (per_Z phi = true -> (3 <= n3)%nat) ->
  let f := faces_C rho (dy [*] dz) (dx [*] dz) (dx [*] dy) dx dy dz
                   (per_X phi) (per_Y phi) (per_Z phi) uf vf wf in
  Forall (fun a => shape a = (S n1, n2, n3))
         (operands_x phi f (d_x (pos phi) (per_X phi) phi)) /\
  Forall (fun a => shape a = (n1, S n2, n3))
         (operands_y phi f (d_y (pos phi) (per_Y phi) phi)) /\
  Forall (fun a => shape a = (n1, n2, S n3))
         (operands_z phi f (d_z (pos phi) (per_Z phi) phi)) /\
  Forall (fun a => shape a = (n1, n2, n3))
         [slice_x None (Some (-1)%Z) (mflow_we f); slice_x (Some 1%Z) None (mflow_ew f);
          slice_y None (Some (-1)%Z) (mflow_sn f); slice_y (Some 1%Z) None (mflow_ns f);
          slice_z None (Some (-1)%Z) (mflow_bt f); slice_z (Some 1%Z) None (mflow_tb f)].
Proof.
  intros P1 P2 P3 Sr Sx Sy Sz Sv Cf St HX HY HZ f.
  destruct St as ((U1 & U2 & U3) & (V1 & V2 & V3) & (W1 & W2 & W3)).
  destruct (@faces_C_fields rho (dy [*] dz) (dx [*] dz) (dx [*] dy) dx dy dz
              (per_X phi) (per_Y phi) (per_Z phi) uf vf wf)
    as (F1 & F2 & F3 & F4 & F5 & F6 & F7 & F8 & F9 & F10 & F11 & F12).
  fold f in F1, F2, F3, F4, F5, F6, F7, F8, F9, F10, F11, F12.
  destruct (@operands_x_conform rho dx dy dz phi uf f (pos phi) (per_X phi) n1 n2 n3
              P1 P2 P3 Sr Sx Sy Sv Cf U1 U2 U3 HX F1 F2 F3 F10) as (OX & MX1 & MX2).
  destruct (@operands_y_conform rho dy dx dz phi vf f (pos phi) (per_Y phi) n1 n2 n3
              P1 P2 P3 Sr Sy Sx Sv Cf V1 V2 V3 HY F4 F5 F6 F11) as (OY & MY1 & MY2).
  destruct (@operands_z_conform rho dz dx dy phi wf f (pos phi) (per_Z phi) n1 n2 n3
              P1 P2 P3 Sr Sz Sx Sv Cf W1 W2 W3 HZ F7 F8 F9 F12) as (OZ & MZ1 & MZ2).
  split; [exact OX|]. split; [exact OY|]. split; [exact OZ|].
  apply Forall_cons; [exact MX1|]. apply Forall_cons; [exact MX2|].
  apply Forall_cons; [exact MY1|]. apply Forall_cons; [exact MY2|].
  apply Forall_cons; [exact MZ1|]. apply Forall_cons; [exact MZ2|].
  apply Forall_nil.
Qed.

(** the cell-centred branch is the one taken when the tag of the field
    is [C] and none of the other three *)
Lemma faces_of_cell_centred rho phi uf vf wf dx dy dz :
  (pos phi =? pos_C)%Z = true -> (pos phi =? pos_X)%Z = false ->
  (pos phi =? pos_Y)%Z = false -> (pos phi =? pos_Z)%Z = false ->
  faces_of rho phi (uf, vf, wf) (dx, dy, dz) =
    Some (faces_C rho (dy [*] dz) (dx [*] dz) (dx [*] dy) dx dy dz
                  (per_X phi) (per_Y phi) (per_Z phi)
                  (exchange uf) (exchange vf) (exchange wf)).
Proof.
  intros HC HX HY HZ. unfold faces_of, reconstruct.
  rewrite HC, HX, HY, HZ. reflexivity.
Qed.

(** X12: for a cell-centred variable on a grid of [n1 x n2 x n3] cells,
    with density, cell sizes and the seven bands of the matrix of that
    shape, boundary arrays that fit the values, face velocities of the
    staggered shapes and at least three cells along every periodic axis,
    every array the face fluxes are computed from has the face shape of
    its axis, the six slices added to the matrix have the shape of the
    cells, and so the array returned, with a matrix or without, and the
    seven bands the call leaves have the shape of the cells. *)
Theorem result_has_the_extents_of_the_field
        (rho dx dy dz : array) (phi uf vf wf : Unknown) (dt : Q) (limiter : string)
        (m : SystemMatrix) (n1 n2 n3 : nat) :
  In limiter limiters ->
  (pos phi =? pos_C)%Z = true -> (pos phi =? pos_X)%Z = false ->
  (pos phi =? pos_Y)%Z = false -> (pos phi =? pos_Z)%Z = false ->
  (1 <= n1)%nat -> (1 <= n2)%nat -> (1 <= n3)%nat ->
  shape rho = (n1, n2, n3) ->
  shape dx = (n1, n2, n3) -> shape dy = (n1, n2, n3) -> shape dz = (n1, n2, n3) ->
  shape (val (exchange phi)) = (n1, n2, n3) -> conformable (exchange phi) ->
  staggered (exchange uf, exchange vf, exchange wf) n1 n2 n3 ->
  (per_X phi = true -> (3 <= n1)%nat) ->
  (per_Y phi = true -> (3 <= n2)%nat) ->
  (per_Z phi = true -> (3 <= n3)%nat) ->
  Forall (fun a => shape a = (n1, n2, n3))
         [band_C m; band_W m; band_E m; band_S m; band_N m; band_B m; band_T m] ->
  exists f a b m',
    faces_of rho phi (uf, vf, wf) (dx, dy, dz) = Some f /\
    Forall (fun a => shape a = (S n1, n2, n3))
           (operands_x (exchange phi) f (d_x (pos phi) (per_X phi) (exchange phi))) /\
    Forall (fun a => shape a = (n1, S n2, n3))
           (operands_y (exchange phi) f (d_y (pos phi) (per_Y phi) (exchange phi))) /\
    Forall (fun a => shape a = (n1, n2, S n3))
           (operands_z (exchange phi) f (d_z (pos phi) (per_Z phi) (exchange phi))) /\
    Forall (fun a => shape a = (n1, n2, n3))
           [slice_x None (Some (-1)%Z) (mflow_we f); slice_x (Some 1%Z) None (mflow_ew f);
            slice_y None (Some (-1)%Z) (mflow_sn f); slice_y (Some 1%Z) None (mflow_ns f);
            slice_z None (Some (-1)%Z) (mflow_bt f); slice_z (Some 1%Z) None (mflow_tb f)] /\
    result (advection rho phi (uf, vf, wf) (dx, dy, dz) dt limiter None) = Ok a /\
    result (advection rho phi (uf, vf, wf) (dx, dy, dz) dt limiter (Some m)) = Ok b /\
    matrix_out (advection rho phi (uf, vf, wf) (dx, dy, dz) dt limiter (Some m)) = Some m' /\
    shape a = (n1, n2, n3) /\ shape b = (n1, n2, n3) /\
    Forall (fun a => shape a = (n1, n2, n3))
           [band_C m'; band_W m'; band_E m'; band_S m'; band_N m'; band_B m'; band_T m'].
Proof.
  intros Hl HC HX HY HZ P1 P2 P3 Sr Sx Sy Sz Sv Cf St PX PY PZ Sm.
  pose proof (@faces_of_cell_centred rho phi uf vf wf dx dy dz HC HX HY HZ) as Hf.
  set (f := faces_C rho (dy [*] dz) (dx [*] dz) (dx [*] dy) dx dy dz
                    (per_X phi) (per_Y phi) (per_Z phi)
                    (exchange uf) (exchange vf) (exchange wf)) in *.
  assert (Hp : In (pos phi) placements) by (left; symmetry; apply Z.eqb_eq; exact HC).
  destruct (@extents_of_the_result rho phi (uf, vf, wf) (dx, dy, dz) dt limiter m Hl Hp Cf)
    as (a & b & m' & Ha & Hb & Hm & Sa & Sb & SC & SW & SE & SS & SN & SB & ST).
  destruct St as ((U1 & U2 & U3) & (V1 & V2 & V3) & (W1 & W2 & W3)).
  destruct (@faces_C_fields rho (dy [*] dz) (dx [*] dz) (dx [*] dy) dx dy dz
              (per_X phi) (per_Y phi) (per_Z phi) (exchange uf) (exchange vf) (exchange wf))
    as (F1 & F2 & F3 & F4 & F5 & F6 & F7 & F8 & F9 & F10 & F11 & F12).
  fold f in F1, F2, F3, F4, F5, F6, F7, F8, F9, F10, F11, F12.
  destruct (@operands_x_conform rho dx dy dz (exchange phi) (exchange uf) f (pos phi)
              (per_X phi) n1 n2 n3 P1 P2 P3 Sr Sx Sy Sv Cf U1 U2 U3 PX F1 F2 F3 F10)
    as (OX & MX1 & MX2).
  destruct (@operands_y_conform rho dy dx dz (exchange phi) (exchange vf) f (pos phi)
              (per_Y phi) n1 n2 n3 P1 P2 P3 Sr Sy Sx Sv Cf V1 V2 V3 PY F4 F5 F6 F11)
    as (OY & MY1 & MY2).
  destruct (@operands_z_conform rho dz dx dy (exchange phi) (exchange wf) f (pos phi)
              (per_Z phi) n1 n2 n3 P1 P2 P3 Sr Sz Sx Sv Cf W1 W2 W3 PZ F7 F8 F9 F12)
    as (OZ & MZ1 & MZ2).
  exists f, a, b, m'.
  split; [exact Hf|]. split; [exact OX|]. split; [exact OY|]. split; [exact OZ|].
  split.
  { apply Forall_cons; [exact MX1|]. apply Forall_cons; [exact MX2|].
    apply Forall_cons; [exact MY1|]. apply Forall_cons; [exact MY2|].
    apply Forall_cons; [exact MZ1|]. apply Forall_cons; [exact MZ2|].
    apply Forall_nil. }
  split; [exact Ha|]. split; [exact Hb|]. split; [exact Hm|].
  split; [rewrite Sa; exact Sv|]. split; [rewrite Sb; exact Sv|].
  pose proof (proj1 (Forall_forall _ _) Sm) as Bm.
  apply Forall_cons; [rewrite SC; apply Bm; cbn; tauto|].
  apply Forall_cons; [rewrite SW; apply Bm; cbn; tauto|].
  apply Forall_cons; [rewrite SE; apply Bm; cbn; tauto|].
  apply Forall_cons; [rewrite SS; apply Bm; cbn; tauto|].
  apply Forall_cons; [rewrite SN; apply Bm; cbn; tauto|].
  apply Forall_cons; [rewrite SB; apply Bm; cbn; tauto|].
  apply Forall_cons; [rewrite ST; apply Bm; cbn; tauto|].
  apply Forall_nil.
Qed.

(** the extents of an array expression, compared with a triple *)
Ltac shape_of :=
  unfold shape;
  cbn [wrap_x wrap_y wrap_z assign_x assign_y assign_z cat_x cat_y cat_z
       avg_x avg_y avg_z first_x last_x first_y last_y first_z last_z
       slice_x slice_y slice_z slice_all amap amap2 nx ny nz slice_lo slice_hi];
  unfold py_index; cbn [Z.ltb Z.compare];
  apply triple_eq; lia.

Lemma faces_X_shapes (rho sx sy sz dx dy dz : array) (perY perZ : bool)
      (uf vf wf : Unknown) (n1 n2 n3 : nat) :
  (2 <= n1)%nat -> (2 <= n2)%nat -> (2 <= n3)%nat ->
  shape rho = (n1, n2, n3) ->
  shape sx = (n1, n2, n3) -> shape sy = (n1, n2, n3) -> shape sz = (n1, n2, n3) ->
  shape dx = (n1, n2, n3) -> shape dy = (n1, n2, n3) -> shape dz = (n1, n2, n3) ->
  staggered (uf, vf, wf) n1 n2 n3 ->
  let f := faces_X rho sx sy sz dx dy dz perY perZ uf vf wf in
  shape (u_fac f) = (n1, n2, n3) /\
  shape (del_x f) = (n1, n2, n3) /\
  shape (rho_x_fac f) = (n1, n2, n3) /\
  shape (a_x_fac f) = (n1, n2, n3) /\
  shape (v_fac f) = ((n1 - 1)%nat, S n2, n3) /\
  shape (del_y f) = ((n1 - 1)%nat, S n2, n3) /\
  shape (rho_y_fac f) = ((n1 - 1)%nat, S n2, n3) /\
  shape (a_y_fac f) = ((n1 - 1)%nat, S n2, n3) /\
  shape (w_fac f) = ((n1 - 1)%nat, n2, S n3) /\
  shape (del_z f) = ((n1 - 1)%nat, n2, S n3) /\
  shape (rho_z_fac f) = ((n1 - 1)%nat, n2, S n3) /\
  shape (a_z_fac f) = ((n1 - 1)%nat, n2, S n3).
Proof.
  intros P1 P2 P3 Sr Sx Sy Sz Dx Dy Dz
         ((U1 & U2 & U3) & (V1 & V2 & V3) & (W1 & W2 & W3)) f.
  unfold shape in Sr, Sx, Sy, Sz, Dx, Dy, Dz, U1, U2, U3, V1, V2, V3, W1, W2, W3.
  injection Sr as ? ? ?. injection Sx as ? ? ?. injection Sy as ? ? ?.
  injection Sz as ? ? ?. injection Dx as ? ? ?. injection Dy as ? ? ?.
  injection Dz as ? ? ?.
  injection U1 as ? ? ?. injection U2 as ? ? ?. injection U3 as ? ? ?.
  injection V1 as ? ? ?. injection V2 as ? ? ?. injection V3 as ? ? ?.
  injection W1 as ? ? ?. injection W2 as ? ? ?. injection W3 as ? ? ?.
  subst f. unfold faces_X.
  destruct perY, perZ;
    cbn [rho_x_fac rho_y_fac rho_z_fac a_x_fac a_y_fac a_z_fac
         del_x del_y del_z u_fac v_fac w_fac];
    repeat (match goal with |- _ /\ _ => split end); shape_of.
Qed.

(** X14 (lines 110-153, 277-317, 356-397): for a variable staggered
    in x on a grid of [n1 x n2 x n3] cells with at least two cells along
    every axis, the field having one cell fewer along x, with density and
    cell sizes of the shape of the grid, conformable boundary values,
    face velocities of the staggered shapes and at least three values of
    the field along every periodic axis, the arrays the flux along an axis
    is computed from all have one shape, and the six slices added to the
    matrix have the shape of the field. *)
Theorem staggered_x_operands_conform
        (rho dx dy dz : array) (phi uf vf wf : Unknown) (n1 n2 n3 : nat) :
  (2 <= n1)%nat -> (2 <= n2)%nat -> (2 <= n3)%nat ->
  shape rho = (n1, n2, n3) ->
  shape dx = (n1, n2, n3) -> shape dy = (n1, n2, n3) -> shape dz = (n1, n2, n3) ->
  shape (val phi) = ((n1 - 1)%nat, n2, n3) -> conformable phi ->
  staggered (uf, vf, wf) n1 n2 n3 ->
  (per_X phi = true -> (3 <= n1 - 1)%nat) ->
  (per_Y phi = true -> (3 <= n2)%nat) ->
  (per_Z phi = true -> (3 <= n3)%nat) ->
  let f := faces_X rho (dy [*] dz) (dx [*] dz) (dx [*] dy) dx dy dz
                   (per_Y phi) (per_Z phi) uf vf wf in
  Forall (fun a => shape a = (n1, n2, n3))
         (operands_x phi f (d_x (pos phi) (per_X phi) phi)) /\
  Forall (fun a => shape a = ((n1 - 1)%nat, S n2, n3))
         (operands_y phi f (d_y (pos phi) (per_Y phi) phi)) /\
  Forall (fun a => shape a = ((n1 - 1)%nat, n2, S n3))
         (operands_z phi f (d_z (pos phi) (per_Z phi) phi)) /\
  Forall (fun a => shape a = ((n1 - 1)%nat, n2, n3))
         [slice_x None (Some (-1)%Z) (mflow_we f); slice_x (Some 1%Z) None (mflow_ew f);
          slice_y None (Some (-1)%Z) (mflow_sn f); slice_y (Some 1%Z) None (mflow_ns f);
          slice_z None (Some (-1)%Z) (mflow_bt f); slice_z (Some 1%Z) None (mflow_tb f)].
Proof.
  intros P1 P2 P3 Sr Sx Sy Sz Sv Cf St HX HY HZ f.
  assert (Sxx : shape (dy [*] dz) = (n1, n2, n3)) by exact Sy.
  assert (Syy : shape (dx [*] dz) = (n1, n2, n3)) by exact Sx.
  assert (Szz : shape (dx [*] dy) = (n1, n2, n3)) by exact Sx.
  destruct (@faces_X_shapes rho (dy [*] dz) (dx [*] dz) (dx [*] dy) dx dy dz
              (per_Y phi) (per_Z phi) uf vf wf n1 n2 n3
              P1 P2 P3 Sr Sxx Syy Szz Sx Sy Sz St)
    as (Fvx & Fdx & Frx & Fax & Fvy & Fdy & Fry & Fay & Fvz & Fdz & Frz & Faz).
  fold f in Fvx, Fdx, Frx, Fax, Fvy, Fdy, Fry, Fay, Fvz, Fdz, Frz, Faz.
  unfold shape in Sv. injection Sv as V1 V2 V3.
  assert (HX' : per_X phi = true -> (3 <= nx (val phi))%nat)
    by (intros E; specialize (HX E); lia).
  assert (HY' : per_Y phi = true -> (3 <= ny (val phi))%nat)
    by (intros E; specialize (HY E); lia).
  assert (HZ' : per_Z phi = true -> (3 <= nz (val phi))%nat)
    by (intros E; specialize (HZ E); lia).
  destruct (@d_x_shape (pos phi) (per_X phi) phi Cf HX') as (Qx1 & Qx2 & Qx3).
  destruct (@d_y_shape (pos phi) (per_Y phi) phi Cf HY') as (Qy1 & Qy2 & Qy3).
  destruct (@d_z_shape (pos phi) (per_Z phi) phi Cf HZ') as (Qz1 & Qz2 & Qz3).
  destruct (@difference_slices_x (d_x (pos phi) (per_X phi) phi) (nx (val phi)) Qx1)
    as (Dx1 & Dx2 & Dx3).
  destruct (@difference_slices_y (d_y (pos phi) (per_Y phi) phi) (ny (val phi)) Qy2)
    as (Dy1 & Dy2 & Dy3).
  destruct (@difference_slices_z (d_z (pos phi) (per_Z phi) phi) (nz (val phi)) Qz3)
    as (Dz1 & Dz2 & Dz3).
  clear HX HY HZ HX' HY' HZ' St.
  destruct Cf as (CW & CE & CS & CN & CB & CT).
  unfold shape in CW, CE, CS, CN, CB, CT.
  injection CW as ? ? ?. injection CE as ? ? ?. injection CS as ? ? ?.
  injection CN as ? ? ?. injection CB as ? ? ?. injection CT as ? ? ?.
  split; [|split; [|split]].
  - unfold operands_x.
    apply Forall_cons; [apply cat2_x_shape; lia|].
    apply Forall_cons; [apply cat2_x_shape; lia|].
    apply Forall_cons; [exact Fvx|]. apply Forall_cons; [exact Fdx|].
    apply Forall_cons; [exact Frx|]. apply Forall_cons; [exact Fax|].
    apply Forall_cons; [apply slice_x_shape; [rewrite Dx1; lia | lia | lia]|].
    apply Forall_cons; [apply slice_x_shape; [rewrite Dx2; lia | lia | lia]|].
    apply Forall_cons; [apply slice_x_shape; [rewrite Dx3; lia | lia | lia]|].
    apply Forall_nil.
  - unfold operands_y.
    apply Forall_cons; [apply cat2_y_shape; lia|].
    apply Forall_cons; [apply cat2_y_shape; lia|].
    apply Forall_cons; [exact Fvy|]. apply Forall_cons; [exact Fdy|].
    apply Forall_cons; [exact Fry|]. apply Forall_cons; [exact Fay|].
    apply Forall_cons; [apply slice_y_shape; [rewrite Dy1; lia | lia | lia]|].
    apply Forall_cons; [apply slice_y_shape; [rewrite Dy2; lia | lia | lia]|].
    apply Forall_cons; [apply slice_y_shape; [rewrite Dy3; lia | lia | lia]|].
    apply Forall_nil.
  - unfold operands_z.
    apply Forall_cons; [apply cat2_z_shape; lia|].
    apply Forall_cons; [apply cat2_z_shape; lia|].
    apply Forall_cons; [exact Fvz|]. apply Forall_cons; [exact Fdz|].
    apply Forall_cons; [exact Frz|]. apply Forall_cons; [exact Faz|].
    apply Forall_cons; [apply slice_z_shape; [rewrite Dz1; lia | lia | lia]|].
    apply Forall_cons; [apply slice_z_shape; [rewrite Dz2; lia | lia | lia]|].
    apply Forall_cons; [apply slice_z_shape; [rewrite Dz3; lia | lia | lia]|].
    apply Forall_nil.
  - unfold shape in Fvx, Fvy, Fvz.
    injection Fvx as ? ? ?. injection Fvy as ? ? ?. injection Fvz as ? ? ?.
    apply Forall_cons.
    { assert (W : nx (mflow_we f) = S (nx (val phi)))
        by (unfold mflow_we; cbn [amap2 nx ny nz]; lia).
      destruct (@inner_slices_x (mflow_we f) (nx (val phi)) W) as (I & _).
      apply slice_x_shape;
        [rewrite I; lia | unfold mflow_we; cbn [amap2 nx ny nz]; lia
                        | unfold mflow_we; cbn [amap2 nx ny nz]; lia]. }
    apply Forall_cons.
    { assert (W : nx (mflow_ew f) = S (nx (val phi)))
        by (unfold mflow_ew; cbn [amap2 nx ny nz]; lia).
      destruct (@inner_slices_x (mflow_ew f) (nx (val phi)) W) as (_ & I).
      apply slice_x_shape;
        [rewrite I; lia | unfold mflow_ew; cbn [amap2 nx ny nz]; lia
                        | unfold mflow_ew; cbn [amap2 nx ny nz]; lia]. }
    apply Forall_cons.
    { assert (W : ny (mflow_sn f) = S (ny (val phi)))
        by (unfold mflow_sn; cbn [amap2 nx ny nz]; lia).
      destruct (@inner_slices_y (mflow_sn f) (ny (val phi)) W) as (I & _).
      apply slice_y_shape;
        [rewrite I; lia | unfold mflow_sn; cbn [amap2 nx ny nz]; lia
                        | unfold mflow_sn; cbn [amap2 nx ny nz]; lia]. }
    apply Forall_cons.
    { assert (W : ny (mflow_ns f) = S (ny (val phi)))
        by (unfold mflow_ns; cbn [amap2 nx ny nz]; lia).
      destruct (@inner_slices_y (mflow_ns f) (ny (val phi)) W) as (_ & I).
      apply slice_y_shape;
        [rewrite I; lia | unfold mflow_ns; cbn [amap2 nx ny nz]; lia
                        | unfold mflow_ns; cbn [amap2 nx ny nz]; lia]. }
    apply Forall_cons.
    { assert (W : nz (mflow_bt f) = S (nz (val phi)))
        by (unfold mflow_bt; cbn [amap2 nx ny nz]; lia).
      destruct (@inner_slices_z (mflow_bt f) (nz (val phi)) W) as (I & _).
      apply slice_z_shape;
        [rewrite I; lia | unfold mflow_bt; cbn [amap2 nx ny nz]; lia
                        | unfold mflow_bt; cbn [amap2 nx ny nz]; lia]. }
    apply Forall_cons.
    { assert (W : nz (mflow_tb f) = S (nz (val phi)))
        by (unfold mflow_tb; cbn [amap2 nx ny nz]; lia).
      destruct (@inner_slices_z (mflow_tb f) (nz (val phi)) W) as (_ & I).
      apply slice_z_shape;
        [rewrite I; lia | unfold mflow_tb; cbn [amap2 nx ny nz]; lia
                        | unfold mflow_tb; cbn [amap2 nx ny nz]; lia]. }
    apply Forall_nil.
Qed.

Lemma faces_Y_shapes (rho sx sy sz dx dy dz : array) (perX perZ : bool)
      (uf vf wf : Unknown) (n1 n2 n3 : nat) :
  (2 <= n1)%nat -> (2 <= n2)%nat -> (2 <= n3)%nat ->
  shape rho = (n1, n2, n3) ->
  shape sx = (n1, n2, n3) -> shape sy = (n1, n2, n3) -> shape sz = (n1, n2, n3) ->
  shape dx = (n1, n2, n3) -> shape dy = (n1, n2, n3) -> shape dz = (n1, n2, n3) ->
  staggered (uf, vf, wf) n1 n2 n3 ->
  let f := faces_Y rho sx sy sz dx dy dz perX perZ uf vf wf in
  shape (u_fac f) = (S n1, (n2 - 1)%nat, n3) /\
  shape (del_x f) = (S n1, (n2 - 1)%nat, n3) /\
  shape (rho_x_fac f) = (S n1, (n2 - 1)%nat, n3) /\
  shape (a_x_fac f) = (S n1, (n2 - 1)%nat, n3) /\
  shape (v_fac f) = (n1, n2, n3) /\
  shape (del_y f) = (n1, n2, n3) /\
  shape (rho_y_fac f) = (n1, n2, n3) /\
  shape (a_y_fac f) = (n1, n2, n3) /\
  shape (w_fac f) = (n1, (n2 - 1)%nat, S n3) /\
  shape (del_z f) = (n1, (n2 - 1)%nat, S n3) /\
  shape (rho_z_fac f) = (n1, (n2 - 1)%nat, S n3) /\
  shape (a_z_fac f) = (n1, (n2 - 1)%nat, S n3).
Proof.
  intros P1 P2 P3 Sr Sx Sy Sz Dx Dy Dz
         ((U1 & U2 & U3) & (V1 & V2 & V3) & (W1 & W2 & W3)) f.
  unfold shape in Sr, Sx, Sy, Sz, Dx, Dy, Dz, U1, U2, U3, V1, V2, V3, W1, W2, W3.
  injection Sr as ? ? ?. injection Sx as ? ? ?. injection Sy as ? ? ?.
  injection Sz as ? ? ?. injection Dx as ? ? ?. injection Dy as ? ? ?.
  injection Dz as ? ? ?.
  injection U1 as ? ? ?. injection U2 as ? ? ?. injection U3 as ? ? ?.
  injection V1 as ? ? ?. injection V2 as ? ? ?. injection V3 as ? ? ?.
  injection W1 as ? ? ?. injection W2 as ? ? ?. injection W3 as ? ? ?.
  subst f. unfold faces_Y.
  destruct perX, perZ;
    cbn [rho_x_fac rho_y_fac rho_z_fac a_x_fac a_y_fac a_z_fac
         del_x del_y del_z u_fac v_fac w_fac];
    repeat (match goal with |- _ /\ _ => split end); shape_of.
Qed.

(** X15 (lines 158-201, 277-317, 356-397): for a variable staggered
    in y on a grid of [n1 x n2 x n3] cells with at least two cells along
    every axis, the field having one cell fewer along y, with density and
    cell sizes of the shape of the grid, conformable boundary values,
    face velocities of the staggered shapes and at least three values of
    the field along every periodic axis, the arrays the flux along an axis
    is computed from all have one shape, and the six slices added to the
    matrix have the shape of the field. *)
Theorem staggered_y_operands_conform
        (rho dx dy dz : array) (phi uf vf wf : Unknown) (n1 n2 n3 : nat) :
  (2 <= n1)%nat -> (2 <= n2)%nat -> (2 <= n3)%nat ->
  shape rho = (n1, n2, n3) ->
  shape dx = (n1, n2, n3) -> shape dy = (n1, n2, n3) -> shape dz = (n1, n2, n3) ->
  shape (val phi) = (n1, (n2 - 1)%nat, n3) -> conformable phi ->
  staggered (uf, vf, wf) n1 n2 n3 ->
  (per_X phi = true -> (3 <= n1)%nat) ->
  (per_Y phi = true -> (3 <= n2 - 1)%nat) ->
  (per_Z phi = true -> (3 <= n3)%nat) ->
  let f := faces_Y rho (dy [*] dz) (dx [*] dz) (dx [*] dy) dx dy dz
                   (per_X phi) (per_Z phi) uf vf wf in
  Forall (fun a => shape a = (S n1, (n2 - 1)%nat, n3))
         (operands_x phi f (d_x (pos phi) (per_X phi) phi)) /\
  Forall (fun a => shape a = (n1, n2, n3))
         (operands_y phi f (d_y (pos phi) (per_Y phi) phi)) /\
  Forall (fun a => shape a = (n1, (n2 - 1)%nat, S n3))
         (operands_z phi f (d_z (pos phi) (per_Z phi) phi)) /\
  Forall (fun a => shape a = (n1, (n2 - 1)%nat, n3))
         [slice_x None (Some (-1)%Z) (mflow_we f); slice_x (Some 1%Z) None (mflow_ew f);
          slice_y None (Some (-1)%Z) (mflow_sn f); slice_y (Some 1%Z) None (mflow_ns f);
          slice_z None (Some (-1)%Z) (mflow_bt f); slice_z (Some 1%Z) None (mflow_tb f)].
Proof.
  intros P1 P2 P3 Sr Sx Sy Sz Sv Cf St HX HY HZ f.
  assert (Sxx : shape (dy [*] dz) = (n1, n2, n3)) by exact Sy.
  assert (Syy : shape (dx [*] dz) = (n1, n2, n3)) by exact Sx.
  assert (Szz : shape (dx [*] dy) = (n1, n2, n3)) by exact Sx.
  destruct (@faces_Y_shapes rho (dy [*] dz) (dx [*] dz) (dx [*] dy) dx dy dz
              (per_X phi) (per_Z phi) uf vf wf n1 n2 n3
              P1 P2 P3 Sr Sxx Syy Szz Sx Sy Sz St)
    as (Fvx & Fdx & Frx & Fax & Fvy & Fdy & Fry & Fay & Fvz & Fdz & Frz & Faz).
  fold f in Fvx, Fdx, Frx, Fax, Fvy, Fdy, Fry, Fay, Fvz, Fdz, Frz, Faz.
  unfold shape in Sv. injection Sv as V1 V2 V3.
  assert (HX' : per_X phi = true -> (3 <= nx (val phi))%nat)
    by (intros E; specialize (HX E); lia).
  assert (HY' : per_Y phi = true -> (3 <= ny (val phi))%nat)
    by (intros E; specialize (HY E); lia).
  assert (HZ' : per_Z phi = true -> (3 <= nz (val phi))%nat)
    by (intros E; specialize (HZ E); lia).
  destruct (@d_x_shape (pos phi) (per_X phi) phi Cf HX') as (Qx1 & Qx2 & Qx3).
  destruct (@d_y_shape (pos phi) (per_Y phi) phi Cf HY') as (Qy1 & Qy2 & Qy3).
  destruct (@d_z_shape (pos phi) (per_Z phi) phi Cf HZ') as (Qz1 & Qz2 & Qz3).
  destruct (@difference_slices_x (d_x (pos phi) (per_X phi) phi) (nx (val phi)) Qx1)
    as (Dx1 & Dx2 & Dx3).
  destruct (@difference_slices_y (d_y (pos phi) (per_Y phi) phi) (ny (val phi)) Qy2)
    as (Dy1 & Dy2 & Dy3).
  destruct (@difference_slices_z (d_z (pos phi) (per_Z phi) phi) (nz (val phi)) Qz3)
    as (Dz1 & Dz2 & Dz3).
  clear HX HY HZ HX' HY' HZ' St.
  destruct Cf as (CW & CE & CS & CN & CB & CT).
  unfold shape in CW, CE, CS, CN, CB, CT.
  injection CW as ? ? ?. injection CE as ? ? ?. injection CS as ? ? ?.
  injection CN as ? ? ?. injection CB as ? ? ?. injection CT as ? ? ?.
  split; [|split; [|split]].
  - unfold operands_x.
    apply Forall_cons; [apply cat2_x_shape; lia|].
    apply Forall_cons; [apply cat2_x_shape; lia|].
    apply Forall_cons; [exact Fvx|]. apply Forall_cons; [exact Fdx|].
    apply Forall_cons; [exact Frx|]. apply Forall_cons; [exact Fax|].
    apply Forall_cons; [apply slice_x_shape; [rewrite Dx1; lia | lia | lia]|].
    apply Forall_cons; [apply slice_x_shape; [rewrite Dx2; lia | lia | lia]|].
    apply Forall_cons; [apply slice_x_shape; [rewrite Dx3; lia | lia | lia]|].
    apply Forall_nil.
  - unfold operands_y.
    apply Forall_cons; [apply cat2_y_shape; lia|].
    apply Forall_cons; [apply cat2_y_shape; lia|].
    apply Forall_cons; [exact Fvy|]. apply Forall_cons; [exact Fdy|].
    apply Forall_cons; [exact Fry|]. apply Forall_cons; [exact Fay|].
    apply Forall_cons; [apply slice_y_shape; [rewrite Dy1; lia | lia | lia]|].
    apply Forall_cons; [apply slice_y_shape; [rewrite Dy2; lia | lia | lia]|].
    apply Forall_cons; [apply slice_y_shape; [rewrite Dy3; lia | lia | lia]|].
    apply Forall_nil.
  - unfold operands_z.
    apply Forall_cons; [apply cat2_z_shape; lia|].
    apply Forall_cons; [apply cat2_z_shape; lia|].
    apply Forall_cons; [exact Fvz|]. apply Forall_cons; [exact Fdz|].
    apply Forall_cons; [exact Frz|]. apply Forall_cons; [exact Faz|].
    apply Forall_cons; [apply slice_z_shape; [rewrite Dz1; lia | lia | lia]|].
    apply Forall_cons; [apply slice_z_shape; [rewrite Dz2; lia | lia | lia]|].
    apply Forall_cons; [apply slice_z_shape; [rewrite Dz3; lia | lia | lia]|].
    apply Forall_nil.
  - unfold shape in Fvx, Fvy, Fvz.
    injection Fvx as ? ? ?. injection Fvy as ? ? ?. injection Fvz as ? ? ?.
    apply Forall_cons.
    { assert (W : nx (mflow_we f) = S (nx (val phi)))
        by (unfold mflow_we; cbn [amap2 nx ny nz]; lia).
      destruct (@inner_slices_x (mflow_we f) (nx (val phi)) W) as (I & _).
      apply slice_x_shape;
        [rewrite I; lia | unfold mflow_we; cbn [amap2 nx ny nz]; lia
                        | unfold mflow_we; cbn [amap2 nx ny nz]; lia]. }
    apply Forall_cons.
    { assert (W : nx (mflow_ew f) = S (nx (val phi)))
        by (unfold mflow_ew; cbn [amap2 nx ny nz]; lia).
      destruct (@inner_slices_x (mflow_ew f) (nx (val phi)) W) as (_ & I).
      apply slice_x_shape;
        [rewrite I; lia | unfold mflow_ew; cbn [amap2 nx ny nz]; lia
                        | unfold mflow_ew; cbn [amap2 nx ny nz]; lia]. }
    apply Forall_cons.
    { assert (W : ny (mflow_sn f) = S (ny (val phi)))
        by (unfold mflow_sn; cbn [amap2 nx ny nz]; lia).
      destruct (@inner_slices_y (mflow_sn f) (ny (val phi)) W) as (I & _).
      apply slice_y_shape;
        [rewrite I; lia | unfold mflow_sn; cbn [amap2 nx ny nz]; lia
                        | unfold mflow_sn; cbn [amap2 nx ny nz]; lia]. }
    apply Forall_cons.
    { assert (W : ny (mflow_ns f) = S (ny (val phi)))
        by (unfold mflow_ns; cbn [amap2 nx ny nz]; lia).
      destruct (@inner_slices_y (mflow_ns f) (ny (val phi)) W) as (_ & I).
      apply slice_y_shape;
        [rewrite I; lia | unfold mflow_ns; cbn [amap2 nx ny nz]; lia
                        | unfold mflow_ns; cbn [amap2 nx ny nz]; lia]. }
    apply Forall_cons.
    { assert (W : nz (mflow_bt f) = S (nz (val phi)))
        by (unfold mflow_bt; cbn [amap2 nx ny nz]; lia).
      destruct (@inner_slices_z (mflow_bt f) (nz (val phi)) W) as (I & _).
      apply slice_z_shape;
        [rewrite I; lia | unfold mflow_bt; cbn [amap2 nx ny nz]; lia
                        | unfold mflow_bt; cbn [amap2 nx ny nz]; lia]. }
    apply Forall_cons.
    { assert (W : nz (mflow_tb f) = S (nz (val phi)))
        by (unfold mflow_tb; cbn [amap2 nx ny nz]; lia).
      destruct (@inner_slices_z (mflow_tb f) (nz (val phi)) W) as (_ & I).
      apply slice_z_shape;
        [rewrite I; lia | unfold mflow_tb; cbn [amap2 nx ny nz]; lia
                        | unfold mflow_tb; cbn [amap2 nx ny nz]; lia]. }
    apply Forall_nil.
Qed.

Lemma faces_Z_shapes (rho sx sy sz dx dy dz : array) (perX perY : bool)
      (uf vf wf : Unknown) (n1 n2 n3 : nat) :
  (2 <= n1)%nat -> (2 <= n2)%nat -> (2 <= n3)%nat ->
  shape rho = (n1, n2, n3) ->
  shape sx = (n1, n2, n3) -> shape sy = (n1, n2, n3) -> shape sz = (n1, n2, n3) ->
  shape dx = (n1, n2, n3) -> shape dy = (n1, n2, n3) -> shape dz = (n1, n2, n3) ->
  staggered (uf, vf, wf) n1 n2 n3 ->
  let f := faces_Z rho sx sy sz dx dy dz perX perY uf vf wf in
  shape (u_fac f) = (S n1, n2, (n3 - 1)%nat) /\
  shape (del_x f) = (S n1, n2, (n3 - 1)%nat) /\
  shape (rho_x_fac f) = (S n1, n2, (n3 - 1)%nat) /\
  shape (a_x_fac f) = (S n1, n2, (n3 - 1)%nat) /\
  shape (v_fac f) = (n1, S n2, (n3 - 1)%nat) /\
  shape (del_y f) = (n1, S n2, (n3 - 1)%nat) /\
  shape (rho_y_fac f) = (n1, S n2, (n3 - 1)%nat) /\
  shape (a_y_fac f) = (n1, S n2, (n3 - 1)%nat) /\
  shape (w_fac f) = (n1, n2, n3) /\
  shape (del_z f) = (n1, n2, n3) /\
  shape (rho_z_fac f) = (n1, n2, n3) /\
  shape (a_z_fac f) = (n1, n2, n3).
Proof.
  intros P1 P2 P3 Sr Sx Sy Sz Dx Dy Dz
         ((U1 & U2 & U3) & (V1 & V2 & V3) & (W1 & W2 & W3)) f.
  unfold shape in Sr, Sx, Sy, Sz, Dx, Dy, Dz, U1, U2, U3, V1, V2, V3, W1, W2, W3.
  injection Sr as ? ? ?. injection Sx as ? ? ?. injection Sy as ? ? ?.
  injection Sz as ? ? ?. injection Dx as ? ? ?. injection Dy as ? ? ?.
  injection Dz as ? ? ?.
  injection U1 as ? ? ?. injection U2 as ? ? ?. injection U3 as ? ? ?.
  injection V1 as ? ? ?. injection V2 as ? ? ?. injection V3 as ? ? ?.
  injection W1 as ? ? ?. injection W2 as ? ? ?. injection W3 as ? ? ?.
  subst f. unfold faces_Z.
  destruct perX, perY;
    cbn [rho_x_fac rho_y_fac rho_z_fac a_x_fac a_y_fac a_z_fac
         del_x del_y del_z u_fac v_fac w_fac];
    repeat (match goal with |- _ /\ _ => split end); shape_of.
Qed.

(** X16 (lines 206-249, 277-317, 356-397): for a variable staggered
    in z on a grid of [n1 x n2 x n3] cells with at least two cells along
    every axis, the field having one cell fewer along z, with density and
    cell sizes of the shape of the grid, conformable boundary values,
    face velocities of the staggered shapes and at least three values of
    the field along every periodic axis, the arrays the flux along an axis
    is computed from all have one shape, and the six slices added to the
    matrix have the shape of the field. *)
Theorem staggered_z_operands_conform
        (rho dx dy dz : array) (phi uf vf wf : Unknown) (n1 n2 n3 : nat) :
  (2 <= n1)%nat -> (2 <= n2)%nat -> (2 <= n3)%nat ->
  shape rho = (n1, n2, n3) ->
  shape dx = (n1, n2, n3) -> shape dy = (n1, n2, n3) -> shape dz = (n1, n2, n3) ->
  shape (val phi) = (n1, n2, (n3 - 1)%nat) -> conformable phi ->
  staggered (uf, vf, wf) n1 n2 n3 ->
  (per_X phi = true -> (3 <= n1)%nat) ->
  (per_Y phi = true -> (3 <= n2)%nat) ->
  (per_Z phi = true -> (3 <= n3 - 1)%nat) ->
  let f := faces_Z rho (dy [*] dz) (dx [*] dz) (dx [*] dy) dx dy dz
                   (per_X phi) (per_Y phi) uf vf wf in
  Forall (fun a => shape a = (S n1, n2, (n3 - 1)%nat))
         (operands_x phi f (d_x (pos phi) (per_X phi) phi)) /\
  Forall (fun a => shape a = (n1, S n2, (n3 - 1)%nat))
         (operands_y phi f (d_y (pos phi) (per_Y phi) phi)) /\
  Forall (fun a => shape a = (n1, n2, n3))
         (operands_z phi f (d_z (pos phi) (per_Z phi) phi)) /\
  Forall (fun a => shape a = (n1, n2, (n3 - 1)%nat))
         [slice_x None (Some (-1)%Z) (mflow_we f); slice_x (Some 1%Z) None (mflow_ew f);
          slice_y None (Some (-1)%Z) (mflow_sn f); slice_y (Some 1%Z) None (mflow_ns f);
          slice_z None (Some (-1)%Z) (mflow_bt f); slice_z (Some 1%Z) None (mflow_tb f)].
Proof.
  intros P1 P2 P3 Sr Sx Sy Sz Sv Cf St HX HY HZ f.
  assert (Sxx : shape (dy [*] dz) = (n1, n2, n3)) by exact Sy.
  assert (Syy : shape (dx [*] dz) = (n1, n2, n3)) by exact Sx.
  assert (Szz : shape (dx [*] dy) = (n1, n2, n3)) by exact Sx.
  destruct (@faces_Z_shapes rho (dy [*] dz) (dx [*] dz) (dx [*] dy) dx dy dz
              (per_X phi) (per_Y phi) uf vf wf n1 n2 n3
              P1 P2 P3 Sr Sxx Syy Szz Sx Sy Sz St)
    as (Fvx & Fdx & Frx & Fax & Fvy & Fdy & Fry & Fay & Fvz & Fdz & Frz & Faz).
  fold f in Fvx, Fdx, Frx, Fax, Fvy, Fdy, Fry, Fay, Fvz, Fdz, Frz, Faz.
  unfold shape in Sv. injection Sv as V1 V2 V3.
  assert (HX' : per_X phi = true -> (3 <= nx (val phi))%nat)
    by (intros E; specialize (HX E); lia).
  assert (HY' : per_Y phi = true -> (3 <= ny (val phi))%nat)
    by (intros E; specialize (HY E); lia).
  assert (HZ' : per_Z phi = true -> (3 <= nz (val phi))%nat)
    by (intros E; specialize (HZ E); lia).
  destruct (@d_x_shape (pos phi) (per_X phi) phi Cf HX') as (Qx1 & Qx2 & Qx3).
  destruct (@d_y_shape (pos phi) (per_Y phi) phi Cf HY') as (Qy1 & Qy2 & Qy3).
  destruct (@d_z_shape (pos phi) (per_Z phi) phi Cf HZ') as (Qz1 & Qz2 & Qz3).
  destruct (@difference_slices_x (d_x (pos phi) (per_X phi) phi) (nx (val phi)) Qx1)
    as (Dx1 & Dx2 & Dx3).
  destruct (@difference_slices_y (d_y (pos phi) (per_Y phi) phi) (ny (val phi)) Qy2)
    as (Dy1 & Dy2 & Dy3).
  destruct (@difference_slices_z (d_z (pos phi) (per_Z phi) phi) (nz (val phi)) Qz3)
    as (Dz1 & Dz2 & Dz3).
  clear HX HY HZ HX' HY' HZ' St.
  destruct Cf as (CW & CE & CS & CN & CB & CT).
  unfold shape in CW, CE, CS, CN, CB, CT.
  injection CW as ? ? ?. injection CE as ? ? ?. injection CS as ? ? ?.
  injection CN as ? ? ?. injection CB as ? ? ?. injection CT as ? ? ?.
  split; [|split; [|split]].
  - unfold operands_x.
    apply Forall_cons; [apply cat2_x_shape; lia|].
    apply Forall_cons; [apply cat2_x_shape; lia|].
    apply Forall_cons; [exact Fvx|]. apply Forall_cons; [exact Fdx|].
    apply Forall_cons; [exact Frx|]. apply Forall_cons; [exact Fax|].
    apply Forall_cons; [apply slice_x_shape; [rewrite Dx1; lia | lia | lia]|].
    apply Forall_cons; [apply slice_x_shape; [rewrite Dx2; lia | lia | lia]|].
    apply Forall_cons; [apply slice_x_shape; [rewrite Dx3; lia | lia | lia]|].
    apply Forall_nil.
  - unfold operands_y.
    apply Forall_cons; [apply cat2_y_shape; lia|].
    apply Forall_cons; [apply cat2_y_shape; lia|].
    apply Forall_cons; [exact Fvy|]. apply Forall_cons; [exact Fdy|].
    apply Forall_cons; [exact Fry|]. apply Forall_cons; [exact Fay|].
    apply Forall_cons; [apply slice_y_shape; [rewrite Dy1; lia | lia | lia]|].
    apply Forall_cons; [apply slice_y_shape; [rewrite Dy2; lia | lia | lia]|].
    apply Forall_cons; [apply slice_y_shape; [rewrite Dy3; lia | lia | lia]|].
    apply Forall_nil.
  - unfold operands_z.
    apply Forall_cons; [apply cat2_z_shape; lia|].
    apply Forall_cons; [apply cat2_z_shape; lia|].
    apply Forall_cons; [exact Fvz|]. apply Forall_cons; [exact Fdz|].
    apply Forall_cons; [exact Frz|]. apply Forall_cons; [exact Faz|].
    apply Forall_cons; [apply slice_z_shape; [rewrite Dz1; lia | lia | lia]|].
    apply Forall_cons; [apply slice_z_shape; [rewrite Dz2; lia | lia | lia]|].
    apply Forall_cons; [apply slice_z_shape; [rewrite Dz3; lia | lia | lia]|].
    apply Forall_nil.
  - unfold shape in Fvx, Fvy, Fvz.
    injection Fvx as ? ? ?. injection Fvy as ? ? ?. injection Fvz as ? ? ?.
    apply Forall_cons.
    { assert (W : nx (mflow_we f) = S (nx (val phi)))
        by (unfold mflow_we; cbn [amap2 nx ny nz]; lia).
      destruct (@inner_slices_x (mflow_we f) (nx (val phi)) W) as (I & _).
      apply slice_x_shape;
        [rewrite I; lia | unfold mflow_we; cbn [amap2 nx ny nz]; lia
                        | unfold mflow_we; cbn [amap2 nx ny nz]; lia]. }
    apply Forall_cons.
    { assert (W : nx (mflow_ew f) = S (nx (val phi)))
        by (unfold mflow_ew; cbn [amap2 nx ny nz]; lia).
      destruct (@inner_slices_x (mflow_ew f) (nx (val phi)) W) as (_ & I).
      apply slice_x_shape;
        [rewrite I; lia | unfold mflow_ew; cbn [amap2 nx ny nz]; lia
                        | unfold mflow_ew; cbn [amap2 nx ny nz]; lia]. }
    apply Forall_cons.
    { assert (W : ny (mflow_sn f) = S (ny (val phi)))
        by (unfold mflow_sn; cbn [amap2 nx ny nz]; lia).
      destruct (@inner_slices_y (mflow_sn f) (ny (val phi)) W) as (I & _).
      apply slice_y_shape;
        [rewrite I; lia | unfold mflow_sn; cbn [amap2 nx ny nz]; lia
                        | unfold mflow_sn; cbn [amap2 nx ny nz]; lia]. }
    apply Forall_cons.
    { assert (W : ny (mflow_ns f) = S (ny (val phi)))
        by (unfold mflow_ns; cbn [amap2 nx ny nz]; lia).
      destruct (@inner_slices_y (mflow_ns f) (ny (val phi)) W) as (_ & I).
      apply slice_y_shape;
        [rewrite I; lia | unfold mflow_ns; cbn [amap2 nx ny nz]; lia
                        | unfold mflow_ns; cbn [amap2 nx ny nz]; lia]. }
    apply Forall_cons.
    { assert (W : nz (mflow_bt f) = S (nz (val phi)))
        by (unfold mflow_bt; cbn [amap2 nx ny nz]; lia).
      destruct (@inner_slices_z (mflow_bt f) (nz (val phi)) W) as (I & _).
      apply slice_z_shape;
        [rewrite I; lia | unfold mflow_bt; cbn [amap2 nx ny nz]; lia
                        | unfold mflow_bt; cbn [amap2 nx ny nz]; lia]. }
    apply Forall_cons.
    { assert (W : nz (mflow_tb f) = S (nz (val phi)))
        by (unfold mflow_tb; cbn [amap2 nx ny nz]; lia).
      destruct (@inner_slices_z (mflow_tb f) (nz (val phi)) W) as (_ & I).
      apply slice_z_shape;
        [rewrite I; lia | unfold mflow_tb; cbn [amap2 nx ny nz]; lia
                        | unfold mflow_tb; cbn [amap2 nx ny nz]; lia]. }
    apply Forall_nil.
Qed.

Lemma clamp_eq (d e : Q) : 0 < TINY -> d == e -> clamp d == clamp e.
Proof.
  intros HT H.
  destruct (clamp_spec d HT) as [(H1 & A)|[(H1 & H2 & A)|[(H1 & H2 & A)|(H1 & A)]]];
    destruct (clamp_spec e HT) as [(G1 & B)|[(G1 & G2 & B)|[(G1 & G2 & B)|(G1 & B)]]];
    rewrite A, B; lra.
Qed.

Lemma periodic_cells_x (v : array) (m j k : nat) :
  (3 <= nx v)%nat -> (m < nx v + 4)%nat ->
  elt (cat_x [slice_x (Some (-3)%Z) (Some (-1)%Z) v; v; slice_x (Some 1%Z) (Some 3%Z) v]) (m)%nat j k
  = elt v (if (m <? 2)%nat then nx v - 3 + m else if (m <? nx v + 2)%nat then m - 2 else m - nx v - 1)%nat j k.
Proof.
  intros H Hm.
  cbn [cat_x elt slice_x nx ny nz slice_lo slice_hi]. unfold py_index.
  cbn [Z.ltb Z.compare].
  replace (Z.to_nat (Z.max 0 (Z.of_nat (nx v) + -1))) with (nx v - 1)%nat by lia.
  replace (Z.to_nat (Z.max 0 (Z.of_nat (nx v) + -3))) with (nx v - 3)%nat by lia.
  replace (Nat.min (Z.to_nat 1) (nx v)) with 1%nat by lia.
  replace (Nat.min (Z.to_nat 3) (nx v)) with 3%nat by lia.
  repeat match goal with
         | |- context [Nat.ltb ?x ?y] => destruct (Nat.ltb_spec x y)
         end; try lia; f_equal; lia.
Qed.

Lemma periodic_faces_x (v : array) (m j k : nat) :
  (2 <= nx v)%nat -> (m < nx v + 4)%nat ->
  elt (cat_x [slice_x (Some (-2)%Z) None v; v; slice_x None (Some 2%Z) v]) (m)%nat j k
  = elt v (if (m <? 2)%nat then nx v - 2 + m else if (m <? nx v + 2)%nat then m - 2 else m - nx v - 2)%nat j k.
Proof.
  intros H Hm.
  cbn [cat_x elt slice_x nx ny nz slice_lo slice_hi]. unfold py_index.
  cbn [Z.ltb Z.compare].
  replace (Z.to_nat (Z.max 0 (Z.of_nat (nx v) + -2))) with (nx v - 2)%nat by lia.
  replace (Nat.min (Z.to_nat 2) (nx v)) with 2%nat by lia.
  repeat match goal with
         | |- context [Nat.ltb ?x ?y] => destruct (Nat.ltb_spec x y)
         end; try lia; f_equal; lia.
Qed.

Lemma periodic_differences_x (p : Z) (phi : Unknown) (j k : nat) :
  let d := d_x p true phi in
  let n := nx (val phi) in
  ((p =? pos_X)%Z = true -> (2 <= n)%nat ->
   elt d (0)%nat j k = elt d (n)%nat j k /\
   elt d (1)%nat j k = elt d (n + 1)%nat j k /\
   elt d (2)%nat j k = elt d (n + 2)%nat j k) /\
  ((p =? pos_X)%Z = false -> (3 <= n)%nat ->
   elt d (0)%nat j k = elt d (n - 1)%nat j k /\
   elt d (3)%nat j k = elt d (n + 2)%nat j k /\
   (0 < TINY -> elt (val phi) (0)%nat j k == elt (val phi) (n - 1)%nat j k ->
    elt d (1)%nat j k == elt d (n)%nat j k /\
    elt d (2)%nat j k == elt d (n + 1)%nat j k)).
Proof.
  intros d n. subst d. unfold d_x, d_x_raw. cbn [negb amap elt dif_x].
  split; intros Hp Hn; rewrite Hp; cbn [elt dif_x].
  - pose proof (fun m => @periodic_faces_x (val phi) m j k Hn) as P. fold n in P.
    rewrite (P 0%nat), (P 1%nat), (P 2%nat), (P 3%nat), (P n), (P (S n)),
      (P (n + 1)%nat), (P (S (n + 1))), (P (n + 2)%nat), (P (S (n + 2))) by lia.
    clear P.
    repeat match goal with
           | |- context [Nat.ltb ?x ?y] => destruct (Nat.ltb_spec x y); try lia
           end.
    repeat split; f_equal; f_equal; f_equal; lia.
  - pose proof (fun m => @periodic_cells_x (val phi) m j k Hn) as P. fold n in P.
    rewrite (P 0%nat), (P 1%nat), (P 2%nat), (P 3%nat), (P 4%nat),
      (P (n - 1)%nat), (P (S (n - 1))), (P n), (P (S n)),
      (P (n + 1)%nat), (P (S (n + 1))), (P (n + 2)%nat), (P (S (n + 2))) by lia.
    clear P.
    repeat match goal with
           | |- context [Nat.ltb ?x ?y] => destruct (Nat.ltb_spec x y); try lia
           end.
    split; [f_equal; f_equal; f_equal; lia|].
    split; [f_equal; f_equal; f_equal; lia|].
    intros HT Hv. split; apply (clamp_eq HT).
    + match goal with
      | |- elt _ (?a)%nat j k - elt _ (?b)%nat j k == elt _ (?c)%nat j k - elt _ (?d)%nat j k =>
          replace a with 0%nat by lia; replace c with (n - 1)%nat by lia;
          replace d with b by lia
      end.
      rewrite Hv. reflexivity.
    + match goal with
      | |- elt _ (?a)%nat j k - elt _ (?b)%nat j k == elt _ (?c)%nat j k - elt _ (?d)%nat j k =>
          replace b with 0%nat by lia; replace d with (n - 1)%nat by lia;
          replace c with a by lia
      end.
      rewrite Hv. reflexivity.
Qed.

Lemma periodic_cells_y (v : array) (m i k : nat) :
  (3 <= ny v)%nat -> (m < ny v + 4)%nat ->
  elt (cat_y [slice_y (Some (-3)%Z) (Some (-1)%Z) v; v; slice_y (Some 1%Z) (Some 3%Z) v]) i (m)%nat k
  = elt v i (if (m <? 2)%nat then ny v - 3 + m else if (m <? ny v + 2)%nat then m - 2 else m - ny v - 1)%nat k.
Proof.
  intros H Hm.
  cbn [cat_y elt slice_y nx ny nz slice_lo slice_hi]. unfold py_index.
  cbn [Z.ltb Z.compare].
  replace (Z.to_nat (Z.max 0 (Z.of_nat (ny v) + -1))) with (ny v - 1)%nat by lia.
  replace (Z.to_nat (Z.max 0 (Z.of_nat (ny v) + -3))) with (ny v - 3)%nat by lia.
  replace (Nat.min (Z.to_nat 1) (ny v)) with 1%nat by lia.
  replace (Nat.min (Z.to_nat 3) (ny v)) with 3%nat by lia.
  repeat match goal with
         | |- context [Nat.ltb ?x ?y] => destruct (Nat.ltb_spec x y)
         end; try lia; f_equal; lia.
Qed.

Lemma periodic_faces_y (v : array) (m i k : nat) :
  (2 <= ny v)%nat -> (m < ny v + 4)%nat ->
  elt (cat_y [slice_y (Some (-2)%Z) None v; v; slice_y None (Some 2%Z) v]) i (m)%nat k
  = elt v i (if (m <? 2)%nat then ny v - 2 + m else if (m <? ny v + 2)%nat then m - 2 else m - ny v - 2)%nat k.
Proof.
  intros H Hm.
  cbn [cat_y elt slice_y nx ny nz slice_lo slice_hi]. unfold py_index.
  cbn [Z.ltb Z.compare].
  replace (Z.to_nat (Z.max 0 (Z.of_nat (ny v) + -2))) with (ny v - 2)%nat by lia.
  replace (Nat.min (Z.to_nat 2) (ny v)) with 2%nat by lia.
  repeat match goal with
         | |- context [Nat.ltb ?x ?y] => destruct (Nat.ltb_spec x y)
         end; try lia; f_equal; lia.
Qed.

Lemma periodic_differences_y (p : Z) (phi : Unknown) (i k : nat) :
  let d := d_y p true phi in
  let n := ny (val phi) in
  ((p =? pos_Y)%Z = true -> (2 <= n)%nat ->
   elt d i (0)%nat k = elt d i (n)%nat k /\
   elt d i (1)%nat k = elt d i (n + 1)%nat k /\
   elt d i (2)%nat k = elt d i (n + 2)%nat k) /\
  ((p =? pos_Y)%Z = false -> (3 <= n)%nat ->
   elt d i (0)%nat k = elt d i (n - 1)%nat k /\
   elt d i (3)%nat k = elt d i (n + 2)%nat k /\
   (0 < TINY -> elt (val phi) i (0)%nat k == elt (val phi) i (n - 1)%nat k ->
    elt d i (1)%nat k == elt d i (n)%nat k /\
    elt d i (2)%nat k == elt d i (n + 1)%nat k)).
Proof.
  intros d n. subst d. unfold d_y, d_y_raw. cbn [negb amap elt dif_y].
  split; intros Hp Hn; rewrite Hp; cbn [elt dif_y].
  - pose proof (fun m => @periodic_faces_y (val phi) m i k Hn) as P. fold n in P.
    rewrite (P 0%nat), (P 1%nat), (P 2%nat), (P 3%nat), (P n), (P (S n)),
      (P (n + 1)%nat), (P (S (n + 1))), (P (n + 2)%nat), (P (S (n + 2))) by lia.
    clear P.
    repeat match goal with
           | |- context [Nat.ltb ?x ?y] => destruct (Nat.ltb_spec x y); try lia
           end.
    repeat split; f_equal; f_equal; f_equal; lia.
  - pose proof (fun m => @periodic_cells_y (val phi) m i k Hn) as P. fold n in P.
    rewrite (P 0%nat), (P 1%nat), (P 2%nat), (P 3%nat), (P 4%nat),
      (P (n - 1)%nat), (P (S (n - 1))), (P n), (P (S n)),
      (P (n + 1)%nat), (P (S (n + 1))), (P (n + 2)%nat), (P (S (n + 2))) by lia.
    clear P.
    repeat match goal with
           | |- context [Nat.ltb ?x ?y] => destruct (Nat.ltb_spec x y); try lia
           end.
    split; [f_equal; f_equal; f_equal; lia|].
    split; [f_equal; f_equal; f_equal; lia|].
    intros HT Hv. split; apply (clamp_eq HT).
    + match goal with
      | |- elt _ i (?a)%nat k - elt _ i (?b)%nat k == elt _ i (?c)%nat k - elt _ i (?d)%nat k =>
          replace a with 0%nat by lia; replace c with (n - 1)%nat by lia;
          replace d with b by lia
      end.
      rewrite Hv. reflexivity.
    + match goal with
      | |- elt _ i (?a)%nat k - elt _ i (?b)%nat k == elt _ i (?c)%nat k - elt _ i (?d)%nat k =>
          replace b with 0%nat by lia; replace d with (n - 1)%nat by lia;
          replace c with a by lia
      end.
      rewrite Hv. reflexivity.
Qed.

Lemma periodic_cells_z (v : array) (m i j : nat) :
  (3 <= nz v)%nat -> (m < nz v + 4)%nat ->
  elt (cat_z [slice_z (Some (-3)%Z) (Some (-1)%Z) v; v; slice_z (Some 1%Z) (Some 3%Z) v]) i j (m)%nat
  = elt v i j (if (m <? 2)%nat then nz v - 3 + m else if (m <? nz v + 2)%nat then m - 2 else m - nz v - 1)%nat.
Proof.
  intros H Hm.
  cbn [cat_z elt slice_z nx ny nz slice_lo slice_hi]. unfold py_index.
  cbn [Z.ltb Z.compare].
  replace (Z.to_nat (Z.max 0 (Z.of_nat (nz v) + -1))) with (nz v - 1)%nat by lia.
  replace (Z.to_nat (Z.max 0 (Z.of_nat (nz v) + -3))) with (nz v - 3)%nat by lia.
  replace (Nat.min (Z.to_nat 1) (nz v)) with 1%nat by lia.
  replace (Nat.min (Z.to_nat 3) (nz v)) with 3%nat by lia.
  repeat match goal with
         | |- context [Nat.ltb ?x ?y] => destruct (Nat.ltb_spec x y)
         end; try lia; f_equal; lia.
Qed.

Lemma periodic_faces_z (v : array) (m i j : nat) :
  (2 <= nz v)%nat -> (m < nz v + 4)%nat ->
  elt (cat_z [slice_z (Some (-2)%Z) None v; v; slice_z None (Some 2%Z) v]) i j (m)%nat
  = elt v i j (if (m <? 2)%nat then nz v - 2 + m else if (m <? nz v + 2)%nat then m - 2 else m - nz v - 2)%nat.
Proof.
  intros H Hm.
  cbn [cat_z elt slice_z nx ny nz slice_lo slice_hi]. unfold py_index.
  cbn [Z.ltb Z.compare].
  replace (Z.to_nat (Z.max 0 (Z.of_nat (nz v) + -2))) with (nz v - 2)%nat by lia.
  replace (Nat.min (Z.to_nat 2) (nz v)) with 2%nat by lia.
  repeat match goal with
         | |- context [Nat.ltb ?x ?y] => destruct (Nat.ltb_spec x y)
         end; try lia; f_equal; lia.
Qed.

Lemma periodic_differences_z (p : Z) (phi : Unknown) (i j : nat) :
  let d := d_z p true phi in
  let n := nz (val phi) in
  ((p =? pos_Z)%Z = true -> (2 <= n)%nat ->
   elt d i j (0)%nat = elt d i j (n)%nat /\
   elt d i j (1)%nat = elt d i j (n + 1)%nat /\
   elt d i j (2)%nat = elt d i j (n + 2)%nat) /\
  ((p =? pos_Z)%Z = false -> (3 <= n)%nat ->
   elt d i j (0)%nat = elt d i j (n - 1)%nat /\
   elt d i j (3)%nat = elt d i j (n + 2)%nat /\
   (0 < TINY -> elt (val phi) i j (0)%nat == elt (val phi) i j (n - 1)%nat ->
    elt d i j (1)%nat == elt d i j (n)%nat /\
    elt d i j (2)%nat == elt d i j (n + 1)%nat)).
Proof.
  intros d n. subst d. unfold d_z, d_z_raw. cbn [negb amap elt dif_z].
  split; intros Hp Hn; rewrite Hp; cbn [elt dif_z].
  - pose proof (fun m => @periodic_faces_z (val phi) m i j Hn) as P. fold n in P.
    rewrite (P 0%nat), (P 1%nat), (P 2%nat), (P 3%nat), (P n), (P (S n)),
      (P (n + 1)%nat), (P (S (n + 1))), (P (n + 2)%nat), (P (S (n + 2))) by lia.
    clear P.
    repeat match goal with
           | |- context [Nat.ltb ?x ?y] => destruct (Nat.ltb_spec x y); try lia
           end.
    repeat split; f_equal; f_equal; f_equal; lia.
  - pose proof (fun m => @periodic_cells_z (val phi) m i j Hn) as P. fold n in P.
    rewrite (P 0%nat), (P 1%nat), (P 2%nat), (P 3%nat), (P 4%nat),
      (P (n - 1)%nat), (P (S (n - 1))), (P n), (P (S n)),
      (P (n + 1)%nat), (P (S (n + 1))), (P (n + 2)%nat), (P (S (n + 2))) by lia.
    clear P.
    repeat match goal with
           | |- context [Nat.ltb ?x ?y] => destruct (Nat.ltb_spec x y); try lia
           end.
    split; [f_equal; f_equal; f_equal; lia|].
    split; [f_equal; f_equal; f_equal; lia|].
    intros HT Hv. split; apply (clamp_eq HT).
    + match goal with
      | |- elt _ i j (?a)%nat - elt _ i j (?b)%nat == elt _ i j (?c)%nat - elt _ i j (?d)%nat =>
          replace a with 0%nat by lia; replace c with (n - 1)%nat by lia;
          replace d with b by lia
      end.
      rewrite Hv. reflexivity.
    + match goal with
      | |- elt _ i j (?a)%nat - elt _ i j (?b)%nat == elt _ i j (?c)%nat - elt _ i j (?d)%nat =>
          replace b with 0%nat by lia; replace d with (n - 1)%nat by lia;
          replace c with a by lia
      end.
      rewrite Hv. reflexivity.
Qed.

(** X17 (lines 284-287, 298-301, 312-315): on a periodic axis the
    differences at the two ends repeat those of the interior.  For a
    variable staggered along the axis, with [n] values, the period is
    [n]: the differences 0, 1, 2 are the differences [n], [n + 1],
    [n + 2].  For any other variable the period is [n - 1]: the
    differences 0 and 3 are the differences [n - 1] and [n + 2], and the
    differences 1 and 2 are the differences [n] and [n + 1] when the
    first and the last value along the axis are equal. *)
Theorem periodic_differences_repeat (p : Z) (phi : Unknown) (i j k : nat) :
  (let d := d_x p true phi in
   let n := nx (val phi) in
   ((p =? pos_X)%Z = true -> (2 <= n)%nat ->
    elt d (0)%nat j k = elt d (n)%nat j k /\
    elt d (1)%nat j k = elt d (n + 1)%nat j k /\
    elt d (2)%nat j k = elt d (n + 2)%nat j k) /\
   ((p =? pos_X)%Z = false -> (3 <= n)%nat ->
    elt d (0)%nat j k = elt d (n - 1)%nat j k /\
    elt d (3)%nat j k = elt d (n + 2)%nat j k /\
    (0 < TINY -> elt (val phi) (0)%nat j k == elt (val phi) (n - 1)%nat j k ->
     elt d (1)%nat j k == elt d (n)%nat j k /\
     elt d (2)%nat j k == elt d (n + 1)%nat j k))) /\
  (let d := d_y p true phi in
   let n := ny (val phi) in
   ((p =? pos_Y)%Z = true -> (2 <= n)%nat ->
    elt d i (0)%nat k = elt d i (n)%nat k /\
    elt d i (1)%nat k = elt d i (n + 1)%nat k /\
    elt d i (2)%nat k = elt d i (n + 2)%nat k) /\
   ((p =? pos_Y)%Z = false -> (3 <= n)%nat ->
    elt d i (0)%nat k = elt d i (n - 1)%nat k /\
    elt d i (3)%nat k = elt d i (n + 2)%nat k /\
    (0 < TINY -> elt (val phi) i (0)%nat k == elt (val phi) i (n - 1)%nat k ->
     elt d i (1)%nat k == elt d i (n)%nat k /\
     elt d i (2)%nat k == elt d i (n + 1)%nat k))) /\
  (let d := d_z p true phi in
   let n := nz (val phi) in
   ((p =? pos_Z)%Z = true -> (2 <= n)%nat ->
    elt d i j (0)%nat = elt d i j (n)%nat /\
    elt d i j (1)%nat = elt d i j (n + 1)%nat /\
    elt d i j (2)%nat = elt d i j (n + 2)%nat) /\
   ((p =? pos_Z)%Z = false -> (3 <= n)%nat ->
    elt d i j (0)%nat = elt d i j (n - 1)%nat /\
    elt d i j (3)%nat = elt d i j (n + 2)%nat /\
    (0 < TINY -> elt (val phi) i j (0)%nat == elt (val phi) i j (n - 1)%nat ->
     elt d i j (1)%nat == elt d i j (n)%nat /\
     elt d i j (2)%nat == elt d i j (n + 1)%nat))).
Proof.
  split; [exact (@periodic_differences_x p phi j k)|].
  split; [exact (@periodic_differences_y p phi i k)|].
  exact (@periodic_differences_z p phi i j).
Qed.
End Coverage.

Section CoverageTransport.

Context {env : Environment} {col : Collaborators}.

(** X18: for a field whose placement tag is none of the four,
    [calc_phi] raises the exception of [advection]; the buffers of the
    field and of the velocities have been refreshed, the values of the
    field are not overwritten and the boundary values are not adjusted. *)
Theorem calc_phi_raises_for_unknown_placement phi uvwf density gamma dt dxyz obst src :
  ~ In (pos phi) placements ->
  calc_phi phi uvwf density gamma dt dxyz obst src =
    mk_step (Raise (UnboundLocalError "u_fac"))
            (exchange phi)
            (exchange (fst (fst uvwf)), exchange (snd (fst uvwf)), exchange (snd uvwf)).
Proof.
  intros Hp. unfold calc_phi.
  rewrite (@advection_no_faces _ _ _ _ _ dt "minmod" None
             (@faces_of_none _ density phi uvwf dxyz Hp)).
  destruct dxyz as [[dx dy] dz]. reflexivity.
Qed.


End CoverageTransport.

(* ================================================================== *)
(** * The properties on the small grids *)
(* ================================================================== *)

Lemma uniform_field_one : @uniform 1 (Grid.field 1 3).
Proof. repeat split; intros i j k _ _ _; reflexivity. Qed.

Lemma conformable_field_one : conformable (Grid.field 1 3).
Proof. repeat split. Qed.

(** C1 on the uniform field, a velocity without divergence, "minmod" *)
Lemma deferred_correction_identity_witness :
  let env := Grid.env0 in
  let rho := Grid.unit in
  let phi := Grid.field 1 3 in
  let uvwf := Grid.uvwf_sol in
  let dxyz := Grid.dxyz in
  let dt := 1 # 4 in
  let limiter := "minmod"%string in
  let m := Grid.matrix0 in
  In limiter limiters /\
  In (pos phi) placements /\
  exists f cl up,
    faces_of rho phi uvwf dxyz = Some f /\
    limited limiter phi f dt = Some cl /\
    result (advection rho phi uvwf dxyz dt limiter (Some m)) =
      Ok (cl [-] c_upw (exchange phi) f) /\
    result (advection rho phi uvwf dxyz dt limiter None) = Ok cl /\
    result (advection rho phi uvwf dxyz dt "upwind" None) = Ok up /\
    array_eq (cl [-] c_upw (exchange phi) f) (cl [-] up).
Proof.
  intros.
  assert (Hl : In limiter limiters) by (right; left; reflexivity).
  assert (Hp : In (pos phi) placements) by (left; reflexivity).
  split; [exact Hl|]. split; [exact Hp|].
  exact (@deferred_correction_identity env rho phi uvwf dxyz dt limiter m Hl Hp).
Defined.

(** C2 as stated fails: an unknown limiter name, and an unknown
    placement tag: the exception comes after the four buffers were refreshed *)
Lemma unknown_configuration_raises_after_exchange :
  let r := @advection Grid.env0 Grid.unit (Grid.field 1 3) Grid.uvwf_sol Grid.dxyz
                      (1 # 4) "central" None in
  let q := @advection Grid.env0 Grid.unit (Grid.field 1 7)
                      Grid.uvwf_sol Grid.dxyz (1 # 4) "minmod" None in
  (~ In "central"%string limiters /\
   result r = Raise (UnboundLocalError "psi_x") /\
   calls r = [Exchange "phi"; Exchange "uf"; Exchange "vf"; Exchange "wf"] /\
   ~ (exists e, result r = Raise e /\ calls r = [])) /\
  (~ In 7%Z (@placements Grid.env0) /\
   result q = Raise (UnboundLocalError "u_fac") /\
   calls q = [Exchange "phi"; Exchange "uf"; Exchange "vf"; Exchange "wf"] /\
   ~ (exists e, result q = Raise e /\ calls q = [])).
Proof.
  intros r q. split; (split; [|split; [|split]]).
  - intros [H|[H|[H|[H|[]]]]]; discriminate.
  - reflexivity.
  - reflexivity.
  - intros (e & _ & H). discriminate.
  - intros [H|[H|[H|[H|[]]]]]; discriminate.
  - reflexivity.
  - reflexivity.
  - intros (e & _ & H). discriminate.
Qed.

(** C3 as stated fails: only the interior x faces carry flow: what the call adds to the
    neighbour and centre coefficients of the two cells next to such a
    face sums to twice the mass flow of the face *)
Lemma face_contributions_sum_to_twice_the_flow :
  let r := @advection Grid.env0 Grid.unit (Grid.field 1 3)
                      Grid.uvwf_mid Grid.dxyz
                      (1 # 4) "upwind" (Some Grid.matrix0) in
  exists f m',
    @faces_of Grid.env0 Grid.unit (Grid.field 1 3)
              Grid.uvwf_mid Grid.dxyz = Some f /\
    (elt (u_fac f) 0 0 0 == 0 /\ elt (u_fac f) 1 0 0 == 1 /\ elt (u_fac f) 2 0 0 == 0) /\
    matrix_out r = Some m' /\
    let gain (band : SystemMatrix -> array) (i : nat) :=
        elt (band m') i 0 0 - elt (band Grid.matrix0) i 0 0 in
    gain band_W 1%nat + gain band_C 1%nat + gain band_E 0%nat + gain band_C 0%nat == 2 /\
    ~ gain band_W 1%nat + gain band_C 1%nat + gain band_E 0%nat + gain band_C 0%nat == 0.
Proof.
  intros r. eexists. eexists. split; [reflexivity|].
  split; [repeat split|]. split; [reflexivity|].
  split; [vm_compute; reflexivity|vm_compute; discriminate].
Qed.

(** C4 as stated fails: the uniform field 1: with "upwind" and a
    velocity that is 1 and 2 at the two x faces of the first cell the
    result is 1 there, and with "minmod" and a velocity without
    divergence it is not zero in the cell next to it *)
Lemma uniform_field_result_not_zero :
  @uniform 1 (Grid.field 1 3) /\
  (exists a,
      result (@advection Grid.env0 Grid.unit (Grid.field 1 3) Grid.uvwf_div Grid.dxyz
                         (1 # 4) "upwind" None) = Ok a /\
      elt a 0 0 0 == 1 /\ ~ elt a 0 0 0 == 0) /\
  (exists f a,
      @faces_of Grid.env0 Grid.unit (Grid.field 1 3) Grid.uvwf_sol Grid.dxyz = Some f /\
      elt (div3 (mass_x f) (mass_y f) (mass_z f)) 1 0 0 == 0 /\
      result (@advection Grid.env0 Grid.unit (Grid.field 1 3) Grid.uvwf_sol Grid.dxyz
                         (1 # 4) "minmod" None) = Ok a /\
      ~ elt a 1 0 0 == 0).
Proof.
  split; [exact uniform_field_one|]. split.
  - eexists. split; [reflexivity|].
    split; [vm_compute; reflexivity|vm_compute; discriminate].
  - eexists. eexists. split; [reflexivity|].
    split; [vm_compute; reflexivity|]. split; [reflexivity|].
    vm_compute; discriminate.
Qed.

(** C5 on the uniform field, with and without a matrix *)
Lemma upwind_limiter_adds_no_correction_witness :
  let env := Grid.env0 in
  let rho := Grid.unit in
  let phi := Grid.field 1 3 in
  let uvwf := Grid.uvwf_sol in
  let dxyz := Grid.dxyz in
  let dt := 1 # 4 in
  let m := Grid.matrix0 in
  In (pos phi) placements /\
  exists f a,
    faces_of rho phi uvwf dxyz = Some f /\
    result (advection rho phi uvwf dxyz dt "upwind" None) = Ok a /\
    result (advection rho phi uvwf dxyz dt "upwind" (Some m)) =
      Ok (a [-] c_upw (exchange phi) f) /\
    array_eq a (c_upw (exchange phi) f) /\
    (forall r d psi i j k,
        limit "upwind" r = Some psi ->
        elt psi i j k == 0 /\
        elt (flux_fac_lim_x (exchange phi) f dt d psi) i j k ==
          elt (flux_fac_upw_x (exchange phi) f) i j k /\
        elt (flux_fac_lim_y (exchange phi) f dt d psi) i j k ==
          elt (flux_fac_upw_y (exchange phi) f) i j k /\
        elt (flux_fac_lim_z (exchange phi) f dt d psi) i j k ==
          elt (flux_fac_upw_z (exchange phi) f) i j k).
Proof.
  intros.
  assert (Hp : In (pos phi) placements) by (left; reflexivity).
  split; [exact Hp|].
  exact (@upwind_limiter_adds_no_correction env rho phi uvwf dxyz dt m Hp).
Defined.

(** C3, as amended, for flow through the interior x faces only *)
Lemma matrix_centre_gains_neighbour_gains_witness :
  let env := Grid.env0 in
  let rho := Grid.unit in
  let phi := Grid.field 1 3 in
  let uvwf := Grid.uvwf_mid in
  let dxyz := Grid.dxyz in
  let dt := 1 # 4 in
  let limiter := "upwind"%string in
  let m := Grid.matrix0 in
  In limiter limiters /\
  In (pos phi) placements /\
  exists f m',
    faces_of rho phi uvwf dxyz = Some f /\
    matrix_out (advection rho phi uvwf dxyz dt limiter (Some m)) = Some m' /\
    forall i j k,
      (elt (band_W m') i j k == elt (band_W m) i j k + elt (mflow_we f) i j k /\
       elt (band_S m') i j k == elt (band_S m) i j k + elt (mflow_sn f) i j k /\
       elt (band_B m') i j k == elt (band_B m) i j k + elt (mflow_bt f) i j k) /\
      (((1 <= nx (u_fac f))%nat ->
        elt (band_E m') i j k == elt (band_E m) i j k - elt (mflow_ew f) (S i) j k) /\
       ((1 <= ny (v_fac f))%nat ->
        elt (band_N m') i j k == elt (band_N m) i j k - elt (mflow_ns f) i (S j) k) /\
       ((1 <= nz (w_fac f))%nat ->
        elt (band_T m') i j k == elt (band_T m) i j k - elt (mflow_tb f) i j (S k))) /\
      elt (band_C m') i j k - elt (band_C m) i j k ==
        (elt (band_W m') i j k - elt (band_W m) i j k)
        + (elt (band_E m') i j k - elt (band_E m) i j k)
        + (elt (band_S m') i j k - elt (band_S m) i j k)
        + (elt (band_N m') i j k - elt (band_N m) i j k)
        + (elt (band_B m') i j k - elt (band_B m) i j k)
        + (elt (band_T m') i j k - elt (band_T m) i j k) /\
      ((0 <= elt (u_fac f) i j k ->
        elt (mflow_we f) i j k == elt (mass_x f) i j k /\ elt (mflow_ew f) i j k == 0) /\
       (elt (u_fac f) i j k < 0 ->
        elt (mflow_we f) i j k == 0 /\ elt (mflow_ew f) i j k == elt (mass_x f) i j k)) /\
      ((0 <= elt (v_fac f) i j k ->
        elt (mflow_sn f) i j k == elt (mass_y f) i j k /\ elt (mflow_ns f) i j k == 0) /\
       (elt (v_fac f) i j k < 0 ->
        elt (mflow_sn f) i j k == 0 /\ elt (mflow_ns f) i j k == elt (mass_y f) i j k)) /\
      ((0 <= elt (w_fac f) i j k ->
        elt (mflow_bt f) i j k == elt (mass_z f) i j k /\ elt (mflow_tb f) i j k == 0) /\
       (elt (w_fac f) i j k < 0 ->
        elt (mflow_bt f) i j k == 0 /\ elt (mflow_tb f) i j k == elt (mass_z f) i j k)).
Proof.
  intros.
  assert (Hl : In limiter limiters) by (left; reflexivity).
  assert (Hp : In (pos phi) placements) by (left; reflexivity).
  split; [exact Hl|]. split; [exact Hp|].
  exact (@matrix_centre_gains_neighbour_gains env rho phi uvwf dxyz dt limiter m Hl Hp).
Defined.

Lemma uniform_row_field : @uniform 1 (Grid.row_field 1).
Proof. repeat split; intros i j k _ _ _; reflexivity. Qed.

Lemma conformable_row_field : conformable (Grid.row_field 1).
Proof. repeat split. Qed.

(** C4, as amended, on the row of three cells with "minmod": the
    velocity is 2 at the x faces and 1 at the y faces, and the cell in
    the middle has the same distances at its two faces along each axis *)
Lemma uniform_field_equal_faces_witness :
  let env := Grid.env0 in
  let rho := Grid.row_unit in
  let phi := Grid.row_field 1 in
  let uvwf := Grid.row_uvwf 2 1 0 in
  let dxyz := Grid.row_dxyz in
  let dt := 1 # 4 in
  let limiter := "minmod"%string in
  let c := 1 in
  0 < TINY /\
  In limiter limiters /\
  In (pos phi) placements /\
  uniform c (exchange phi) /\
  conformable (exchange phi) /\
  (per_X phi = true -> (3 <= nx (val (exchange phi)))%nat) /\
  (per_Y phi = true -> (3 <= ny (val (exchange phi)))%nat) /\
  (per_Z phi = true -> (3 <= nz (val (exchange phi)))%nat) /\
  exists f a,
    faces_of rho phi uvwf dxyz = Some f /\
    result (advection rho phi uvwf dxyz dt limiter None) = Ok a /\
    (elt (u_fac f) 2 0 0 == elt (u_fac f) 1 0 0 /\
     elt (rho_x_fac f) 2 0 0 == elt (rho_x_fac f) 1 0 0 /\
     elt (a_x_fac f) 2 0 0 == elt (a_x_fac f) 1 0 0) /\
    (elt (v_fac f) 1 1 0 == elt (v_fac f) 1 0 0 /\
     elt (rho_y_fac f) 1 1 0 == elt (rho_y_fac f) 1 0 0 /\
     elt (a_y_fac f) 1 1 0 == elt (a_y_fac f) 1 0 0) /\
    (elt (w_fac f) 1 0 1 == elt (w_fac f) 1 0 0 /\
     elt (rho_z_fac f) 1 0 1 == elt (rho_z_fac f) 1 0 0 /\
     elt (a_z_fac f) 1 0 1 == elt (a_z_fac f) 1 0 0) /\
    (elt (del_x f) 2 0 0 == elt (del_x f) 1 0 0 /\
     elt (del_y f) 1 1 0 == elt (del_y f) 1 0 0 /\
     elt (del_z f) 1 0 1 == elt (del_z f) 1 0 0) /\
    elt a 1 0 0 == 0.
Proof.
  intros.
  assert (HT : 0 < TINY) by reflexivity.
  assert (Hl : In limiter limiters) by (right; left; reflexivity).
  assert (Hp : In (pos phi) placements) by (left; reflexivity).
  assert (PX : per_X phi = true -> (3 <= nx (val (exchange phi)))%nat)
    by (cbn; discriminate).
  assert (PY : per_Y phi = true -> (3 <= ny (val (exchange phi)))%nat)
    by (cbn; discriminate).
  assert (PZ : per_Z phi = true -> (3 <= nz (val (exchange phi)))%nat)
    by (cbn; discriminate).
  repeat (split; [assumption || exact uniform_row_field || exact conformable_row_field|]).
  destruct (@uniform_field_equal_faces env rho phi uvwf dxyz dt limiter c HT Hl Hp
              uniform_row_field conformable_row_field PX PY PZ)
    as (f & a & Hf & Ha & H).
  assert (E : exists f0,
             faces_of rho phi uvwf dxyz = Some f0 /\
             (elt (u_fac f0) 2 0 0 == elt (u_fac f0) 1 0 0 /\
              elt (rho_x_fac f0) 2 0 0 == elt (rho_x_fac f0) 1 0 0 /\
              elt (a_x_fac f0) 2 0 0 == elt (a_x_fac f0) 1 0 0) /\
             (elt (v_fac f0) 1 1 0 == elt (v_fac f0) 1 0 0 /\
              elt (rho_y_fac f0) 1 1 0 == elt (rho_y_fac f0) 1 0 0 /\
              elt (a_y_fac f0) 1 1 0 == elt (a_y_fac f0) 1 0 0) /\
             (elt (w_fac f0) 1 0 1 == elt (w_fac f0) 1 0 0 /\
              elt (rho_z_fac f0) 1 0 1 == elt (rho_z_fac f0) 1 0 0 /\
              elt (a_z_fac f0) 1 0 1 == elt (a_z_fac f0) 1 0 0) /\
             (elt (del_x f0) 2 0 0 == elt (del_x f0) 1 0 0 /\
              elt (del_y f0) 1 1 0 == elt (del_y f0) 1 0 0 /\
              elt (del_z f0) 1 0 1 == elt (del_z f0) 1 0 0)).
  { eexists. split; [reflexivity|].
    split; [|split; [|split]]; (split; [|split]); vm_compute; reflexivity. }
  destruct E as (f0 & Hf0 & EX & EY & EZ & ED).
  rewrite Hf in Hf0. injection Hf0 as <-.
  exists f, a. split; [exact Hf|]. split; [exact Ha|].
  split; [exact EX|]. split; [exact EY|]. split; [exact EZ|]. split; [exact ED|].
  apply (H 1%nat 0%nat 0%nat);
    [cbn; lia | cbn; lia | cbn; lia | exact EX | exact EY | exact EZ | right; exact ED].
Defined.

(** C7 on the field with a step *)
Lemma clamp_guards_division_witness :
  let env := Grid.env0 in
  let p := 3%Z in
  let perX := false in
  let perY := false in
  let perZ := false in
  let phi := Grid.step in
  0 < TINY /\
  let dx := d_x p perX phi in
  let dy := d_y p perY phi in
  let dz := d_z p perZ phi in
  (guarded dx /\ guarded dy /\ guarded dz) /\
  (forall i j k,
      sign_kept (elt (d_x_raw p perX phi) i j k) (elt dx i j k) /\
      sign_kept (elt (d_y_raw p perY phi) i j k) (elt dy i j k) /\
      sign_kept (elt (d_z_raw p perZ phi) i j k) (elt dz i j k)) /\
  (r_x_we dx = slice_x (Some 1%Z) (Some (-1)%Z) dx [/] slice_x (Some 0%Z) (Some (-2)%Z) dx /\
   guarded (slice_x (Some 0%Z) (Some (-2)%Z) dx)) /\
  (r_x_ew dx = slice_x (Some 2%Z) None dx [/] slice_x (Some 1%Z) (Some (-1)%Z) dx /\
   guarded (slice_x (Some 1%Z) (Some (-1)%Z) dx)) /\
  (r_y_sn dy = slice_y (Some 1%Z) (Some (-1)%Z) dy [/] slice_y (Some 0%Z) (Some (-2)%Z) dy /\
   guarded (slice_y (Some 0%Z) (Some (-2)%Z) dy)) /\
  (r_y_ns dy = slice_y (Some 2%Z) None dy [/] slice_y (Some 1%Z) (Some (-1)%Z) dy /\
   guarded (slice_y (Some 1%Z) (Some (-1)%Z) dy)) /\
  (r_z_bt dz = slice_z (Some 1%Z) (Some (-1)%Z) dz [/] slice_z (Some 0%Z) (Some (-2)%Z) dz /\
   guarded (slice_z (Some 0%Z) (Some (-2)%Z) dz)) /\
  (r_z_tb dz = slice_z (Some 2%Z) None dz [/] slice_z (Some 1%Z) (Some (-1)%Z) dz /\
   guarded (slice_z (Some 1%Z) (Some (-1)%Z) dz)).
Proof.
  intros env p perX perY perZ phi.
  assert (HT : 0 < TINY) by reflexivity.
  split; [exact HT|].
  exact (@clamp_guards_division env p perX perY perZ phi HT).
Defined.


(** C8 on the uniform field, with a source of eight entries *)
Lemma calc_phi_refuses_array_source_witness :
  let env := Grid.env0 in
  let col := Grid.col0 in
  let phi := Grid.field 1 3 in
  let uvwf := Grid.uvwf_sol in
  let density := Grid.unit in
  let gamma : Gamma := 1 in
  let dt := 1 # 4 in
  let dxyz := Grid.dxyz in
  let obst : option array := None in
  let s := Grid.unit in
  In (pos phi) placements /\
  (1 < entries s)%nat /\
  (exists c_phi,
      result (advection density phi uvwf dxyz dt "minmod" None) = Ok c_phi) /\
  calc_phi phi uvwf density gamma dt dxyz obst (Some s) =
    mk_step (Raise (ValueError "truth value of an array"))
            (exchange phi)
            (exchange (fst (fst uvwf)), exchange (snd (fst uvwf)), exchange (snd uvwf)).
Proof.
  intros env col phi uvwf density gamma dt dxyz obst s.
  assert (Hp : In (pos phi) placements) by (left; reflexivity).
  assert (Hs : (1 < entries s)%nat) by (cbn; lia).
  split; [exact Hp|]. split; [exact Hs|].
  exact (@calc_phi_refuses_array_source env col phi uvwf density gamma dt dxyz obst s
           Hp Hs).
Defined.

(** the limiters at a ratio of one half: 1/2, 1 and 5/6 *)
Example limiters_at_one_half :
  let r := full Grid.cells (1 # 2) in
  (exists psi, @limit "minmod" r = Some psi /\ elt psi 0 0 0 == 1 # 2) /\
  (exists psi, @limit "superbee" r = Some psi /\ elt psi 0 0 0 == 1) /\
  (exists psi, @limit "koren" r = Some psi /\ elt psi 0 0 0 == 5 # 6) /\
  (exists psi, @limit "upwind" r = Some psi /\ elt psi 0 0 0 == 0).
Proof.
  repeat split; eexists; (split; [reflexivity|]); vm_compute; reflexivity.
Qed.

(** the field with a step carried by the velocity 1, 2, 3 along x,
    "minmod": the explicit result, and the deferred correction that is
    left of it when a matrix takes the upwind part *)
Example step_field_results :
  (exists a,
      result (@advection Grid.env0 Grid.unit Grid.step Grid.uvwf_div Grid.dxyz
                         (1 # 4) "minmod" None) = Ok a /\
      elt a 0 0 0 == 1 # 4000000000000 /\ elt a 1 0 0 == 3) /\
  (exists a,
      result (@advection Grid.env0 Grid.unit Grid.step Grid.uvwf_div Grid.dxyz
                         (1 # 4) "minmod" (Some Grid.matrix0)) = Ok a /\
      elt a 0 0 0 == 1 # 4000000000000 /\ elt a 1 0 0 == 0).
Proof.
  split; eexists; (split; [reflexivity|]); split; vm_compute; reflexivity.
Qed.

(** ** The further properties on the small grids *)

(** X1 for "minmod" at the ratio one half *)
Lemma limiter_in_tvd_region_witness :
  let r := full Grid.cells (1 # 2) in
  exists psi,
    limit "minmod" r = Some psi /\
    (elt r 0 0 0 <= 0 -> elt psi 0 0 0 == 0) /\
    (0 <= elt r 0 0 0 -> elt psi 0 0 0 <= 2 * elt r 0 0 0).
Proof.
  intros r. eexists.
  assert (H : limit "minmod" r = Some _) by reflexivity.
  split; [exact H|].
  exact (@limiter_in_tvd_region "minmod" r _ 0 0 0 H).
Defined.

(** X3 for the differences one half and one *)
Lemma clamp_touches_the_dead_zone_only_witness :
  let env := Grid.env0 in
  let d := 1 # 2 in
  let e := 1 in
  0 < TINY /\
  (TINY <= Qabs d -> clamp d = d) /\
  Qabs (clamp d - d) <= TINY /\
  clamp (clamp d) = clamp d /\
  (d <= e -> clamp d <= clamp e).
Proof.
  intros env d e.
  assert (HT : 0 < TINY) by reflexivity.
  split; [exact HT|].
  exact (@clamp_touches_the_dead_zone_only env d e HT).
Defined.

(** X5 on the field with a step, without flow *)
Lemma still_cell_gets_nothing_witness :
  let env := Grid.env0 in
  let rho := Grid.unit in
  let phi := Grid.step in
  let uvwf := Grid.uvwf_still in
  let dxyz := Grid.dxyz in
  let dt := 1 # 4 in
  let limiter := "superbee"%string in
  let m := Grid.matrix0 in
  exists f,
    In limiter limiters /\
    faces_of rho phi uvwf dxyz = Some f /\
    (elt (u_fac f) 0 0 0 == 0 /\ elt (u_fac f) 1 0 0 == 0 /\
     elt (v_fac f) 0 0 0 == 0 /\ elt (v_fac f) 0 1 0 == 0 /\
     elt (w_fac f) 0 0 0 == 0 /\ elt (w_fac f) 0 0 1 == 0) /\
    exists a b m',
      result (advection rho phi uvwf dxyz dt limiter None) = Ok a /\
      result (advection rho phi uvwf dxyz dt limiter (Some m)) = Ok b /\
      matrix_out (advection rho phi uvwf dxyz dt limiter (Some m)) = Some m' /\
      elt a 0 0 0 == 0 /\ elt b 0 0 0 == 0 /\
      elt (band_C m') 0 0 0 == elt (band_C m) 0 0 0 /\
      elt (band_W m') 0 0 0 == elt (band_W m) 0 0 0 /\
      elt (band_E m') 0 0 0 == elt (band_E m) 0 0 0 /\
      elt (band_S m') 0 0 0 == elt (band_S m) 0 0 0 /\
      elt (band_N m') 0 0 0 == elt (band_N m) 0 0 0 /\
      elt (band_B m') 0 0 0 == elt (band_B m) 0 0 0 /\
      elt (band_T m') 0 0 0 == elt (band_T m) 0 0 0.
Proof.
  intros. eexists.
  assert (Hl : In limiter limiters) by (do 2 right; left; reflexivity).
  assert (Hf : faces_of rho phi uvwf dxyz = Some _) by reflexivity.
  split; [exact Hl|]. split; [exact Hf|].
  split.
  { repeat (split; [vm_compute; reflexivity|]). vm_compute; reflexivity. }
  refine (@still_cell_gets_nothing env rho phi uvwf dxyz dt limiter m _ 0 0 0
            Hl Hf _ _ _ _ _ _); vm_compute; reflexivity.
Defined.

(** X6 on the uniform field, unit density and cell sizes *)
Lemma upwind_coefficients_do_not_decrease_witness :
  let env := Grid.env0 in
  let rho := Grid.unit in
  let phi := Grid.field 1 3 in
  let uvwf := Grid.uvwf_sol in
  let dxyz := Grid.dxyz in
  let dt := 1 # 4 in
  let limiter := "koren"%string in
  let m := Grid.matrix0 in
  exists f,
    In limiter limiters /\
    faces_of rho phi uvwf dxyz = Some f /\
    ((1 <= nx (u_fac f))%nat /\ (1 <= ny (v_fac f))%nat /\ (1 <= nz (w_fac f))%nat) /\
    (0 <= elt (rho_x_fac f) 0 0 0 * elt (a_x_fac f) 0 0 0 /\
     0 <= elt (rho_x_fac f) 1 0 0 * elt (a_x_fac f) 1 0 0 /\
     0 <= elt (rho_y_fac f) 0 0 0 * elt (a_y_fac f) 0 0 0 /\
     0 <= elt (rho_y_fac f) 0 1 0 * elt (a_y_fac f) 0 1 0 /\
     0 <= elt (rho_z_fac f) 0 0 0 * elt (a_z_fac f) 0 0 0 /\
     0 <= elt (rho_z_fac f) 0 0 1 * elt (a_z_fac f) 0 0 1) /\
    exists m',
      matrix_out (advection rho phi uvwf dxyz dt limiter (Some m)) = Some m' /\
      elt (band_C m) 0 0 0 <= elt (band_C m') 0 0 0 /\
      elt (band_W m) 0 0 0 <= elt (band_W m') 0 0 0 /\
      elt (band_E m) 0 0 0 <= elt (band_E m') 0 0 0 /\
      elt (band_S m) 0 0 0 <= elt (band_S m') 0 0 0 /\
      elt (band_N m) 0 0 0 <= elt (band_N m') 0 0 0 /\
      elt (band_B m) 0 0 0 <= elt (band_B m') 0 0 0 /\
      elt (band_T m) 0 0 0 <= elt (band_T m') 0 0 0.
Proof.
  intros. eexists.
  assert (Hl : In limiter limiters) by (do 3 right; left; reflexivity).
  assert (Hf : faces_of rho phi uvwf dxyz = Some _) by reflexivity.
  split; [exact Hl|]. split; [exact Hf|].
  split; [cbn; lia|].
  split.
  { repeat (split; [vm_compute; discriminate|]). vm_compute; discriminate. }
  refine (@upwind_coefficients_do_not_decrease env rho phi uvwf dxyz dt limiter m _ 0 0 0
            Hl Hf _ _ _ _ _ _ _ _ _); try (cbn; lia); vm_compute; discriminate.
Defined.

(** X7 for the uniform field with "upwind" and the field with a step
    with "koren" and another time step *)
Lemma matrix_terms_ignore_limiter_and_field_witness :
  let env := Grid.env0 in
  let rho := Grid.unit in
  let phi := Grid.field 1 3 in
  let phi' := Grid.step in
  let uvwf := Grid.uvwf_sol in
  let dxyz := Grid.dxyz in
  let dt := 1 # 4 in
  let dt' := 1 # 2 in
  let limiter := "upwind"%string in
  let limiter' := "koren"%string in
  let m := Grid.matrix0 in
  In limiter limiters /\ In limiter' limiters /\
  In (pos phi) placements /\
  pos phi' = pos phi /\ per_X phi' = per_X phi /\
  per_Y phi' = per_Y phi /\ per_Z phi' = per_Z phi /\
  exists m',
    matrix_out (advection rho phi uvwf dxyz dt limiter (Some m)) = Some m' /\
    matrix_out (advection rho phi' uvwf dxyz dt' limiter' (Some m)) = Some m'.
Proof.
  intros.
  assert (Hl : In limiter limiters) by (left; reflexivity).
  assert (Hl' : In limiter' limiters) by (do 3 right; left; reflexivity).
  assert (Hp : In (pos phi) placements) by (left; reflexivity).
  split; [exact Hl|]. split; [exact Hl'|]. split; [exact Hp|].
  split; [reflexivity|]. split; [reflexivity|]. split; [reflexivity|].
  split; [reflexivity|].
  exact (@matrix_terms_ignore_limiter_and_field env rho phi phi' uvwf dxyz dt dt'
           limiter limiter' m Hl Hl' Hp eq_refl eq_refl eq_refl eq_refl).
Defined.

(** X10 on the field with a step, summed over the eight cells *)
Lemma result_sums_to_the_boundary_fluxes_witness :
  let env := Grid.env0 in
  let rho := Grid.unit in
  let phi := Grid.step in
  let uvwf := Grid.uvwf_div in
  let dxyz := Grid.dxyz in
  let dt := 1 # 4 in
  let limiter := "minmod"%string in
  let n1 := 2%nat in
  let n2 := 2%nat in
  let n3 := 2%nat in
  exists f,
    In limiter limiters /\
    faces_of rho phi uvwf dxyz = Some f /\
    exists a psi_x psi_y psi_z,
      result (advection rho phi uvwf dxyz dt limiter None) = Ok a /\
      limit limiter (r_x f (d_x (pos phi) (per_X phi) (exchange phi))) = Some psi_x /\
      limit limiter (r_y f (d_y (pos phi) (per_Y phi) (exchange phi))) = Some psi_y /\
      limit limiter (r_z f (d_z (pos phi) (per_Z phi) (exchange phi))) = Some psi_z /\
      let Fx := flux_fac_lim_x (exchange phi) f dt
                               (d_x (pos phi) (per_X phi) (exchange phi)) psi_x in
      let Fy := flux_fac_lim_y (exchange phi) f dt
                               (d_y (pos phi) (per_Y phi) (exchange phi)) psi_y in
      let Fz := flux_fac_lim_z (exchange phi) f dt
                               (d_z (pos phi) (per_Z phi) (exchange phi)) psi_z in
      total a n1 n2 n3 ==
        sum_n n2 (fun j => sum_n n3 (fun k => elt Fx n1 j k - elt Fx 0 j k))
        + sum_n n1 (fun i => sum_n n3 (fun k => elt Fy i n2 k - elt Fy i 0 k))
        + sum_n n1 (fun i => sum_n n2 (fun j => elt Fz i j n3 - elt Fz i j 0)).
Proof.
  intros. eexists.
  assert (Hl : In limiter limiters) by (right; left; reflexivity).
  assert (Hf : faces_of rho phi uvwf dxyz = Some _) by reflexivity.
  split; [exact Hl|]. split; [exact Hf|].
  exact (@result_sums_to_the_boundary_fluxes env rho phi uvwf dxyz dt limiter _ n1 n2 n3
           Hl Hf).
Defined.

Lemma conformable_step : conformable Grid.step.
Proof. repeat split. Qed.

(** X11 on the field with a step *)
Lemma outer_differences_are_the_threshold_witness :
  let env := Grid.env0 in
  let p := 3%Z in
  let phi := Grid.step in
  0 < TINY /\
  conformable phi /\
  (let d := d_x p false phi in
   elt d 0 0 0 == - TINY /\
   elt d (nx (val phi) + 2) 0 0 == - TINY /\
   elt (r_x_we d) 0 0 0 == - elt d 1 0 0 / TINY /\
   elt (r_x_ew d) (nx (val phi)) 0 0 == - TINY / elt d (nx (val phi) + 1) 0 0) /\
  (let d := d_y p false phi in
   elt d 0 0 0 == - TINY /\
   elt d 0 (ny (val phi) + 2) 0 == - TINY /\
   elt (r_y_sn d) 0 0 0 == - elt d 0 1 0 / TINY /\
   elt (r_y_ns d) 0 (ny (val phi)) 0 == - TINY / elt d 0 (ny (val phi) + 1) 0) /\
  (let d := d_z p false phi in
   elt d 0 0 0 == - TINY /\
   elt d 0 0 (nz (val phi) + 2) == - TINY /\
   elt (r_z_bt d) 0 0 0 == - elt d 0 0 1 / TINY /\
   elt (r_z_tb d) 0 0 (nz (val phi)) == - TINY / elt d 0 0 (nz (val phi) + 1)).
Proof.
  intros env p phi.
  assert (HT : 0 < TINY) by reflexivity.
  split; [exact HT|]. split; [exact conformable_step|].
  exact (@outer_differences_are_the_threshold env p phi 0 0 0 HT conformable_step).
Defined.

Lemma staggered_sol : staggered Grid.uvwf_sol 2 2 2.
Proof. repeat split. Qed.

(** X12 on the field with a step *)
Lemma result_has_the_extents_of_the_field_witness :
  let env := Grid.env0 in
  let rho := Grid.unit in
  let dx := Grid.unit in
  let dy := Grid.unit in
  let dz := Grid.unit in
  let phi := Grid.step in
  let uf := Grid.u_face 1 2 3 in
  let vf := Grid.v_face 1 0 (-1) in
  let wf := Grid.w_face 0 0 0 in
  let dt := 1 # 4 in
  let limiter := "superbee"%string in
  let m := Grid.matrix0 in
  let n1 := 2%nat in
  let n2 := 2%nat in
  let n3 := 2%nat in
  In limiter limiters /\
  ((pos phi =? pos_C)%Z = true /\ (pos phi =? pos_X)%Z = false /\
   (pos phi =? pos_Y)%Z = false /\ (pos phi =? pos_Z)%Z = false) /\
  ((1 <= n1)%nat /\ (1 <= n2)%nat /\ (1 <= n3)%nat) /\
  (shape rho = (n1, n2, n3) /\ shape dx = (n1, n2, n3) /\
   shape dy = (n1, n2, n3) /\ shape dz = (n1, n2, n3)) /\
  shape (val (exchange phi)) = (n1, n2, n3) /\ conformable (exchange phi) /\
  staggered (exchange uf, exchange vf, exchange wf) n1 n2 n3 /\
  ((per_X phi = true -> (3 <= n1)%nat) /\
   (per_Y phi = true -> (3 <= n2)%nat) /\
   (per_Z phi = true -> (3 <= n3)%nat)) /\
  Forall (fun a => shape a = (n1, n2, n3))
         [band_C m; band_W m; band_E m; band_S m; band_N m; band_B m; band_T m] /\
  exists f a b m',
    faces_of rho phi (uf, vf, wf) (dx, dy, dz) = Some f /\
    Forall (fun a => shape a = (S n1, n2, n3))
           (operands_x (exchange phi) f (d_x (pos phi) (per_X phi) (exchange phi))) /\
    Forall (fun a => shape a = (n1, S n2, n3))
           (operands_y (exchange phi) f (d_y (pos phi) (per_Y phi) (exchange phi))) /\
    Forall (fun a => shape a = (n1, n2, S n3))
           (operands_z (exchange phi) f (d_z (pos phi) (per_Z phi) (exchange phi))) /\
    Forall (fun a => shape a = (n1, n2, n3))
           [slice_x None (Some (-1)%Z) (mflow_we f); slice_x (Some 1%Z) None (mflow_ew f);
            slice_y None (Some (-1)%Z) (mflow_sn f); slice_y (Some 1%Z) None (mflow_ns f);
            slice_z None (Some (-1)%Z) (mflow_bt f); slice_z (Some 1%Z) None (mflow_tb f)] /\
    result (advection rho phi (uf, vf, wf) (dx, dy, dz) dt limiter None) = Ok a /\
    result (advection rho phi (uf, vf, wf) (dx, dy, dz) dt limiter (Some m)) = Ok b /\
    matrix_out (advection rho phi (uf, vf, wf) (dx, dy, dz) dt limiter (Some m)) = Some m' /\
    shape a = (n1, n2, n3) /\ shape b = (n1, n2, n3) /\
    Forall (fun a => shape a = (n1, n2, n3))
           [band_C m'; band_W m'; band_E m'; band_S m'; band_N m'; band_B m'; band_T m'].
Proof.
  intros.
  assert (Hl : In limiter limiters) by (do 2 right; left; reflexivity).
  assert (HC : (pos phi =? pos_C)%Z = true) by reflexivity.
  assert (HX : (pos phi =? pos_X)%Z = false) by reflexivity.
  assert (HY : (pos phi =? pos_Y)%Z = false) by reflexivity.
  assert (HZ : (pos phi =? pos_Z)%Z = false) by reflexivity.
  assert (P1 : (1 <= n1)%nat) by (cbn; lia).
  assert (P2 : (1 <= n2)%nat) by (cbn; lia).
  assert (P3 : (1 <= n3)%nat) by (cbn; lia).
  assert (Sr : shape rho = (n1, n2, n3)) by reflexivity.
  assert (Sv : shape (val (exchange phi)) = (n1, n2, n3)) by reflexivity.
  assert (PX : per_X phi = true -> (3 <= n1)%nat) by (cbn; discriminate).
  assert (PY : per_Y phi = true -> (3 <= n2)%nat) by (cbn; discriminate).
  assert (PZ : per_Z phi = true -> (3 <= n3)%nat) by (cbn; discriminate).
  assert (Sm : Forall (fun a => shape a = (n1, n2, n3))
                      [band_C m; band_W m; band_E m; band_S m; band_N m; band_B m;
                       band_T m])
    by (repeat (apply Forall_cons; [reflexivity|]); apply Forall_nil).
  split; [exact Hl|].
  split; [split; [exact HC|split; [exact HX|split; [exact HY|exact HZ]]]|].
  split; [split; [exact P1|split; [exact P2|exact P3]]|].
  split; [split; [exact Sr|split; [exact Sr|split; [exact Sr|exact Sr]]]|].
  split; [exact Sv|]. split; [exact conformable_step|].
  split; [exact staggered_sol|].
  split; [split; [exact PX|split; [exact PY|exact PZ]]|].
  split; [exact Sm|].
  exact (@result_has_the_extents_of_the_field env rho dx dy dz phi uf vf wf dt limiter m
           n1 n2 n3 Hl HC HX HY HZ P1 P2 P3 Sr Sr Sr Sr Sv conformable_step
           staggered_sol PX PY PZ Sm).
Defined.

(** X13 on the uniform field *)
Lemma cell_centred_operands_conform_witness :
  let env := Grid.env0 in
  let rho := Grid.unit in
  let dx := Grid.unit in
  let dy := Grid.unit in
  let dz := Grid.unit in
  let phi := Grid.field 1 3 in
  let uf := Grid.u_face 1 2 3 in
  let vf := Grid.v_face 1 0 (-1) in
  let wf := Grid.w_face 0 0 0 in
  let n1 := 2%nat in
  let n2 := 2%nat in
  let n3 := 2%nat in
  ((1 <= n1)%nat /\ (1 <= n2)%nat /\ (1 <= n3)%nat) /\
  (shape rho = (n1, n2, n3) /\ shape dx = (n1, n2, n3) /\
   shape dy = (n1, n2, n3) /\ shape dz = (n1, n2, n3)) /\
  shape (val phi) = (n1, n2, n3) /\ conformable phi /\
  staggered (uf, vf, wf) n1 n2 n3 /\
  ((per_X phi = true -> (3 <= n1)%nat) /\
   (per_Y phi = true -> (3 <= n2)%nat) /\
   (per_Z phi = true -> (3 <= n3)%nat)) /\
  let f := faces_C rho (dy [*] dz) (dx [*] dz) (dx [*] dy) dx dy dz
                   (per_X phi) (per_Y phi) (per_Z phi) uf vf wf in
  Forall (fun a => shape a = (S n1, n2, n3))
         (operands_x phi f (d_x (pos phi) (per_X phi) phi)) /\
  Forall (fun a => shape a = (n1, S n2, n3))
         (operands_y phi f (d_y (pos phi) (per_Y phi) phi)) /\
  Forall (fun a => shape a = (n1, n2, S n3))
         (operands_z phi f (d_z (pos phi) (per_Z phi) phi)) /\
  Forall (fun a => shape a = (n1, n2, n3))
         [slice_x None (Some (-1)%Z) (mflow_we f); slice_x (Some 1%Z) None (mflow_ew f);
          slice_y None (Some (-1)%Z) (mflow_sn f); slice_y (Some 1%Z) None (mflow_ns f);
          slice_z None (Some (-1)%Z) (mflow_bt f); slice_z (Some 1%Z) None (mflow_tb f)].
Proof.
  intros.
  assert (P1 : (1 <= n1)%nat) by (cbn; lia).
  assert (P2 : (1 <= n2)%nat) by (cbn; lia).
  assert (P3 : (1 <= n3)%nat) by (cbn; lia).
  assert (Sr : shape rho = (n1, n2, n3)) by reflexivity.
  assert (Sv : shape (val phi) = (n1, n2, n3)) by reflexivity.
  assert (HX : per_X phi = true -> (3 <= n1)%nat) by (cbn; discriminate).
  assert (HY : per_Y phi = true -> (3 <= n2)%nat) by (cbn; discriminate).
  assert (HZ : per_Z phi = true -> (3 <= n3)%nat) by (cbn; discriminate).
  split; [split; [exact P1|split; [exact P2|exact P3]]|].
  split; [split; [exact Sr|split; [exact Sr|split; [exact Sr|exact Sr]]]|].
  split; [exact Sv|]. split; [exact conformable_field_one|].
  split; [exact staggered_sol|].
  split; [split; [exact HX|split; [exact HY|exact HZ]]|].
  exact (@cell_centred_operands_conform env rho dx dy dz phi uf vf wf n1 n2 n3
           P1 P2 P3 Sr Sr Sr Sr Sv conformable_field_one staggered_sol HX HY HZ).
Defined.

Lemma conformable_x_face : conformable (Grid.u_face 1 2 3).
Proof. repeat split. Qed.

(** X14 for the x velocity carried by the velocity itself *)
Lemma staggered_x_operands_conform_witness :
  let env := Grid.env0 in
  let rho := Grid.unit in
  let dx := Grid.unit in
  let dy := Grid.unit in
  let dz := Grid.unit in
  let phi := Grid.u_face 1 2 3 in
  let uf := Grid.u_face 1 2 3 in
  let vf := Grid.v_face 1 0 (-1) in
  let wf := Grid.w_face 0 0 0 in
  let n1 := 2%nat in
  let n2 := 2%nat in
  let n3 := 2%nat in
  ((2 <= n1)%nat /\ (2 <= n2)%nat /\ (2 <= n3)%nat) /\
  (shape rho = (n1, n2, n3) /\ shape dx = (n1, n2, n3) /\
   shape dy = (n1, n2, n3) /\ shape dz = (n1, n2, n3)) /\
  shape (val phi) = ((n1 - 1)%nat, n2, n3) /\ conformable phi /\
  staggered (uf, vf, wf) n1 n2 n3 /\
  ((per_X phi = true -> (3 <= n1 - 1)%nat) /\
   (per_Y phi = true -> (3 <= n2)%nat) /\
   (per_Z phi = true -> (3 <= n3)%nat)) /\
  let f := faces_X rho (dy [*] dz) (dx [*] dz) (dx [*] dy) dx dy dz
                   (per_Y phi) (per_Z phi) uf vf wf in
  Forall (fun a => shape a = (n1, n2, n3))
         (operands_x phi f (d_x (pos phi) (per_X phi) phi)) /\
  Forall (fun a => shape a = ((n1 - 1)%nat, S n2, n3))
         (operands_y phi f (d_y (pos phi) (per_Y phi) phi)) /\
  Forall (fun a => shape a = ((n1 - 1)%nat, n2, S n3))
         (operands_z phi f (d_z (pos phi) (per_Z phi) phi)) /\
  Forall (fun a => shape a = ((n1 - 1)%nat, n2, n3))
         [slice_x None (Some (-1)%Z) (mflow_we f); slice_x (Some 1%Z) None (mflow_ew f);
          slice_y None (Some (-1)%Z) (mflow_sn f); slice_y (Some 1%Z) None (mflow_ns f);
          slice_z None (Some (-1)%Z) (mflow_bt f); slice_z (Some 1%Z) None (mflow_tb f)].
Proof.
  intros.
  assert (P1 : (2 <= n1)%nat) by (cbn; lia).
  assert (P2 : (2 <= n2)%nat) by (cbn; lia).
  assert (P3 : (2 <= n3)%nat) by (cbn; lia).
  assert (Sr : shape rho = (n1, n2, n3)) by reflexivity.
  assert (Sv : shape (val phi) = ((n1 - 1)%nat, n2, n3)) by reflexivity.
  assert (HX : per_X phi = true -> (3 <= n1 - 1)%nat) by (cbn; discriminate).
  assert (HY : per_Y phi = true -> (3 <= n2)%nat) by (cbn; discriminate).
  assert (HZ : per_Z phi = true -> (3 <= n3)%nat) by (cbn; discriminate).
  split; [split; [exact P1|split; [exact P2|exact P3]]|].
  split; [split; [exact Sr|split; [exact Sr|split; [exact Sr|exact Sr]]]|].
  split; [exact Sv|]. split; [exact conformable_x_face|].
  split; [exact staggered_sol|].
  split; [split; [exact HX|split; [exact HY|exact HZ]]|].
  exact (@staggered_x_operands_conform env rho dx dy dz phi uf vf wf n1 n2 n3
           P1 P2 P3 Sr Sr Sr Sr Sv conformable_x_face staggered_sol HX HY HZ).
Defined.

Lemma conformable_y_face : conformable (Grid.v_face 1 0 (-1)).
Proof. repeat split. Qed.

(** X15 for the y velocity carried by the velocity itself *)
Lemma staggered_y_operands_conform_witness :
  let env := Grid.env0 in
  let rho := Grid.unit in
  let dx := Grid.unit in
  let dy := Grid.unit in
  let dz := Grid.unit in
  let phi := Grid.v_face 1 0 (-1) in
  let uf := Grid.u_face 1 2 3 in
  let vf := Grid.v_face 1 0 (-1) in
  let wf := Grid.w_face 0 0 0 in
  let n1 := 2%nat in
  let n2 := 2%nat in
  let n3 := 2%nat in
  ((2 <= n1)%nat /\ (2 <= n2)%nat /\ (2 <= n3)%nat) /\
  (shape rho = (n1, n2, n3) /\ shape dx = (n1, n2, n3) /\
   shape dy = (n1, n2, n3) /\ shape dz = (n1, n2, n3)) /\
  shape (val phi) = (n1, (n2 - 1)%nat, n3) /\ conformable phi /\
  staggered (uf, vf, wf) n1 n2 n3 /\
  ((per_X phi = true -> (3 <= n1)%nat) /\
   (per_Y phi = true -> (3 <= n2 - 1)%nat) /\
   (per_Z phi = true -> (3 <= n3)%nat)) /\
  let f := faces_Y rho (dy [*] dz) (dx [*] dz) (dx [*] dy) dx dy dz
                   (per_X phi) (per_Z phi) uf vf wf in
  Forall (fun a => shape a = (S n1, (n2 - 1)%nat, n3))
         (operands_x phi f (d_x (pos phi) (per_X phi) phi)) /\
  Forall (fun a => shape a = (n1, n2, n3))
         (operands_y phi f (d_y (pos phi) (per_Y phi) phi)) /\
  Forall (fun a => shape a = (n1, (n2 - 1)%nat, S n3))
         (operands_z phi f (d_z (pos phi) (per_Z phi) phi)) /\
  Forall (fun a => shape a = (n1, (n2 - 1)%nat, n3))
         [slice_x None (Some (-1)%Z) (mflow_we f); slice_x (Some 1%Z) None (mflow_ew f);
          slice_y None (Some (-1)%Z) (mflow_sn f); slice_y (Some 1%Z) None (mflow_ns f);
          slice_z None (Some (-1)%Z) (mflow_bt f); slice_z (Some 1%Z) None (mflow_tb f)].
Proof.
  intros.
  assert (P1 : (2 <= n1)%nat) by (cbn; lia).
  assert (P2 : (2 <= n2)%nat) by (cbn; lia).
  assert (P3 : (2 <= n3)%nat) by (cbn; lia).
  assert (Sr : shape rho = (n1, n2, n3)) by reflexivity.
  assert (Sv : shape (val phi) = (n1, (n2 - 1)%nat, n3)) by reflexivity.
  assert (HX : per_X phi = true -> (3 <= n1)%nat) by (cbn; discriminate).
  assert (HY : per_Y phi = true -> (3 <= n2 - 1)%nat) by (cbn; discriminate).
  assert (HZ : per_Z phi = true -> (3 <= n3)%nat) by (cbn; discriminate).
  split; [split; [exact P1|split; [exact P2|exact P3]]|].
  split; [split; [exact Sr|split; [exact Sr|split; [exact Sr|exact Sr]]]|].
  split; [exact Sv|]. split; [exact conformable_y_face|].
  split; [exact staggered_sol|].
  split; [split; [exact HX|split; [exact HY|exact HZ]]|].
  exact (@staggered_y_operands_conform env rho dx dy dz phi uf vf wf n1 n2 n3
           P1 P2 P3 Sr Sr Sr Sr Sv conformable_y_face staggered_sol HX HY HZ).
Defined.

Lemma conformable_z_face : conformable (Grid.w_face 0 0 0).
Proof. repeat split. Qed.

(** X16 for the z velocity carried by the velocity itself *)
Lemma staggered_z_operands_conform_witness :
  let env := Grid.env0 in
  let rho := Grid.unit in
  let dx := Grid.unit in
  let dy := Grid.unit in
  let dz := Grid.unit in
  let phi := Grid.w_face 0 0 0 in
  let uf := Grid.u_face 1 2 3 in
  let vf := Grid.v_face 1 0 (-1) in
  let wf := Grid.w_face 0 0 0 in
  let n1 := 2%nat in
  let n2 := 2%nat in
  let n3 := 2%nat in
  ((2 <= n1)%nat /\ (2 <= n2)%nat /\ (2 <= n3)%nat) /\
  (shape rho = (n1, n2, n3) /\ shape dx = (n1, n2, n3) /\
   shape dy = (n1, n2, n3) /\ shape dz = (n1, n2, n3)) /\
  shape (val phi) = (n1, n2, (n3 - 1)%nat) /\ conformable phi /\
  staggered (uf, vf, wf) n1 n2 n3 /\
  ((per_X phi = true -> (3 <= n1)%nat) /\
   (per_Y phi = true -> (3 <= n2)%nat) /\
   (per_Z phi = true -> (3 <= n3 - 1)%nat)) /\
  let f := faces_Z rho (dy [*] dz) (dx [*] dz) (dx [*] dy) dx dy dz
                   (per_X phi) (per_Y phi) uf vf wf in
  Forall (fun a => shape a = (S n1, n2, (n3 - 1)%nat))
         (operands_x phi f (d_x (pos phi) (per_X phi) phi)) /\
  Forall (fun a => shape a = (n1, S n2, (n3 - 1)%nat))
         (operands_y phi f (d_y (pos phi) (per_Y phi) phi)) /\
  Forall (fun a => shape a = (n1, n2, n3))
         (operands_z phi f (d_z (pos phi) (per_Z phi) phi)) /\
  Forall (fun a => shape a = (n1, n2, (n3 - 1)%nat))
         [slice_x None (Some (-1)%Z) (mflow_we f); slice_x (Some 1%Z) None (mflow_ew f);
          slice_y None (Some (-1)%Z) (mflow_sn f); slice_y (Some 1%Z) None (mflow_ns f);
          slice_z None (Some (-1)%Z) (mflow_bt f); slice_z (Some 1%Z) None (mflow_tb f)].
Proof.
  intros.
  assert (P1 : (2 <= n1)%nat) by (cbn; lia).
  assert (P2 : (2 <= n2)%nat) by (cbn; lia).
  assert (P3 : (2 <= n3)%nat) by (cbn; lia).
  assert (Sr : shape rho = (n1, n2, n3)) by reflexivity.
  assert (Sv : shape (val phi) = (n1, n2, (n3 - 1)%nat)) by reflexivity.
  assert (HX : per_X phi = true -> (3 <= n1)%nat) by (cbn; discriminate).
  assert (HY : per_Y phi = true -> (3 <= n2)%nat) by (cbn; discriminate).
  assert (HZ : per_Z phi = true -> (3 <= n3 - 1)%nat) by (cbn; discriminate).
  split; [split; [exact P1|split; [exact P2|exact P3]]|].
  split; [split; [exact Sr|split; [exact Sr|split; [exact Sr|exact Sr]]]|].
  split; [exact Sv|]. split; [exact conformable_z_face|].
  split; [exact staggered_sol|].
  split; [split; [exact HX|split; [exact HY|exact HZ]]|].
  exact (@staggered_z_operands_conform env rho dx dy dz phi uf vf wf n1 n2 n3
           P1 P2 P3 Sr Sr Sr Sr Sv conformable_z_face staggered_sol HX HY HZ).
Defined.

(** X17 on the field that is periodic along x *)
Lemma periodic_differences_repeat_witness :
  let env := Grid.env0 in
  let p := 3%Z in
  let phi := Grid.loop in
  let d := d_x p true phi in
  let n := nx (val phi) in
  (p =? pos_X)%Z = false /\ (3 <= n)%nat /\ 0 < TINY /\
  elt (val phi) 0 0 0 == elt (val phi) (n - 1) 0 0 /\
  elt d 0 0 0 = elt d (n - 1) 0 0 /\
  elt d 3 0 0 = elt d (n + 2) 0 0 /\
  elt d 1 0 0 == elt d n 0 0 /\
  elt d 2 0 0 == elt d (n + 1) 0 0.
Proof.
  intros.
  assert (Hp : (p =? pos_X)%Z = false) by reflexivity.
  assert (Hn : (3 <= n)%nat) by (cbn; lia).
  assert (HT : 0 < TINY) by reflexivity.
  assert (Hv : elt (val phi) 0 0 0 == elt (val phi) (n - 1) 0 0) by reflexivity.
  split; [exact Hp|]. split; [exact Hn|]. split; [exact HT|]. split; [exact Hv|].
  destruct (proj2 (proj1 (@periodic_differences_repeat env p phi 0 0 0)) Hp Hn)
    as (A & B & C).
  destruct (C HT Hv) as (C1 & C2).
  split; [exact A|]. split; [exact B|]. split; [exact C1|exact C2].
Defined.

(** X18 on a field with the tag 7 *)
Lemma calc_phi_raises_for_unknown_placement_witness :
  let env := Grid.env0 in
  let col := Grid.col0 in
  let phi := Grid.field 1 7 in
  let uvwf := Grid.uvwf_sol in
  let density := Grid.unit in
  let gamma : Gamma := 1 in
  let dt := 1 # 4 in
  let dxyz := Grid.dxyz in
  let obst : option array := None in
  let src : option array := None in
  ~ In (pos phi) placements /\
  calc_phi phi uvwf density gamma dt dxyz obst src =
    mk_step (Raise (UnboundLocalError "u_fac"))
            (exchange phi)
            (exchange (fst (fst uvwf)), exchange (snd (fst uvwf)), exchange (snd uvwf)).
Proof.
  intros env col phi uvwf density gamma dt dxyz obst src.
  assert (Hp : ~ In (pos phi) placements)
    by (intros [H|[H|[H|[H|[]]]]]; discriminate).
  split; [exact Hp|].
  exact (@calc_phi_raises_for_unknown_placement env col phi uvwf density gamma dt dxyz
           obst src Hp).
Defined.

(** X4 at the interior x face of the first row: the velocity 2 and the
    time step one half give the distance 1 between the cell centres *)
Lemma courant_one_gives_upwind_flux_witness :
  let env := Grid.env0 in
  let phi := Grid.step in
  let f := faces_C Grid.unit Grid.unit Grid.unit Grid.unit Grid.unit Grid.unit Grid.unit
                   false false false
                   (Grid.u_face 1 2 3) (Grid.v_face 1 0 (-1)) (Grid.w_face 0 0 0) in
  let dt := 1 # 2 in
  let d := d_x 3 false phi in
  let psi := full (3, 2, 2)%nat 1 in
  ~ elt (del_x f) 1 0 0 == 0 /\
  Qabs (elt (u_fac f) 1 0 0) * dt == elt (del_x f) 1 0 0 /\
  elt (flux_fac_lim_x phi f dt d psi) 1 0 0 == elt (flux_fac_upw_x phi f) 1 0 0.
Proof.
  intros.
  assert (H0 : ~ elt (del_x f) 1 0 0 == 0) by (vm_compute; discriminate).
  assert (H1 : Qabs (elt (u_fac f) 1 0 0) * dt == elt (del_x f) 1 0 0)
    by (vm_compute; reflexivity).
  split; [exact H0|]. split; [exact H1|].
  exact (proj1 (@courant_one_gives_upwind_flux phi f dt d psi 1 0 0) H0 H1).
Defined.

(** X8 on an array of two slabs along x *)
Lemma periodic_patch_copies_inner_slabs_witness :
  let a := Grid.unit in
  (2 <= nx a)%nat /\
  shape (wrap_x a) = shape a /\
  elt (wrap_x a) 0 0 0 = elt a (nx a - 2) 0 0 /\
  elt (wrap_x a) (nx a - 1) 0 0 = elt a 1 0 0 /\
  ((0 < 0 < nx a - 1)%nat -> elt (wrap_x a) 0 0 0 = elt a 0 0 0) /\
  elt (wrap_x (wrap_x a)) 0 0 0 = elt (wrap_x a) 0 0 0.
Proof.
  intros.
  assert (H : (2 <= nx a)%nat) by (cbn; lia).
  split; [exact H|].
  exact (proj1 (@periodic_patch_copies_inner_slabs a 0 0 0) H).
Defined.

(** X9 for the density along x, not periodic *)
Lemma cell_centred_face_values_witness :
  let rho := Grid.unit in
  let f := faces_C rho Grid.unit Grid.unit Grid.unit Grid.unit Grid.unit Grid.unit
                   false false false
                   (Grid.u_face 1 2 3) (Grid.v_face 1 0 (-1)) (Grid.w_face 0 0 0) in
  (2 <= nx rho)%nat /\
  face_values false (nx rho) (fun i => elt rho i 0 0) (fun v => v)
              (fun i => elt (rho_x_fac f) i 0 0).
Proof.
  intros.
  assert (H : (2 <= nx rho)%nat) by (cbn; lia).
  split; [exact H|].
  exact (proj1 (@cell_centred_face_values rho Grid.unit Grid.unit Grid.unit
                  Grid.unit Grid.unit Grid.unit false false false
                  (Grid.u_face 1 2 3) (Grid.v_face 1 0 (-1)) (Grid.w_face 0 0 0)
                  0 0 0) H).
Defined.

